(** * Indicator engine of [server/technical-analysis.ts]

    A shallow embedding of the technical-indicator calculators: RSI, EMA, SMA,
    MACD, Bollinger Bands, the volume indicator, Stochastic, ADX, ATR, OBV,
    Momentum, ROC, support/resistance and trend strength.

    Numbers.  A TypeScript [number] is modelled by [num]: an exact rational
    ([Fin q]), the two infinities and [NaN], together with the value
    [undefined] that an out-of-range array read produces.  Arithmetic on
    finite values is exact (no rounding, no overflow, one zero); a division by
    zero produces [NaN] or an infinity as in the source language, and
    comparisons with [NaN] are false.  The fields of a candle are finite.

    Errors.  [Array.prototype.reduce] without an initial value throws a
    [TypeError] on an empty array, and so does a property read on
    [undefined]; calculators that can reach either return a [result].

    Indices.  Periods, lengths and indices are natural numbers.  Where the
    source subtracts from an index it does so under a length guard or under
    [Math.max(0, _)], so that the truncated subtraction of [nat] agrees with
    it; the one other case is the read of the last element, [xs[xs.length -
    1]], which is [undefined] on the empty array here as there.
    [slice(-n)] is [slice_last].

    The file first gives the calculators as the source writes them, then the
    vocabulary of the properties, then the properties. *)

From Stdlib Require Import QArith Qabs Qminmax List Sorted Arith Lia Lqa Psatz
  Bool ZArith.
Import ListNotations.

Set Implicit Arguments.
Open Scope nat_scope.

(** ** Numbers *)

Inductive num : Type :=
| Fin (q : Q)
| PInf
| NInf
| NaN
| Undefined.

(** The infinity (or [NaN]) that a sign selects. *)
Definition inf_of_sign (c : comparison) : num :=
  match c with Gt => PInf | Lt => NInf | Eq => NaN end.

Definition Qltb (a b : Q) : bool := negb (Qle_bool b a).

Definition nneg (a : num) : num :=
  match a with
  | Fin q => Fin (- q)
  | PInf => NInf
  | NInf => PInf
  | NaN | Undefined => NaN
  end.

Definition nadd (a b : num) : num :=
  match a, b with
  | Fin x, Fin y => Fin (x + y)
  | (NaN | Undefined), _ | _, (NaN | Undefined) => NaN
  | PInf, NInf | NInf, PInf => NaN
  | PInf, _ | _, PInf => PInf
  | NInf, _ | _, NInf => NInf
  end.

Definition nsub (a b : num) : num := nadd a (nneg b).

Definition nmul (a b : num) : num :=
  match a, b with
  | Fin x, Fin y => Fin (x * y)
  | (NaN | Undefined), _ | _, (NaN | Undefined) => NaN
  | PInf, Fin y | Fin y, PInf => inf_of_sign (y ?= 0)%Q
  | NInf, Fin y | Fin y, NInf => inf_of_sign (0 ?= y)%Q
  | PInf, PInf | NInf, NInf => PInf
  | PInf, NInf | NInf, PInf => NInf
  end.

Definition ndiv (a b : num) : num :=
  match a, b with
  | Fin x, Fin y =>
      if Qeq_bool y 0 then inf_of_sign (x ?= 0)%Q else Fin (x / y)
  | (NaN | Undefined), _ | _, (NaN | Undefined) => NaN
  | Fin _, (PInf | NInf) => Fin 0
  | PInf, Fin y => if Qltb y 0 then NInf else PInf
  | NInf, Fin y => if Qltb y 0 then PInf else NInf
  | (PInf | NInf), (PInf | NInf) => NaN
  end.

(** [a < b]; false as soon as one side is [NaN]. *)
Definition nlt (a b : num) : bool :=
  match a, b with
  | Fin x, Fin y => Qltb x y
  | (NaN | Undefined), _ | _, (NaN | Undefined) => false
  | NInf, (Fin _ | PInf) => true
  | Fin _, PInf => true
  | _, _ => false
  end.

Definition nle (a b : num) : bool :=
  match a, b with
  | Fin x, Fin y => Qle_bool x y
  | (NaN | Undefined), _ | _, (NaN | Undefined) => false
  | NInf, _ => true
  | _, PInf => true
  | _, _ => false
  end.

Definition ngt (a b : num) : bool := nlt b a.
Definition nge (a b : num) : bool := nle b a.

(** Strict equality [===]. *)
Definition neq (a b : num) : bool :=
  match a, b with
  | Fin x, Fin y => Qeq_bool x y
  | PInf, PInf | NInf, NInf | Undefined, Undefined => true
  | _, _ => false
  end.

Definition nne (a b : num) : bool := negb (neq a b).

(** [Math.abs] *)
Definition nabs (a : num) : num :=
  match a with
  | Fin q => Fin (Qabs q)
  | PInf | NInf => PInf
  | NaN | Undefined => NaN
  end.

(** Binary step of [Math.max] and [Math.min]. *)
Definition nmax (a b : num) : num :=
  match a, b with
  | Fin x, Fin y => Fin (Qmax x y)
  | (NaN | Undefined), _ | _, (NaN | Undefined) => NaN
  | PInf, _ | _, PInf => PInf
  | NInf, c | c, NInf => c
  end.

Definition nmin (a b : num) : num :=
  match a, b with
  | Fin x, Fin y => Fin (Qmin x y)
  | (NaN | Undefined), _ | _, (NaN | Undefined) => NaN
  | NInf, _ | _, NInf => NInf
  | PInf, c | c, PInf => c
  end.

(** [Math.max(...xs)] and [Math.min(...xs)]: the empty spread gives the
    neutral infinity. *)
Definition max_list (xs : list num) : num := fold_left nmax xs NInf.
Definition min_list (xs : list num) : num := fold_left nmin xs PInf.

Definition of_nat (n : nat) : num := Fin (inject_Z (Z.of_nat n)).

(** [a] is a real number of the closed interval [[lo, hi]]. *)
Definition within (lo hi : Q) (a : num) : Prop :=
  exists q, a = Fin q /\ (lo <= q <= hi)%Q.

(** ** Errors and arrays *)

Inductive result (A : Type) : Type :=
| Ok (a : A)
| TypeError.

Arguments Ok {A} a.
Arguments TypeError {A}.

Definition bind {A B} (r : result A) (k : A -> result B) : result B :=
  match r with Ok a => k a | TypeError => TypeError end.

Notation "x <- r ;; k" := (bind r (fun x => k))
  (at level 61, r at next level, right associativity).

(** [xs[i]] on an array of numbers. *)
Definition get (xs : list num) (i : nat) : num := nth i xs Undefined.

(** [xs.slice(a, b)] for non-negative [a] and [b]. *)
Definition slice {A} (xs : list A) (a b : nat) : list A :=
  firstn (b - a) (skipn a xs).

(** [xs.slice(-n)]: the last [n] elements; [slice(-0)] is [slice(0)]. *)
Definition slice_last {A} (xs : list A) (n : nat) : list A :=
  match n with
  | O => xs
  | _ => skipn (length xs - n) xs
  end.

(** [xs.reduce((a, b) => a + b)] *)
Definition reduce_add (xs : list num) : result num :=
  match xs with
  | [] => TypeError
  | x :: t => Ok (fold_left nadd t x)
  end.

(** The indices of [for (let i = lo; i < hi; i++)]. *)
Definition range (lo hi : nat) : list nat := List.seq lo (hi - lo).

(** ** Candles *)

Record Candle : Type := mkCandle {
  timestamp : Q;
  open : Q;
  high : Q;
  low : Q;
  close : Q;
  volume : Q
}.

Definition closes (candles : list Candle) : list num :=
  map (fun c => Fin (close c)) candles.

(** ** RSI *)

(** One turn of the gain/loss loop at index [i]. *)
Definition rsi_step (prices : list num) (acc : num * num) (i : nat)
  : num * num :=
  let change := nsub (get prices i) (get prices (i - 1)) in
  if ngt change (Fin 0)
  then (nadd (fst acc) change, snd acc)
  else (fst acc, nadd (snd acc) (nabs change)).

Definition calculateRSI (candles : list Candle) (period : nat) : num :=
  if length candles <? period + 1 then Fin 50
  else
    let prices := closes candles in
    let acc :=
      fold_left (rsi_step prices)
                (range (length prices - period) (length prices))
                (Fin 0, Fin 0) in
    let avgGain := ndiv (fst acc) (of_nat period) in
    let avgLoss := ndiv (snd acc) (of_nat period) in
    if neq avgLoss (Fin 0) then Fin 100
    else
      let rs := ndiv avgGain avgLoss in
      nsub (Fin 100) (ndiv (Fin 100) (nadd (Fin 1) rs)).

(** ** Series utilities *)

(** [candles[i]] followed by a property read: a [TypeError] when the index
    is out of range. *)
Definition candle_at (candles : list Candle) (i : nat) : result Candle :=
  match nth_error candles i with
  | Some c => Ok c
  | None => TypeError
  end.

(** A [for] loop over the indices [idxs] whose body may throw. *)
Fixpoint for_each {S : Type} (body : S -> nat -> result S) (idxs : list nat)
  (s : S) : result S :=
  match idxs with
  | [] => Ok s
  | i :: rest => s' <- body s i ;; for_each body rest s'
  end.

Definition ema_step (prices : list num) (multiplier ema : num) (i : nat)
  : num :=
  nadd (nmul (nsub (get prices i) ema) multiplier) ema.

Definition calculateEMA (prices : list num) (period : nat) : result num :=
  if length prices <? period then Ok (get prices (length prices - 1))
  else
    let multiplier := ndiv (Fin 2) (nadd (of_nat period) (Fin 1)) in
    s <- reduce_add (slice_last prices period) ;;
    let ema := ndiv s (of_nat period) in
    Ok (fold_left (ema_step prices multiplier)
                  (range (length prices - period) (length prices)) ema).

Definition calculateSMA (prices : list num) (period : nat) : result num :=
  if length prices <? period then
    s <- reduce_add prices ;;
    Ok (ndiv s (of_nat (length prices)))
  else
    s <- reduce_add (slice_last prices period) ;;
    Ok (ndiv s (of_nat period)).

(** ** MACD *)

Module MACD.
Record t : Type := mk { value : num; signal : num; histogram : num }.
End MACD.

Definition macd_step (prices : list num) (macdValues : list num) (i : nat)
  : result (list num) :=
  let sl := slice prices 0 i in
  e12 <- calculateEMA sl 12 ;;
  e26 <- calculateEMA sl 26 ;;
  Ok (macdValues ++ [nsub e12 e26]).

Definition calculateMACD (candles : list Candle) : result MACD.t :=
  let prices := closes candles in
  ema12 <- calculateEMA prices 12 ;;
  ema26 <- calculateEMA prices 26 ;;
  let macdValue := nsub ema12 ema26 in
  macdValues <- for_each (macd_step prices)
                         (range 26 (length prices + 1)) [] ;;
  signal <- calculateEMA macdValues 9 ;;
  let histogram := nsub macdValue signal in
  Ok (MACD.mk macdValue signal histogram).

(** ** Volume indicator *)

Definition volumes (candles : list Candle) : list num :=
  map (fun c => Fin (volume c)) candles.

Definition calculateVolumeIndicator (candles : list Candle) : result num :=
  if length candles <? 10 then Ok (Fin 0)
  else
    let recentVolumes := volumes (slice_last candles 5) in
    let olderVolumes :=
      volumes (slice candles (length candles - 10) (length candles - 5)) in
    r <- reduce_add recentVolumes ;;
    let recentAvg := ndiv r (of_nat (length recentVolumes)) in
    o <- reduce_add olderVolumes ;;
    let olderAvg := ndiv o (of_nat (length olderVolumes)) in
    Ok (nmul (nsub (ndiv recentAvg olderAvg) (Fin 1)) (Fin 100)).

(** ** Stochastic *)

Module Stochastic.
Record t : Type := mk { k : num; d : num }.
End Stochastic.

Definition highs (candles : list Candle) : list num :=
  map (fun c => Fin (high c)) candles.

Definition lows (candles : list Candle) : list num :=
  map (fun c => Fin (low c)) candles.

(** [((close - low) / (high - low)) * 100] *)
Definition percent_k (close low high : num) : num :=
  nmul (ndiv (nsub close low) (nsub high low)) (Fin 100).

Definition stochastic_step (candles : list Candle) (kPeriod : nat)
  (kValues : list num) (i : nat) : result (list num) :=
  let sl := slice candles (i + 1 - kPeriod) (i + 1) in
  if kPeriod <=? length sl then
    c <- candle_at candles i ;;
    let close := Fin (close c) in
    let high := max_list (highs sl) in
    let low := min_list (lows sl) in
    if nne high low then Ok (kValues ++ [percent_k close low high])
    else Ok kValues
  else Ok kValues.

Definition calculateStochastic (candles : list Candle) (kPeriod dPeriod : nat)
  : result Stochastic.t :=
  if length candles <? kPeriod then Ok (Stochastic.mk (Fin 50) (Fin 50))
  else
    let recentCandles := slice_last candles kPeriod in
    last <- candle_at candles (length candles - 1) ;;
    let currentClose := Fin (close last) in
    let highestHigh := max_list (highs recentCandles) in
    let lowestLow := min_list (lows recentCandles) in
    let k :=
      if nne highestHigh lowestLow
      then percent_k currentClose lowestLow highestHigh
      else Fin 50 in
    kValues <- for_each (stochastic_step candles kPeriod)
                 (range (length candles - kPeriod - dPeriod) (length candles))
                 [] ;;
    d <- (if dPeriod <=? length kValues then
            s <- reduce_add (slice_last kValues dPeriod) ;;
            Ok (ndiv s (of_nat dPeriod))
          else Ok k) ;;
    Ok (Stochastic.mk k d).

(** ** ADX and ATR *)

Module ADX.
Record t : Type := mk { value : num; plusDI : num; minusDI : num }.
End ADX.

(** [Math.max(high - low, |high - prevClose|, |low - prevClose|)] *)
Definition true_range (prev cur : Candle) : num :=
  max_list [ nsub (Fin (high cur)) (Fin (low cur));
             nabs (nsub (Fin (high cur)) (Fin (close prev)));
             nabs (nsub (Fin (low cur)) (Fin (close prev))) ].

Definition plus_dm (prev cur : Candle) : num :=
  let highMove := nsub (Fin (high cur)) (Fin (high prev)) in
  let lowMove := nsub (Fin (low prev)) (Fin (low cur)) in
  if ngt highMove lowMove && ngt highMove (Fin 0) then highMove else Fin 0.

Definition minus_dm (prev cur : Candle) : num :=
  let highMove := nsub (Fin (high cur)) (Fin (high prev)) in
  let lowMove := nsub (Fin (low prev)) (Fin (low cur)) in
  if ngt lowMove highMove && ngt lowMove (Fin 0) then lowMove else Fin 0.

(** The three histories [trValues], [plusDM] and [minusDM]. *)
Record dm_history : Type := mkHistory {
  trValues : list num;
  plusDM : list num;
  minusDM : list num
}.

Definition adx_step (candles : list Candle) (h : dm_history) (i : nat)
  : result dm_history :=
  cur <- candle_at candles i ;;
  prev <- candle_at candles (i - 1) ;;
  Ok (mkHistory (trValues h ++ [true_range prev cur])
                (plusDM h ++ [plus_dm prev cur])
                (minusDM h ++ [minus_dm prev cur])).

Definition adx_history (candles : list Candle) : result dm_history :=
  for_each (adx_step candles) (range 1 (length candles))
           (mkHistory [] [] []).

(** [xs.reduce((a, b) => a + b) / period] *)
Definition mean_over (xs : list num) (period : nat) : result num :=
  s <- reduce_add xs ;; Ok (ndiv s (of_nat period)).

(** [atr !== 0 ? (avgDM / atr) * 100 : 0] *)
Definition directional_index (avgDM atr : num) : num :=
  if nne atr (Fin 0) then nmul (ndiv avgDM atr) (Fin 100) else Fin 0.

(** [|plusDI - minusDI| / (plusDI + minusDI) * 100] *)
Definition dx_of (plusDI minusDI : num) : num :=
  nmul (ndiv (nabs (nsub plusDI minusDI)) (nadd plusDI minusDI)) (Fin 100).

Definition dx_step (h : dm_history) (period : nat) (dxValues : list num)
  (i : nat) : result (list num) :=
  atrVal <- mean_over (slice (trValues h) (i - period) i) period ;;
  pDM <- mean_over (slice (plusDM h) (i - period) i) period ;;
  mDM <- mean_over (slice (minusDM h) (i - period) i) period ;;
  let pDI := directional_index pDM atrVal in
  let mDI := directional_index mDM atrVal in
  if nne (nadd pDI mDI) (Fin 0) then Ok (dxValues ++ [dx_of pDI mDI])
  else Ok dxValues.

(** The local ATR of [calculateADX]: the mean true range of the trailing
    window. *)
Definition adx_local_atr (candles : list Candle) (period : nat)
  : result num :=
  h <- adx_history candles ;;
  mean_over (slice_last (trValues h) period) period.

Definition calculateADX (candles : list Candle) (period : nat)
  : result ADX.t :=
  if length candles <? period + 1 then Ok (ADX.mk (Fin 0) (Fin 0) (Fin 0))
  else
    h <- adx_history candles ;;
    atr <- mean_over (slice_last (trValues h) period) period ;;
    avgPlusDM <- mean_over (slice_last (plusDM h) period) period ;;
    avgMinusDM <- mean_over (slice_last (minusDM h) period) period ;;
    let plusDI := directional_index avgPlusDM atr in
    let minusDI := directional_index avgMinusDM atr in
    let dx :=
      if nne (nadd plusDI minusDI) (Fin 0) then dx_of plusDI minusDI
      else Fin 0 in
    dxValues <- for_each (dx_step h period)
                  (range period (Nat.min (length (trValues h)) (period * 2)))
                  [] ;;
    adx <- (if 0 <? length dxValues then
              s <- reduce_add dxValues ;;
              Ok (ndiv s (of_nat (length dxValues)))
            else Ok dx) ;;
    Ok (ADX.mk adx plusDI minusDI).

Definition atr_step (candles : list Candle) (trs : list num) (i : nat)
  : result (list num) :=
  cur <- candle_at candles i ;;
  prev <- candle_at candles (i - 1) ;;
  Ok (trs ++ [true_range prev cur]).

Definition calculateATR (candles : list Candle) (period : nat) : result num :=
  if length candles <? period + 1 then Ok (Fin 0)
  else
    trs <- for_each (atr_step candles) (range 1 (length candles)) [] ;;
    mean_over (slice_last trs period) period.

(** ** OBV *)

Definition obv_step (candles : list Candle) (obv : num) (i : nat)
  : result num :=
  cur <- candle_at candles i ;;
  prev <- candle_at candles (i - 1) ;;
  if ngt (Fin (close cur)) (Fin (close prev))
  then Ok (nadd obv (Fin (volume cur)))
  else if nlt (Fin (close cur)) (Fin (close prev))
  then Ok (nsub obv (Fin (volume cur)))
  else Ok obv.

Definition calculateOBV (candles : list Candle) : result num :=
  if length candles <? 2 then Ok (Fin 0)
  else for_each (obv_step candles) (range 1 (length candles)) (Fin 0).

(** ** Momentum and rate of change *)

Definition calculateMomentum (candles : list Candle) (period : nat)
  : result num :=
  if length candles <? period + 1 then Ok (Fin 0)
  else
    cur <- candle_at candles (length candles - 1) ;;
    past <- candle_at candles (length candles - period - 1) ;;
    let currentPrice := Fin (close cur) in
    let pastPrice := Fin (close past) in
    Ok (nmul (ndiv (nsub currentPrice pastPrice) pastPrice) (Fin 100)).

Definition calculateROC (candles : list Candle) (period : nat)
  : result num :=
  if length candles <? period + 1 then Ok (Fin 0)
  else
    cur <- candle_at candles (length candles - 1) ;;
    past <- candle_at candles (length candles - period - 1) ;;
    let currentPrice := Fin (close cur) in
    let pastPrice := Fin (close past) in
    Ok (nmul (ndiv (nsub currentPrice pastPrice) pastPrice) (Fin 100)).

(** ** Support and resistance *)

Module SR.
Record t : Type := mk {
  nearestSupport : num;
  nearestResistance : num;
  distanceToSupport : num;
  distanceToResistance : num
}.
End SR.

(** [xs.sort(cmp)]: a stable sort, here by insertion; [cmp a b > 0] puts
    [b] first. *)
Fixpoint insert_by (cmp : num -> num -> num) (x : num) (l : list num)
  : list num :=
  match l with
  | [] => [x]
  | y :: t =>
      if ngt (cmp y x) (Fin 0) then x :: l else y :: insert_by cmp x t
  end.

Definition sort_by (cmp : num -> num -> num) (l : list num) : list num :=
  fold_left (fun acc x => insert_by cmp x acc) l [].

(** The window [candles.slice(a, b)] with the position of each element, so
    that [c !== center] can be decided: the elements of the array are
    distinct objects. *)
Definition slice_indexed (candles : list Candle) (a b : nat)
  : list (nat * Candle) :=
  combine (range a b) (slice candles a b).

Definition isHigh (window : list (nat * Candle)) (i : nat) (center : Candle)
  : bool :=
  forallb (fun jc => if negb (fst jc =? i)
                     then nge (Fin (high center)) (Fin (high (snd jc)))
                     else true) window.

Definition isLow (window : list (nat * Candle)) (i : nat) (center : Candle)
  : bool :=
  forallb (fun jc => if negb (fst jc =? i)
                     then nle (Fin (low center)) (Fin (low (snd jc)))
                     else true) window.

Definition pivot_step (candles : list Candle) (window : nat)
  (pivotPoints : list num) (i : nat) : result (list num) :=
  let sl := slice_indexed candles (i - window) (i + window + 1) in
  center <- candle_at candles i ;;
  let p1 := if isHigh sl i center
            then pivotPoints ++ [Fin (high center)] else pivotPoints in
  let p2 := if isLow sl i center
            then p1 ++ [Fin (low center)] else p1 in
  Ok p2.

Definition pivot_points (candles : list Candle) : result (list num) :=
  let window := 5 in
  for_each (pivot_step candles window)
           (range window (length candles - window)) [].

Definition findSupportResistance (candles : list Candle) (currentPrice : num)
  : result SR.t :=
  if length candles <? 20 then
    Ok (SR.mk (nmul currentPrice (Fin 0.98)) (nmul currentPrice (Fin 1.02))
              (Fin 2) (Fin 2))
  else
    pivotPoints <- pivot_points candles ;;
    let supports :=
      sort_by (fun a b => nsub b a)
              (filter (fun p => nlt p currentPrice) pivotPoints) in
    let resistances :=
      sort_by (fun a b => nsub a b)
              (filter (fun p => ngt p currentPrice) pivotPoints) in
    let nearestSupport :=
      if 0 <? length supports then get supports 0
      else nmul currentPrice (Fin 0.97) in
    let nearestResistance :=
      if 0 <? length resistances then get resistances 0
      else nmul currentPrice (Fin 1.03) in
    let distanceToSupport :=
      nmul (ndiv (nsub currentPrice nearestSupport) currentPrice) (Fin 100) in
    let distanceToResistance :=
      nmul (ndiv (nsub nearestResistance currentPrice) currentPrice)
           (Fin 100) in
    Ok (SR.mk nearestSupport nearestResistance
              distanceToSupport distanceToResistance).

(** ** Trend strength and market regime *)

Record run_state : Type := mkRun {
  consecutiveMoves : nat;
  lastDirection : Z
}.

(** [for (let i = ...; i > candles.length - 11 && i > 0; i--)] from index
    [i] on; leaving the recursion with the state unchanged is the [break]. *)
Fixpoint run_loop (candles : list Candle) (i : nat) (st : run_state)
  : result run_state :=
  match i with
  | O => Ok st
  | S i' =>
      if length candles - 11 <? i then
        cur <- candle_at candles i ;;
        prev <- candle_at candles i' ;;
        let direction :=
          if ngt (Fin (close cur)) (Fin (close prev)) then 1%Z else (-1)%Z in
        if (lastDirection st =? 0)%Z
        then run_loop candles i' (mkRun 1 direction)
        else if (direction =? lastDirection st)%Z
        then run_loop candles i'
                      (mkRun (consecutiveMoves st + 1) (lastDirection st))
        else Ok st
      else Ok st
  end.

Definition calculateTrendStrength (candles : list Candle) (adxValue : num)
  : result num :=
  if length candles <? 20 then Ok (Fin 0)
  else
    let prices := closes candles in
    sma20 <- calculateSMA prices 20 ;;
    let currentPrice := get prices (length prices - 1) in
    let pricePositionScore :=
      nmul (ndiv (nsub currentPrice sma20) sma20) (Fin 100) in
    st <- run_loop candles (length candles - 1) (mkRun 0 0%Z) ;;
    let momentumScore := nmul (of_nat (consecutiveMoves st)) (Fin 10) in
    let trendStrength :=
      ndiv (nadd (nadd adxValue (nmul (nabs pricePositionScore) (Fin 10)))
                 momentumScore)
           (Fin 3) in
    Ok (nmin (Fin 100) trendStrength).

Inductive MarketRegime : Type := STRONG_TRENDING | TRENDING | RANGING.

Definition determineMarketRegime (adx atr currentPrice : num)
  : MarketRegime :=
  let volatilityRatio := nmul (ndiv atr currentPrice) (Fin 100) in
  if ngt adx (Fin 40) && ngt volatilityRatio (Fin 0.5) then STRONG_TRENDING
  else if ngt adx (Fin 25) then TRENDING
  else RANGING.

(** ** Bollinger Bands and the aggregate report *)

Module Bollinger.
Record t : Type := mk { upper : num; middle : num; lower : num }.
End Bollinger.

Module MovingAverages.
Record t : Type := mk {
  sma20 : num; sma50 : num; sma100 : num; sma200 : num;
  ema12 : num; ema26 : num; ema50 : num
}.
End MovingAverages.

Module BollingerReport.
Record t : Type := mk {
  upper : num; middle : num; lower : num; bandwidth : num
}.
End BollingerReport.

Module TechnicalIndicators.
Record t : Type := mk {
  rsi : num;
  macd : MACD.t;
  movingAverages : MovingAverages.t;
  bollingerBands : BollingerReport.t;
  volumeIndicator : num;
  stochastic : Stochastic.t;
  adx : ADX.t;
  atr : num;
  obv : num;
  momentum : num;
  roc : num;
  supportResistance : SR.t;
  trendStrength : num;
  marketRegime : MarketRegime
}.
End TechnicalIndicators.

(** [((bands.upper - bands.lower) / bands.middle) * 100], as computed in
    [analyzeMarket]. *)
Definition bandwidth_of (bands : Bollinger.t) : num :=
  nmul (ndiv (nsub (Bollinger.upper bands) (Bollinger.lower bands))
             (Bollinger.middle bands))
       (Fin 100).

Section Engine.

(** [Math.sqrt] on a non-negative real: the engine only relies on its
    result being a non-negative real. *)
Variable Math_sqrt : Q -> Q.

Definition nsqrt (a : num) : num :=
  match a with
  | Fin q => if Qltb q 0 then NaN else Fin (Math_sqrt q)
  | PInf => PInf
  | NInf | NaN | Undefined => NaN
  end.

(** [Math.pow(x, 2)] *)
Definition pow2 (x : num) : num := nmul x x.

Definition calculateBollingerBands (candles : list Candle) (period : nat)
  : result Bollinger.t :=
  let prices := closes candles in
  sma <- calculateSMA prices period ;;
  let sl := slice_last prices period in
  let squaredDiffs := map (fun price => pow2 (nsub price sma)) sl in
  s <- reduce_add squaredDiffs ;;
  let variance := ndiv s (of_nat period) in
  let stdDev := nsqrt variance in
  Ok (Bollinger.mk (nadd sma (nmul stdDev (Fin 2)))
                   sma
                   (nsub sma (nmul stdDev (Fin 2)))).

Definition analyzeMarket (candles : list Candle)
  : result TechnicalIndicators.t :=
  let prices := closes candles in
  let currentPrice := get prices (length prices - 1) in
  adx <- calculateADX candles 14 ;;
  atr <- calculateATR candles 14 ;;
  bollingerBands <- calculateBollingerBands candles 20 ;;
  let bandwidth := bandwidth_of bollingerBands in
  trendStrength <- calculateTrendStrength candles (ADX.value adx) ;;
  let marketRegime := determineMarketRegime (ADX.value adx) atr currentPrice in
  rsi <- Ok (calculateRSI candles 14) ;;
  macd <- calculateMACD candles ;;
  sma20 <- calculateSMA prices 20 ;;
  sma50 <- calculateSMA prices 50 ;;
  sma100 <- calculateSMA prices 100 ;;
  sma200 <- calculateSMA prices 200 ;;
  ema12 <- calculateEMA prices 12 ;;
  ema26 <- calculateEMA prices 26 ;;
  ema50 <- calculateEMA prices 50 ;;
  volumeIndicator <- calculateVolumeIndicator candles ;;
  stochastic <- calculateStochastic candles 14 3 ;;
  obv <- calculateOBV candles ;;
  momentum <- calculateMomentum candles 10 ;;
  roc <- calculateROC candles 12 ;;
  supportResistance <- findSupportResistance candles currentPrice ;;
  Ok (TechnicalIndicators.mk
        rsi macd
        (MovingAverages.mk sma20 sma50 sma100 sma200 ema12 ema26 ema50)
        (BollingerReport.mk (Bollinger.upper bollingerBands)
                            (Bollinger.middle bollingerBands)
                            (Bollinger.lower bollingerBands)
                            bandwidth)
        volumeIndicator stochastic adx atr obv momentum roc
        supportResistance trendStrength marketRegime).

End Engine.

(** A rational square root, exact on the squares of rationals and rounded
    down otherwise; an instance of [Math_sqrt] to evaluate the engine with. *)
Definition Qsqrt (q : Q) : Q :=
  (Z.sqrt (Qnum q * Zpos (Qden q)) # Qden q)%Q.

(** * Vocabulary of the properties *)

(** ** Series *)

(** The closing prices as reals. *)
Definition close_prices (candles : list Candle) : list Q := map close candles.

(** The candle at position [i], a zero candle beyond the end. *)
Definition candle_nth (candles : list Candle) (i : nat) : Candle :=
  nth i candles (mkCandle 0 0 0 0 0 0).

(** A candle whose prices are all [p], with volume [v]. *)
Definition bar (p v : Q) : Candle := mkCandle 0 p p p p v.

(** Each element is at most the next one. *)
Fixpoint nondecreasing (l : list Q) : Prop :=
  match l with
  | a :: (b :: _) as t => (a <= b)%Q /\ nondecreasing t
  | _ => True
  end.

(** The sum of a list of reals. *)
Definition Qsum (l : list Q) : Q := fold_right Qplus 0%Q l.

(** What [reduce] computes on a non-empty array of reals. *)
Definition Qreduce (l : list Q) : Q :=
  match l with
  | [] => 0%Q
  | x :: t => fold_left Qplus t x
  end.

(** The largest element of a non-empty list of reals. *)
Definition Qmaxl (l : list Q) : Q :=
  match l with
  | [] => 0%Q
  | x :: t => fold_left Qmax t x
  end.

(** The smallest element of a non-empty list of reals. *)
Definition Qminl (l : list Q) : Q :=
  match l with
  | [] => 0%Q
  | x :: t => fold_left Qmin t x
  end.

(** A real of [[0, 100]]. *)
Definition percent (x : Q) : Prop := (0 <= x <= 100)%Q.

(** The close lies between the low and the high. *)
Definition well_formed (c : Candle) : Prop :=
  (low c <= close c <= high c)%Q.

(** No candle has a negative volume. *)
Definition volumes_nonneg (candles : list Candle) : Prop :=
  Forall (fun c => (0 <= volume c)%Q) candles.

(** ** Momentum, ROC and OBV *)

(** [(now - past) / past * 100], the rate-of-change formula. *)
Definition rate_of_change (now past : Q) : num :=
  nmul (ndiv (nsub (Fin now) (Fin past)) (Fin past)) (Fin 100).

(** The accumulator of OBV after the candle at position [i]. *)
Definition obv_after (candles : list Candle) (a : Q) (i : nat) : Q :=
  let cur := candle_nth candles i in
  let prev := candle_nth candles (i - 1) in
  if Qltb (close prev) (close cur) then (a + volume cur)%Q
  else if Qltb (close cur) (close prev) then (a + - volume cur)%Q
  else a.

(** The candle reflected about the price level [K]; the volume is kept. *)
Definition mirror (K : Q) (c : Candle) : Candle :=
  mkCandle (timestamp c) (K - open c) (K - low c) (K - high c) (K - close c)
           (volume c).

(** ** Stochastic *)

(** The highest high and the lowest low of a window. *)
Definition highest_high (w : list Candle) : Q := Qmaxl (map high w).
Definition lowest_low (w : list Candle) : Q := Qminl (map low w).

(** The window of [kPeriod] candles that ends at position [i]. *)
Definition window_at (candles : list Candle) (kPeriod i : nat)
  : list Candle :=
  slice candles (i + 1 - kPeriod) (i + 1).

(** %K of the window ending at [i]: none when the window is incomplete or
    its range is zero. *)
Definition percent_k_at (candles : list Candle) (kPeriod i : nat)
  : option num :=
  let w := window_at candles kPeriod i in
  if length w <? kPeriod then None
  else if Qeq_bool (highest_high w) (lowest_low w) then None
  else Some (percent_k (Fin (close (candle_nth candles i)))
                       (Fin (lowest_low w)) (Fin (highest_high w))).

(** The value of an option as a list of length at most one. *)
Definition opt_list {A : Type} (o : option A) : list A :=
  match o with Some a => [a] | None => [] end.

(** The %K values of the windows ending at the last [kPeriod + dPeriod]
    positions, oldest first; zero-range windows give no value. *)
Definition k_values (candles : list Candle) (kPeriod dPeriod : nat)
  : list num :=
  flat_map (fun i => opt_list (percent_k_at candles kPeriod i))
           (range (length candles - kPeriod - dPeriod) (length candles)).

(** The mean of a non-empty array as [reduce] and a division compute it. *)
Definition nmean (l : list num) : num :=
  ndiv (fold_left nadd (tl l) (hd Undefined l)) (of_nat (length l)).

(** %K of the window ending at [i] when a zero-range window counts as 50. *)
Definition claimed_percent_k_at (candles : list Candle) (kPeriod i : nat)
  : option num :=
  let w := window_at candles kPeriod i in
  if length w <? kPeriod then None
  else if Qeq_bool (highest_high w) (lowest_low w) then Some (Fin 50)
  else Some (percent_k (Fin (close (candle_nth candles i)))
                       (Fin (lowest_low w)) (Fin (highest_high w))).

(** %D as the claim words it: the mean of the most recent [dPeriod] values
    of %K, every zero-range window contributing 50, and %K itself when
    there are fewer than [dPeriod] values. *)
Definition claimed_percent_d (candles : list Candle) (kPeriod dPeriod : nat)
  (k : num) : num :=
  let kv :=
    flat_map (fun i => opt_list (claimed_percent_k_at candles kPeriod i))
             (range (length candles - kPeriod - dPeriod) (length candles)) in
  if dPeriod <=? length kv then nmean (slice_last kv dPeriod) else k.

(** ** ADX *)

(** The true range of the step into position [i]. *)
Definition tr_at (candles : list Candle) (i : nat) : Q :=
  let prev := candle_nth candles (i - 1) in
  let cur := candle_nth candles i in
  Qmax (Qmax (high cur + - low cur) (Qabs (high cur + - close prev)))
       (Qabs (low cur + - close prev)).

(** The upward directional move of the step into position [i]. *)
Definition plus_dm_at (candles : list Candle) (i : nat) : Q :=
  let prev := candle_nth candles (i - 1) in
  let cur := candle_nth candles i in
  let highMove := (high cur + - high prev)%Q in
  let lowMove := (low prev + - low cur)%Q in
  if Qltb lowMove highMove && Qltb 0 highMove then highMove else 0%Q.

(** The downward directional move of the step into position [i]. *)
Definition minus_dm_at (candles : list Candle) (i : nat) : Q :=
  let prev := candle_nth candles (i - 1) in
  let cur := candle_nth candles i in
  let highMove := (high cur + - high prev)%Q in
  let lowMove := (low prev + - low cur)%Q in
  if Qltb highMove lowMove && Qltb 0 lowMove then lowMove else 0%Q.

(** The steps of the trailing window of [period] steps. *)
Definition trailing_steps (candles : list Candle) (period : nat)
  : list nat :=
  slice_last (range 1 (length candles)) period.

(** The mean true range over the trailing window. *)
Definition local_atr (candles : list Candle) (period : nat) : Q :=
  (Qreduce (map (tr_at candles) (trailing_steps candles period))
   / inject_Z (Z.of_nat period))%Q.

(** [atr !== 0 ? (avgDM / atr) * 100 : 0] on reals. *)
Definition di_of (avgDM atr : Q) : Q :=
  if Qeq_bool atr 0 then 0%Q else (avgDM / atr * 100)%Q.

(** ** Support and resistance *)

(** Insertion sort on reals: [x] is placed before the first [y] for which
    [test y x] holds. *)
Fixpoint Qinsert_by (test : Q -> Q -> bool) (x : Q) (l : list Q) : list Q :=
  match l with
  | [] => [x]
  | y :: t => if test y x then x :: l else y :: Qinsert_by test x t
  end.

(** The array sorted by successive insertions. *)
Definition Qsort_by (test : Q -> Q -> bool) (l : list Q) : list Q :=
  fold_left (fun acc x => Qinsert_by test x acc) l [].

(** ** Trend strength *)

(** The close at position [i] is above the one before it. *)
Definition rising (candles : list Candle) (i : nat) : bool :=
  Qltb (close (candle_nth candles (i - 1))) (close (candle_nth candles i)).

(** The number of leading elements equal to [d]. *)
Fixpoint same_prefix (d : bool) (l : list bool) : nat :=
  match l with
  | x :: t => if Bool.eqb x d then S (same_prefix d t) else 0
  | [] => 0
  end.

(** The length of the run of equal directions that starts the list. *)
Definition run_length (dirs : list bool) : nat :=
  match dirs with
  | [] => 0
  | d :: t => S (same_prefix d t)
  end.

(** The directions that the loop of [calculateTrendStrength] visits from
    index [i] downwards. *)
Fixpoint dirs_from (candles : list Candle) (i : nat) : list bool :=
  match i with
  | O => []
  | S i' =>
      if length candles - 11 <? i
      then rising candles i :: dirs_from candles i'
      else []
  end.

(** The run of same-direction closes over the last ten steps, newest
    first. *)
Definition momentum_run (candles : list Candle) : nat :=
  run_length
    (map (rising candles)
         (rev (range (length candles - 10) (length candles)))).

(** The mean of the last twenty closes. *)
Definition sma20_of (candles : list Candle) : Q :=
  (Qreduce (slice_last (close_prices candles) 20) / 20)%Q.

(** [(price - sma20) / sma20 * 100] on the last close. *)
Definition deviation_percent (candles : list Candle) : num :=
  let price := close (candle_nth candles (length candles - 1)) in
  nmul (ndiv (nsub (Fin price) (Fin (sma20_of candles)))
             (Fin (sma20_of candles)))
       (Fin 100).

(** The mean of the three components of the trend strength. *)
Definition trend_average (candles : list Candle) (adxValue : Q) : num :=
  ndiv (nadd (nadd (Fin adxValue)
                   (nmul (nabs (deviation_percent candles)) (Fin 10)))
             (nmul (of_nat (momentum_run candles)) (Fin 10)))
       (Fin 3).

(** ** Sample inputs *)

(** Fifteen candles with closes 100, 101, ..., 114. *)
Definition rsi_rising : list Candle :=
  map (fun p => bar p 1)
      [100; 101; 102; 103; 104; 105; 106; 107; 108; 109; 110; 111; 112; 113;
       114]%Q.

(** Twenty flat candles at 100. *)
Definition flat_market : list Candle := repeat (bar 100 1000) 20.

(** Three candles that range over [[0, 100]] followed by fourteen flat
    candles at 100. *)
Definition flat_tail : list Candle :=
  repeat (mkCandle 0 100 100 0 100 1) 3 ++ repeat (bar 100 1) 14.

(** Thirty candles with one low at 90 and one high at 110 around 100. *)
Definition one_dip_one_peak : list Candle :=
  repeat (bar 100 1) 8 ++ [bar 90 1] ++ repeat (bar 100 1) 10
  ++ [bar 110 1] ++ repeat (bar 100 1) 10.

(** A close of 200 above a high of 100, then a small true range. *)
Definition crossed_close : list Candle :=
  repeat (bar 100 1) 12
  ++ [mkCandle 0 100 100 100 200 1; bar 200 1; mkCandle 0 200 201 200 200 1].

(** Five candles with negative closes of mean -10. *)
Definition bollinger_negative : list Candle :=
  map (fun p => bar p 1) [-7; -13; -9; -11; -10]%Q.

(** Rising closes with a negative volume on the second candle. *)
Definition obv_negative_volume : list Candle := [bar 1 1; bar 2 (-5)].

(** * Further vocabulary *)

(** The step into position [i] is flat: high, low and the previous close
    coincide. *)
Definition flat_step (candles : list Candle) (i : nat) : Prop :=
  (high (candle_nth candles i) == low (candle_nth candles i))%Q
  /\ (high (candle_nth candles i) == close (candle_nth candles (i - 1)))%Q.

(** The summed volume of the last five candles and of the five before. *)
Definition recent_volume (candles : list Candle) : Q :=
  Qsum (map volume (slice_last candles 5)).

Definition older_volume (candles : list Candle) : Q :=
  Qsum (map volume
            (slice candles (length candles - 10) (length candles - 5))).

(** Ten candles of volume [a] followed by five of volume [b]. *)
Definition volume_shift (a b : Q) : list Candle :=
  repeat (bar 100 a) 10 ++ repeat (bar 100 b) 5.

(** Every element of the list lies in [[lo, hi]]. *)
Definition all_between (lo hi : Q) (l : list Q) : Prop :=
  forall x, In x l -> (lo <= x <= hi)%Q.

(** The change of the close at position [i]. *)
Definition close_change (candles : list Candle) (i : nat) : Q :=
  (close (candle_nth candles i) + - close (candle_nth candles (i - 1)))%Q.

(** Fifteen candles whose closes rise and fall. *)
Definition zigzag : list Candle :=
  map (fun p => bar p 1)
      [100; 102; 101; 103; 102; 104; 103; 105; 104; 106; 105; 107; 106; 108;
       107]%Q.

(** The candle with every price raised by [K]. *)
Definition shift_prices (K : Q) (c : Candle) : Candle :=
  mkCandle (timestamp c) (open c + K) (high c + K) (low c + K) (close c + K)
           (volume c).

(** The candle at [i] is a pivot high: no high within five positions on
    either side exceeds its high.  Likewise for a pivot low. *)
Definition pivot_high (candles : list Candle) (i : nat) : Prop :=
  forall j, i - 5 <= j <= i + 5 ->
            (high (candle_nth candles j) <= high (candle_nth candles i))%Q.

Definition pivot_low (candles : list Candle) (i : nat) : Prop :=
  forall j, i - 5 <= j <= i + 5 ->
            (low (candle_nth candles i) <= low (candle_nth candles j))%Q.

(** The levels that the candle at [i] contributes to the pivot points. *)
Definition pivot_levels_at (candles : list Candle) (i : nat) : list Q :=
  (if isHigh (slice_indexed candles (i - 5) (i + 5 + 1)) i
             (candle_nth candles i)
   then [high (candle_nth candles i)] else [])
  ++ (if isLow (slice_indexed candles (i - 5) (i + 5 + 1)) i
               (candle_nth candles i)
      then [low (candle_nth candles i)] else []).

(** * The signal table of [server/transparent-prediction.ts]

    [generateTransparentPrediction] passes the report of [analyzeMarket]
    through a table of nine votes, counts the votes, and falls back on the
    counts when the language model gives no decision.  The embedding keeps
    these three computations; the messages sent on the socket and the
    delays between them do not enter the values computed here.  The market
    data and the decision of the language model are inputs.

    A vote is one of the three string literals of the source, a category
    one of its four.  [toFixed] formats a number; applied to [undefined] it
    throws a [TypeError].  The text it produces is left to the
    implementation. *)

From Stdlib Require String Qround.

Module Prediction.

Import String.
Local Open Scope string_scope.

Inductive Signal : Type := UP | DOWN | NEUTRAL.

Inductive Category : Type := MOMENTUM | TREND | VOLATILITY | VOLUME.

(** [===] on the vote literals. *)
Definition Signal_eqb (a b : Signal) : bool :=
  match a, b with
  | UP, UP | DOWN, DOWN | NEUTRAL, NEUTRAL => true
  | _, _ => false
  end.

Module MarketData.
Record t : Type := mk {
  currentPrice : num;
  candles : list Candle;
  priceChange24h : num;
  volumeChange24h : num
}.
End MarketData.

Module Row.
Record t : Type := mk {
  name : string;
  value : string;
  signal : Signal;
  strength : Q;
  category : Category;
  description : string
}.
End Row.

Module GeminiPredictionDecision.
Record t : Type := mk {
  direction : Signal;
  confidence : num;
  rationale : string;
  riskFactors : list string;
  thinkingProcess : option string;
  keyFactors : option (list string)
}.
End GeminiPredictionDecision.

(** [Math.round]: the nearest integer, a half rounding up. *)
Definition Math_round (x : num) : num :=
  match x with
  | Fin q => Fin (inject_Z (Qround.Qfloor (q + (1 # 2))))
  | PInf => PInf
  | NInf => NInf
  | NaN | Undefined => NaN
  end.

(** The truth value of a number in [a || b]. *)
Definition truthy (x : num) : bool :=
  match x with
  | Fin q => negb (Qeq_bool q 0)
  | PInf | NInf => true
  | NaN | Undefined => false
  end.

Section Table.

(** [Number.prototype.toFixed] on a number. *)
Variable Number_toFixed : num -> nat -> string.

Definition toFixed (x : num) (digits : nat) : result string :=
  match x with
  | Undefined => TypeError
  | _ => Ok (Number_toFixed x digits)
  end.

Definition technicalIndicatorsList (indicators : TechnicalIndicators.t)
  (marketData : MarketData.t) : result (list Row.t) :=
  let rsi := TechnicalIndicators.rsi indicators in
  let stochastic := TechnicalIndicators.stochastic indicators in
  let macd := TechnicalIndicators.macd indicators in
  let adx := TechnicalIndicators.adx indicators in
  let movingAverages := TechnicalIndicators.movingAverages indicators in
  let bollingerBands := TechnicalIndicators.bollingerBands indicators in
  let momentum := TechnicalIndicators.momentum indicators in
  let roc := TechnicalIndicators.roc indicators in
  let currentPrice := MarketData.currentPrice marketData in
  let volumeChange24h := MarketData.volumeChange24h marketData in
  rsiValue <- toFixed rsi 1 ;;
  kValue <- toFixed (Stochastic.k stochastic) 0 ;;
  dValue <- toFixed (Stochastic.d stochastic) 0 ;;
  macdValue <- toFixed (MACD.histogram macd) 4 ;;
  adxValue <- toFixed (ADX.value adx) 1 ;;
  smaValue <- toFixed (MovingAverages.sma20 movingAverages) 2 ;;
  widthValue <- toFixed (BollingerReport.bandwidth bollingerBands) 2 ;;
  volumeValue <- toFixed volumeChange24h 1 ;;
  momentumValue <- toFixed momentum 2 ;;
  rocValue <- toFixed roc 2 ;;
  Ok [ Row.mk "RSI" rsiValue
         (if nlt rsi (Fin 30) then UP
          else if ngt rsi (Fin 70) then DOWN else NEUTRAL)
         (if nlt rsi (Fin 30) then 85
          else if ngt rsi (Fin 70) then 85 else 50)%Q
         MOMENTUM
         (if nlt rsi (Fin 30) then "Oversold - Strong bullish signal"
          else if ngt rsi (Fin 70) then "Overbought - Strong bearish signal"
          else "Neutral range");
       Row.mk "Stochastic K/D" (kValue ++ "/" ++ dValue)
         (if nlt (Stochastic.k stochastic) (Fin 20) then UP
          else if ngt (Stochastic.k stochastic) (Fin 80) then DOWN
          else NEUTRAL)
         (if nlt (Stochastic.k stochastic) (Fin 20) then 90
          else if ngt (Stochastic.k stochastic) (Fin 80) then 90
          else 50)%Q
         MOMENTUM
         (if nlt (Stochastic.k stochastic) (Fin 20)
          then "Oversold conditions"
          else if ngt (Stochastic.k stochastic) (Fin 80)
          then "Overbought conditions"
          else "Neutral momentum");
       Row.mk "MACD" macdValue
         (if ngt (MACD.histogram macd) (Fin 0) then UP else DOWN)
         (if ngt (nabs (MACD.histogram macd)) (Fin 0.001) then 75 else 50)%Q
         TREND
         (if ngt (MACD.histogram macd) (Fin 0)
          then "Bullish crossover detected" else "Bearish trend");
       Row.mk "ADX" adxValue
         (if ngt (ADX.plusDI adx) (ADX.minusDI adx) then UP else DOWN)
         (if ngt (ADX.value adx) (Fin 40) then 85
          else if ngt (ADX.value adx) (Fin 25) then 70 else 50)%Q
         TREND
         (if ngt (ADX.value adx) (Fin 40) then "STRONG TREND confirmed"
          else if ngt (ADX.value adx) (Fin 25) then "Trending market"
          else "Weak trend");
       Row.mk "SMA 20/50/200" smaValue
         (if ngt currentPrice (MovingAverages.sma50 movingAverages)
          then UP else DOWN)
         67%Q
         TREND
         (if ngt currentPrice (MovingAverages.sma50 movingAverages)
          then "Price above SMA50 - bullish"
          else "Price below SMA50 - bearish");
       Row.mk "Bollinger Bands" ("Width: " ++ widthValue ++ "%")
         (if nlt currentPrice (BollingerReport.lower bollingerBands) then UP
          else if ngt currentPrice (BollingerReport.upper bollingerBands)
          then DOWN else NEUTRAL)
         (if nlt currentPrice (BollingerReport.lower bollingerBands) then 75
          else if ngt currentPrice (BollingerReport.upper bollingerBands)
          then 75 else 50)%Q
         VOLATILITY
         (if nlt currentPrice (BollingerReport.lower bollingerBands)
          then "At lower band - potential bounce"
          else if ngt currentPrice (BollingerReport.upper bollingerBands)
          then "At upper band - potential reversal"
          else "Mid-range");
       Row.mk "Volume Trend"
         ((if ngt volumeChange24h (Fin 0) then "+" else EmptyString)
          ++ volumeValue ++ "%")
         (if ngt volumeChange24h (Fin 10) then UP else NEUTRAL)
         (if ngt (nabs volumeChange24h) (Fin 15) then 80 else 60)%Q
         VOLUME
         (if ngt volumeChange24h (Fin 10)
          then "Strong volume confirmation" else "Normal volume");
       Row.mk "Momentum" momentumValue
         (if ngt momentum (Fin 0) then UP else DOWN)
         (if ngt (nabs momentum) (Fin 2) then 70 else 50)%Q
         MOMENTUM
         (if ngt momentum (Fin 2) then "Building upward pressure"
          else if nlt momentum (Fin (-2)) then "Downward pressure"
          else "Neutral momentum");
       Row.mk "ROC" (rocValue ++ "%")
         (if ngt roc (Fin 0) then UP else DOWN)
         (if ngt (nabs roc) (Fin 1.5) then 70 else 50)%Q
         MOMENTUM
         (if ngt roc (Fin 1.5) then "Confirming upward momentum"
          else if nlt roc (Fin (-1.5)) then "Confirming downward momentum"
          else "Neutral") ].

End Table.

(** ** Counting the votes *)

(** [rows.filter(i => i.signal === s)] *)
Definition signals (s : Signal) (rows : list Row.t) : list Row.t :=
  filter (fun i => Signal_eqb (Row.signal i) s) rows.

(** [rows.reduce((sum, s) => sum + s.strength, 0)] *)
Definition score (rows : list Row.t) : Q :=
  fold_left (fun sum s => (sum + Row.strength s)%Q) rows 0%Q.

Definition upScore (rows : list Row.t) : Q := score (signals UP rows).

Definition downScore (rows : list Row.t) : Q := score (signals DOWN rows).

(** [(Math.max(upSignals.length, downSignals.length) / totalSignals) * 100] *)
Definition signalAlignment (rows : list Row.t) : num :=
  let totalSignals := List.length rows in
  nmul (ndiv (of_nat (Nat.max (List.length (signals UP rows))
                              (List.length (signals DOWN rows))))
             (of_nat totalSignals))
       (Fin 100).

(** ** The verdict *)

(** [geminiDecision?.direction || (upScore > downScore ? "UP" : "DOWN")];
    a vote literal is a non-empty string and so never falls through. *)
Definition direction (geminiDecision : option GeminiPredictionDecision.t)
  (rows : list Row.t) : Signal :=
  match geminiDecision with
  | Some decision => GeminiPredictionDecision.direction decision
  | None => if Qltb (downScore rows) (upScore rows) then UP else DOWN
  end.

(** [geminiDecision?.confidence ||
     Math.round(Math.min(95, signalAlignment * 0.8 + trendStrength * 0.2))] *)
Definition confidence (geminiDecision : option GeminiPredictionDecision.t)
  (rows : list Row.t) (indicators : TechnicalIndicators.t) : num :=
  let given :=
    match geminiDecision with
    | Some decision => GeminiPredictionDecision.confidence decision
    | None => Undefined
    end in
  if truthy given then given
  else Math_round
         (nmin (Fin 95)
               (nadd (nmul (signalAlignment rows) (Fin 0.8))
                     (nmul (TechnicalIndicators.trendStrength indicators)
                           (Fin 0.2)))).

(** [Math.round((signalAlignment + indicators.trendStrength) / 2)] *)
Definition qualityScore (rows : list Row.t)
  (indicators : TechnicalIndicators.t) : num :=
  Math_round
    (ndiv (nadd (signalAlignment rows)
                (TechnicalIndicators.trendStrength indicators))
          (Fin 2)).

End Prediction.

(** ** Vocabulary of the table *)

Module PredictionSpec.

Import Prediction.
Import String.
Local Open Scope string_scope.

(** The ten readings that the table formats with [toFixed]. *)
Definition formatted (indicators : TechnicalIndicators.t)
  (marketData : MarketData.t) : list num :=
  [ TechnicalIndicators.rsi indicators;
    Stochastic.k (TechnicalIndicators.stochastic indicators);
    Stochastic.d (TechnicalIndicators.stochastic indicators);
    MACD.histogram (TechnicalIndicators.macd indicators);
    ADX.value (TechnicalIndicators.adx indicators);
    MovingAverages.sma20 (TechnicalIndicators.movingAverages indicators);
    BollingerReport.bandwidth (TechnicalIndicators.bollingerBands indicators);
    MarketData.volumeChange24h marketData;
    TechnicalIndicators.momentum indicators;
    TechnicalIndicators.roc indicators ].

(** The names of the nine rows, in the order of the table. *)
Definition row_names : list string :=
  [ "RSI"; "Stochastic K/D"; "MACD"; "ADX"; "SMA 20/50/200";
    "Bollinger Bands"; "Volume Trend"; "Momentum"; "ROC" ].

(** The rows that are allowed to abstain. *)
Definition may_abstain : list string :=
  [ "RSI"; "Stochastic K/D"; "Bollinger Bands"; "Volume Trend" ].

(** The rows whose vote is the sign of one reading, with that reading. *)
Definition sign_rows (indicators : TechnicalIndicators.t)
  : list (string * num) :=
  [ ("MACD", MACD.histogram (TechnicalIndicators.macd indicators));
    ("Momentum", TechnicalIndicators.momentum indicators);
    ("ROC", TechnicalIndicators.roc indicators) ].

(** The strength that a row adds to one of the two scores. *)
Definition counted (r : Row.t) : Q :=
  if Signal_eqb (Row.signal r) NEUTRAL then 0%Q else Row.strength r.

(** A formatter that ignores its argument. *)
Definition plain_toFixed (x : num) (digits : nat) : string :=
  "0".

(** A report in which every indicator is at its short-history default. *)
Definition default_report : TechnicalIndicators.t :=
  TechnicalIndicators.mk
    (Fin 50) (MACD.mk (Fin 0) Undefined NaN)
    (MovingAverages.mk (Fin 100) (Fin 100) (Fin 100) (Fin 100)
                       (Fin 100) (Fin 100) (Fin 100))
    (BollingerReport.mk (Fin 100) (Fin 100) (Fin 100) (Fin 0))
    (Fin 0) (Stochastic.mk (Fin 50) (Fin 50))
    (ADX.mk (Fin 0) (Fin 0) (Fin 0)) (Fin 0) (Fin 0) (Fin 0) (Fin 0)
    (SR.mk (Fin 98) (Fin 102) (Fin 2) (Fin 2)) (Fin 0) RANGING.

(** Market data with a price of 100 and a volume change of 20 percent. *)
Definition sample_market : MarketData.t :=
  MarketData.mk (Fin 100) [] (Fin 0) (Fin 20).

(** The same market data without the volume change. *)
Definition market_without_volume : MarketData.t :=
  MarketData.mk (Fin 100) [] (Fin 0) Undefined.

(** The name of the MACD row. *)
Definition macd_row : string := "MACD".

(** One when the row votes [s], zero otherwise. *)
Definition votes_for (s : Signal) (r : Row.t) : nat :=
  if Signal_eqb (Row.signal r) s then 1 else 0.

End PredictionSpec.

(** * Properties *)

(** ** Numbers *)

Lemma Qltb_true (a b : Q) : Qltb a b = true <-> (a < b)%Q.
Proof.
  unfold Qltb. rewrite negb_true_iff. split; intro H.
  - apply Qnot_le_lt. intro Hle. apply Qle_bool_iff in Hle. congruence.
  - destruct (Qle_bool b a) eqn:E; [|reflexivity].
    apply Qle_bool_iff in E. exfalso. apply (Qlt_not_le _ _ H E).
Qed.

Lemma Qltb_false (a b : Q) : Qltb a b = false <-> (b <= a)%Q.
Proof.
  unfold Qltb. rewrite negb_false_iff. apply Qle_bool_iff.
Qed.

(** Turns the boolean comparisons among the hypotheses into orders. *)
Ltac Qltb_props :=
  repeat match goal with
    | H : Qltb _ _ = true |- _ => apply Qltb_true in H
    | H : Qltb _ _ = false |- _ => apply Qltb_false in H
    end.

Lemma Qeq_bool_false (a b : Q) : Qeq_bool a b = false <-> ~ (a == b)%Q.
Proof.
  split; intro H.
  - intro E. apply Qeq_bool_iff in E. congruence.
  - destruct (Qeq_bool a b) eqn:E; [|reflexivity].
    apply Qeq_bool_iff in E. contradiction.
Qed.

Lemma of_nat_pos (n : nat) : 0 < n -> (0 < inject_Z (Z.of_nat n))%Q.
Proof.
  intro H. change 0%Q with (inject_Z 0). rewrite <- Zlt_Qlt. lia.
Qed.

Lemma ndiv_of_nat (x : Q) (n : nat) :
  0 < n -> ndiv (Fin x) (of_nat n) = Fin (x / inject_Z (Z.of_nat n)).
Proof.
  intro H. unfold ndiv, of_nat.
  destruct (Qeq_bool (inject_Z (Z.of_nat n)) 0) eqn:E; [|reflexivity].
  apply Qeq_bool_iff in E. pose proof (of_nat_pos H) as P. lra.
Qed.

Lemma Qsquare_nonneg (x : Q) : (0 <= x * x)%Q.
Proof.
  destruct (Qlt_le_dec x 0) as [H|H].
  - setoid_replace (x * x)%Q with ((- x) * (- x))%Q by ring.
    apply Qmult_le_0_compat; lra.
  - apply Qmult_le_0_compat; lra.
Qed.

(** ** Arrays *)

Lemma get_map_Fin (f : Candle -> Q) (cs : list Candle) (i : nat) (d : Candle) :
  i < length cs ->
  get (map (fun c => Fin (f c)) cs) i = Fin (f (nth i cs d)).
Proof.
  intro H. unfold get.
  rewrite (nth_indep _ Undefined (Fin (f d))) by (rewrite length_map; exact H).
  apply (map_nth (fun c => Fin (f c))).
Qed.

Lemma fold_nadd_Fin (l : list Q) (a : Q) :
  fold_left nadd (map Fin l) (Fin a) = Fin (fold_left Qplus l a).
Proof.
  revert a. induction l as [|x l IH]; intro a; simpl; [reflexivity|].
  apply IH.
Qed.

Lemma fold_Qplus_sum (l : list Q) (a : Q) :
  (fold_left Qplus l a == a + Qsum l)%Q.
Proof.
  revert a. induction l as [|x l IH]; intro a; simpl.
  - lra.
  - rewrite IH. lra.
Qed.

Lemma range_length (lo hi : nat) : length (range lo hi) = hi - lo.
Proof. unfold range. apply length_seq. Qed.

Lemma in_range (lo hi i : nat) : In i (range lo hi) <-> lo <= i < hi.
Proof. unfold range. rewrite in_seq. lia. Qed.

Lemma nondecreasing_nth (l : list Q) (i : nat) (d : Q) :
  nondecreasing l -> S i < length l -> (nth i l d <= nth (S i) l d)%Q.
Proof.
  revert i. induction l as [|a l IH]; intros i Hn Hi; simpl in Hi; [lia|].
  destruct l as [|b l]; simpl in Hi; [lia|].
  destruct Hn as [Hab Hn]. destruct i as [|i].
  - exact Hab.
  - apply (IH i Hn). simpl. lia.
Qed.

Lemma candle_at_nth (candles : list Candle) (i : nat) :
  i < length candles -> candle_at candles i = Ok (candle_nth candles i).
Proof.
  intro H. unfold candle_at, candle_nth.
  destruct (nth_error candles i) as [c|] eqn:E.
  - rewrite (nth_error_nth _ _ _ E). reflexivity.
  - apply nth_error_None in E. lia.
Qed.

Lemma for_each_app {S : Type} (body : S -> nat -> result S)
  (l1 l2 : list nat) (s : S) :
  for_each body (l1 ++ l2) s =
  (s' <- for_each body l1 s ;; for_each body l2 s').
Proof.
  revert s. induction l1 as [|i l1 IH]; intro s; simpl; [reflexivity|].
  destruct (body s i) as [s1|]; simpl; [apply IH | reflexivity].
Qed.

Lemma range_snoc (lo hi : nat) :
  lo <= hi -> range lo (S hi) = range lo hi ++ [hi].
Proof.
  intro H. unfold range. replace (S hi - lo) with (S (hi - lo)) by lia.
  rewrite seq_S. f_equal. f_equal. lia.
Qed.

Lemma candle_nth_app (cs : list Candle) (c : Candle) (i : nat) :
  i < length cs -> candle_nth (cs ++ [c]) i = candle_nth cs i.
Proof. intro H. unfold candle_nth. apply app_nth1. exact H. Qed.

Lemma candle_nth_last (cs : list Candle) (c : Candle) :
  candle_nth (cs ++ [c]) (length cs) = c.
Proof.
  unfold candle_nth. rewrite app_nth2 by lia.
  rewrite Nat.sub_diag. reflexivity.
Qed.

Lemma reduce_add_Fin (l : list Q) :
  l <> [] -> reduce_add (map Fin l) = Ok (Fin (Qreduce l)).
Proof.
  destruct l as [|x t]; [congruence|]. intros _. simpl.
  rewrite fold_nadd_Fin. reflexivity.
Qed.

Lemma Qreduce_sum (l : list Q) : (Qreduce l == Qsum l)%Q.
Proof.
  destruct l as [|x t]; simpl; [reflexivity|]. apply fold_Qplus_sum.
Qed.

Lemma slice_last_map {A B : Type} (f : A -> B) (l : list A) (n : nat) :
  slice_last (map f l) n = map f (slice_last l n).
Proof.
  unfold slice_last. destruct n; [reflexivity|].
  rewrite length_map. apply skipn_map.
Qed.

Lemma slice_last_length {A : Type} (l : list A) (n : nat) :
  0 < n -> length (slice_last l n) = Nat.min n (length l).
Proof.
  intro H. unfold slice_last. destruct n; [lia|].
  rewrite length_skipn. lia.
Qed.

Lemma slice_last_nonempty {A : Type} (l : list A) (n : nat) :
  l <> [] -> slice_last l n <> [].
Proof.
  intros Hl E. destruct n as [|n]; [exact (Hl E)|].
  apply (f_equal (@length A)) in E.
  rewrite slice_last_length in E by lia.
  destruct l; [congruence | simpl in E; lia].
Qed.

Lemma Qsum_nonneg (l : list Q) :
  Forall (fun x => (0 <= x)%Q) l -> (0 <= Qsum l)%Q.
Proof.
  induction 1 as [|x l Hx _ IH]; simpl; lra.
Qed.

Lemma closes_as_map (cs : list Candle) : closes cs = map Fin (close_prices cs).
Proof. unfold closes, close_prices. rewrite map_map. reflexivity. Qed.

(** On a non-empty series of reals and a positive period the SMA is the
    mean of the trailing window. *)
Lemma sma_Fin (l : list Q) (period : nat) :
  l <> [] -> 0 < period ->
  calculateSMA (map Fin l) period =
  Ok (Fin (Qreduce (slice_last l period)
           / inject_Z (Z.of_nat (length (slice_last l period))))).
Proof.
  intros Hl Hp. unfold calculateSMA. rewrite length_map.
  destruct (length l <? period) eqn:E.
  - apply Nat.ltb_lt in E.
    assert (Hs : slice_last l period = l).
    { unfold slice_last. destruct period; [lia|].
      replace (length l - S period) with 0 by lia. reflexivity. }
    rewrite Hs, reduce_add_Fin by exact Hl. cbn [bind].
    rewrite ndiv_of_nat; [reflexivity|].
    destruct l; [congruence | simpl; lia].
  - apply Nat.ltb_ge in E.
    rewrite slice_last_map, reduce_add_Fin
      by (apply slice_last_nonempty; exact Hl).
    cbn [bind]. rewrite ndiv_of_nat by exact Hp.
    rewrite slice_last_length, Nat.min_l by lia. reflexivity.
Qed.

Lemma map_Fin_inj (l l' : list Q) : map Fin l = map Fin l' -> l = l'.
Proof.
  revert l'. induction l as [|x l IH]; intros [|y l'] H; simpl in H;
    try discriminate; [reflexivity|].
  injection H as Hx Hl. rewrite Hx, (IH _ Hl). reflexivity.
Qed.

(** ** Short histories *)

Lemma ema_closes_returns (candles : list Candle) (period : nat) :
  candles <> [] -> exists e, calculateEMA (closes candles) period = Ok e.
Proof.
  intro Hne. unfold calculateEMA.
  destruct (length (closes candles) <? period); [eexists; reflexivity|].
  assert (Hs : slice_last (closes candles) period <> []).
  { apply slice_last_nonempty. unfold closes.
    destruct candles; [congruence | discriminate]. }
  destruct (slice_last (closes candles) period) as [|x t]; [congruence|].
  cbn [reduce_add bind]. eexists. reflexivity.
Qed.

(** Between 1 and 25 candles MACD has no signal history: the signal is
    [undefined] and the histogram is [NaN]. *)
Lemma macd_short_history (candles : list Candle) :
  candles <> [] -> length candles < 26 ->
  exists v, calculateMACD candles = Ok (MACD.mk v Undefined NaN).
Proof.
  intros Hne Hlen. unfold calculateMACD.
  destruct (ema_closes_returns 12 Hne) as (e12 & E12).
  destruct (ema_closes_returns 26 Hne) as (e26 & E26).
  rewrite E12, E26. cbn [bind].
  assert (Hr : range 26 (length (closes candles) + 1) = []).
  { unfold range, closes. rewrite length_map.
    replace (length candles + 1 - 26) with 0 by lia. reflexivity. }
  rewrite Hr. cbn [for_each bind].
  change (calculateEMA [] 9) with (@Ok num Undefined). cbn [bind].
  exists (nsub e12 e26). f_equal. f_equal.
  generalize (nsub e12 e26). intro mv. destruct mv; reflexivity.
Qed.

(** C1 fails on short histories.  On five candles MACD returns an
    [undefined] signal and a [NaN] histogram; on an empty series SMA and
    the Bollinger Bands throw and EMA returns [undefined]. *)
Theorem C1_short_history_not_guarded :
  calculateMACD (firstn 5 rsi_rising) = Ok (MACD.mk (Fin 0) Undefined NaN)
  /\ calculateSMA [] 20 = TypeError
  /\ calculateEMA [] 12 = Ok Undefined
  /\ calculateBollingerBands Qsqrt [] 20 = TypeError.
Proof.
  repeat split; vm_compute; reflexivity.
Qed.

(** ** RSI *)

Section RSI.

Variable candles : list Candle.
Let prices := closes candles.
Let d0 := mkCandle 0 0 0 0 0 0.

Lemma rsi_step_fin (g l : Q) (i : nat) :
  1 <= i < length candles ->
  (0 <= g)%Q -> (0 <= l)%Q ->
  exists g' l',
    rsi_step prices (Fin g, Fin l) i = (Fin g', Fin l')
    /\ (0 <= g')%Q /\ (0 <= l')%Q
    /\ (nondecreasing (close_prices candles) -> (l' == l)%Q).
Proof.
  intros Hi Hg Hl. unfold rsi_step, prices, closes.
  rewrite (get_map_Fin close candles d0) by lia.
  rewrite (get_map_Fin close candles d0) by lia.
  set (a := close (nth i candles d0)).
  set (b := close (nth (i - 1) candles d0)).
  cbn [nsub nneg nadd ngt nlt fst snd nabs].
  destruct (Qltb 0 (a + - b)) eqn:E.
  - apply Qltb_true in E.
    exists (g + (a + - b))%Q, l. repeat split; try lra.
  - apply Qltb_false in E.
    exists g, (l + Qabs (a + - b))%Q.
    pose proof (Qabs_nonneg (a + - b)) as Habs.
    repeat split; try lra.
    intro Hnd.
    assert (Hba : (b <= a)%Q).
    { pose proof (@nondecreasing_nth (close_prices candles) (i - 1) 0%Q Hnd)
        as Hn.
      unfold close_prices in Hn. rewrite length_map in Hn.
      replace (S (i - 1)) with i in Hn by lia.
      specialize (Hn (proj2 Hi)).
      change 0%Q with (close d0) in Hn.
      rewrite !(map_nth close) in Hn. exact Hn. }
    assert (Hz : (a + - b == 0)%Q) by lra.
    rewrite Hz. simpl. lra.
Qed.

Lemma rsi_loop_fin (idxs : list nat) (g l : Q) :
  (forall i, In i idxs -> 1 <= i < length candles) ->
  (0 <= g)%Q -> (0 <= l)%Q ->
  exists g' l',
    fold_left (rsi_step prices) idxs (Fin g, Fin l) = (Fin g', Fin l')
    /\ (0 <= g')%Q /\ (0 <= l')%Q
    /\ (nondecreasing (close_prices candles) -> (l' == l)%Q).
Proof.
  revert g l. induction idxs as [|i idxs IH]; intros g l Hin Hg Hl.
  - exists g, l. simpl. repeat split; auto; reflexivity.
  - destruct (@rsi_step_fin g l i) as (g1 & l1 & E1 & Hg1 & Hl1 & Hz1);
      auto using in_eq.
    destruct (IH g1 l1) as (g2 & l2 & E2 & Hg2 & Hl2 & Hz2); auto.
    { intros j Hj. apply Hin. right. exact Hj. }
    exists g2, l2. simpl. rewrite E1, E2. repeat split; auto.
    intro Hnd. rewrite (Hz2 Hnd). auto.
Qed.

End RSI.

Lemma rsi_value_bounds (g l : Q) :
  (0 <= g)%Q -> (0 < l)%Q -> (0 <= 100 + - (100 / (1 + g / l)) <= 100)%Q.
Proof.
  intros Hg Hl.
  assert (Hr : (0 <= g / l)%Q).
  { apply Qle_shift_div_l; [exact Hl | lra]. }
  assert (Hp : (0 < 1 + g / l)%Q) by lra.
  split.
  - assert ((100 / (1 + g / l) <= 100)%Q); [|lra].
    apply Qle_shift_div_r; [exact Hp | lra].
  - assert ((0 <= 100 / (1 + g / l))%Q); [|lra].
    apply Qle_shift_div_l; [exact Hp | lra].
Qed.



(** ** Bollinger Bands *)

Lemma Qsqrt_nonneg (q : Q) : (0 <= q)%Q -> (0 <= Qsqrt q)%Q.
Proof.
  intros _. unfold Qsqrt, Qle. simpl.
  rewrite Z.mul_1_r. apply Z.sqrt_nonneg.
Qed.

Section Bands.

Variable Math_sqrt : Q -> Q.
Hypothesis Math_sqrt_nonneg : forall q, (0 <= q)%Q -> (0 <= Math_sqrt q)%Q.

Lemma squares_nonneg (m : Q) (l : list Q) :
  Forall (fun x => (0 <= x)%Q) (map (fun p => (p + - m) * (p + - m))%Q l).
Proof.
  induction l as [|p l IH]; simpl; [constructor|].
  constructor; [apply Qsquare_nonneg | exact IH].
Qed.

Lemma bollinger_bands_value (candles : list Candle) (period : nat) :
  candles <> [] -> 0 < period ->
  exists m sd,
    calculateBollingerBands Math_sqrt candles period =
    Ok (Bollinger.mk (Fin (m + sd * 2)) (Fin m) (Fin (m + - (sd * 2))))
    /\ (0 <= sd)%Q.
Proof.
  intros Hne Hp. unfold calculateBollingerBands.
  rewrite closes_as_map.
  assert (Hl : close_prices candles <> []).
  { unfold close_prices. destruct candles; [congruence | discriminate]. }
  rewrite sma_Fin by assumption. cbn [bind].
  set (W := slice_last (close_prices candles) period).
  set (m := (Qreduce W / inject_Z (Z.of_nat (length W)))%Q).
  rewrite slice_last_map. fold W.
  rewrite map_map.
  assert (Hsq : map (fun x => pow2 (nsub (Fin x) (Fin m))) W
                = map Fin (map (fun p => (p + - m) * (p + - m))%Q W)).
  { rewrite map_map. reflexivity. }
  rewrite Hsq.
  assert (HW : W <> []) by (apply slice_last_nonempty; exact Hl).
  rewrite reduce_add_Fin by (destruct W; [congruence | discriminate]).
  cbn [bind]. rewrite ndiv_of_nat by exact Hp.
  set (v := (Qreduce (map (fun p => (p + - m) * (p + - m)) W)
             / inject_Z (Z.of_nat period))%Q).
  assert (Hv : (0 <= v)%Q).
  { unfold v. apply Qle_shift_div_l; [apply of_nat_pos; exact Hp|].
    rewrite Qreduce_sum.
    pose proof (Qsum_nonneg (squares_nonneg m W)). lra. }
  unfold nsqrt. rewrite (proj2 (Qltb_false _ _) Hv).
  exists m, (Math_sqrt v). split; [reflexivity|].
  apply Math_sqrt_nonneg. exact Hv.
Qed.

(** The Bollinger group of the report repeats the three bands and adds the
    bandwidth computed from them. *)
Lemma analyzeMarket_bands (candles : list Candle)
  (r : TechnicalIndicators.t) :
  analyzeMarket Math_sqrt candles = Ok r ->
  exists b,
    calculateBollingerBands Math_sqrt candles 20 = Ok b
    /\ TechnicalIndicators.bollingerBands r =
       BollingerReport.mk (Bollinger.upper b) (Bollinger.middle b)
                          (Bollinger.lower b) (bandwidth_of b).
Proof.
  unfold analyzeMarket. cbv zeta.
  repeat match goal with
    | |- bind ?x _ = _ -> _ =>
        destruct x eqn:?; cbn [bind]; [|discriminate]
    end.
  intro H. injection H as <-. eexists. split; reflexivity.
Qed.


End Bands.



(** ** Stochastic *)

Lemma fold_nmax_Fin (l : list Q) (a : Q) :
  fold_left nmax (map Fin l) (Fin a) = Fin (fold_left Qmax l a).
Proof.
  revert a. induction l as [|x l IH]; intro a; simpl; [reflexivity|].
  apply IH.
Qed.

Lemma fold_nmin_Fin (l : list Q) (a : Q) :
  fold_left nmin (map Fin l) (Fin a) = Fin (fold_left Qmin l a).
Proof.
  revert a. induction l as [|x l IH]; intro a; simpl; [reflexivity|].
  apply IH.
Qed.

Lemma max_list_highs (w : list Candle) :
  w <> [] -> max_list (highs w) = Fin (highest_high w).
Proof.
  destruct w as [|c w]; [congruence|]. intros _.
  unfold max_list, highs, highest_high. simpl.
  rewrite <- (map_map high Fin), fold_nmax_Fin. reflexivity.
Qed.

Lemma min_list_lows (w : list Candle) :
  w <> [] -> min_list (lows w) = Fin (lowest_low w).
Proof.
  destruct w as [|c w]; [congruence|]. intros _.
  unfold min_list, lows, lowest_low. simpl.
  rewrite <- (map_map low Fin), fold_nmin_Fin. reflexivity.
Qed.

Lemma stochastic_step_spec (candles : list Candle) (kPeriod : nat)
  (acc : list num) (i : nat) :
  0 < kPeriod -> i < length candles ->
  stochastic_step candles kPeriod acc i =
  Ok (acc ++ opt_list (percent_k_at candles kPeriod i)).
Proof.
  intros Hk Hi. unfold stochastic_step, percent_k_at, window_at.
  set (w := slice candles (i + 1 - kPeriod) (i + 1)).
  destruct (kPeriod <=? length w) eqn:E.
  - apply Nat.leb_le in E.
    assert (Hlt : (length w <? kPeriod) = false) by (apply Nat.ltb_ge; lia).
    rewrite Hlt. rewrite candle_at_nth by exact Hi. cbn [bind].
    assert (Hw : w <> []) by (destruct w; [simpl in E; lia | discriminate]).
    rewrite max_list_highs, min_list_lows by exact Hw.
    unfold nne. cbn [neq].
    destruct (Qeq_bool (highest_high w) (lowest_low w)); cbn [negb opt_list].
    + rewrite app_nil_r. reflexivity.
    + reflexivity.
  - apply Nat.leb_gt in E. apply Nat.ltb_lt in E. rewrite E.
    cbn [opt_list]. rewrite app_nil_r. reflexivity.
Qed.

Lemma stochastic_loop_spec (candles : list Candle) (kPeriod : nat)
  (idxs : list nat) (acc : list num) :
  0 < kPeriod ->
  (forall i, In i idxs -> i < length candles) ->
  for_each (stochastic_step candles kPeriod) idxs acc =
  Ok (acc ++ flat_map (fun i => opt_list (percent_k_at candles kPeriod i))
                      idxs).
Proof.
  intro Hk. revert acc. induction idxs as [|i idxs IH]; intros acc Hin.
  - simpl. rewrite app_nil_r. reflexivity.
  - cbn [for_each flat_map].
    rewrite stochastic_step_spec by (auto; apply Hin; left; reflexivity).
    cbn [bind]. rewrite IH by (intros j Hj; apply Hin; right; exact Hj).
    rewrite app_assoc. reflexivity.
Qed.

Lemma reduce_add_mean (l : list num) (n : nat) :
  length l = n -> 0 < n ->
  (s <- reduce_add l ;; Ok (ndiv s (of_nat n))) = Ok (nmean l).
Proof.
  intros Hl Hn. destruct l as [|x t]; [simpl in Hl; lia|].
  unfold nmean. rewrite Hl. reflexivity.
Qed.

(** C4 as stated fails: a zero-range window is skipped, it does not count
    as 50.  Here %D is 100, where the claimed rule gives 250/3. *)
Lemma C4_stochastic_zero_range_counterexample :
  exists d c,
    calculateStochastic flat_tail 14 3 = Ok (Stochastic.mk (Fin 50) (Fin d))
    /\ claimed_percent_d flat_tail 14 3 (Fin 50) = Fin c
    /\ (d == 100)%Q /\ (c == 250 / 3)%Q.
Proof.
  do 2 eexists. split; [vm_compute; reflexivity|].
  split; [vm_compute; reflexivity|]. split; reflexivity.
Qed.

(** C4 (amended). With kPeriod 14 and dPeriod 3: fewer than 14 candles give
    k = d = 50; otherwise %K is 50 when the trailing window has a zero
    high/low range and the usual ratio when it has not, and %D is the mean
    of the most recent 3 values of %K among the windows ending at the last
    17 positions, where incomplete windows and zero-range windows give no
    value; with fewer than 3 values %D is %K. *)
Theorem C4_stochastic (candles : list Candle) :
  (length candles < 14 ->
   calculateStochastic candles 14 3 = Ok (Stochastic.mk (Fin 50) (Fin 50)))
  /\ (14 <= length candles ->
      exists k d,
        calculateStochastic candles 14 3 = Ok (Stochastic.mk k d)
        /\ let w := slice_last candles 14 in
           let kv := k_values candles 14 3 in
           ((highest_high w == lowest_low w)%Q -> k = Fin 50)
           /\ (~ (highest_high w == lowest_low w)%Q ->
               k = percent_k
                     (Fin (close (candle_nth candles (length candles - 1))))
                     (Fin (lowest_low w)) (Fin (highest_high w)))
           /\ (3 <= length kv -> d = nmean (slice_last kv 3))
           /\ (length kv < 3 -> d = k)).
Proof.
  split.
  - intro H. unfold calculateStochastic.
    apply Nat.ltb_lt in H. rewrite H. reflexivity.
  - intro Hlen. unfold calculateStochastic.
    destruct (length candles <? 14) eqn:E; [apply Nat.ltb_lt in E; lia|].
    rewrite candle_at_nth by lia. cbn [bind].
    set (w := slice_last candles 14).
    assert (Hw : w <> []).
    { apply slice_last_nonempty. destruct candles; [simpl in Hlen; lia|].
      discriminate. }
    rewrite max_list_highs, min_list_lows by exact Hw.
    rewrite stochastic_loop_spec
      by (try lia; intros i Hi; apply in_range in Hi; lia).
    cbn [bind app]. fold (k_values candles 14 3).
    set (kv := k_values candles 14 3).
    set (k := if nne _ _ then _ else _).
    assert (Hk1 : (highest_high w == lowest_low w)%Q -> k = Fin 50).
    { intro Heq. unfold k, nne. cbn [neq].
      rewrite (proj2 (Qeq_bool_iff _ _) Heq). reflexivity. }
    assert (Hk2 : ~ (highest_high w == lowest_low w)%Q ->
                  k = percent_k
                        (Fin (close (candle_nth candles
                                       (length candles - 1))))
                        (Fin (lowest_low w)) (Fin (highest_high w))).
    { intro Hne. unfold k, nne. cbn [neq].
      rewrite (proj2 (Qeq_bool_false _ _) Hne). reflexivity. }
    destruct (3 <=? length kv) eqn:E3.
    + apply Nat.leb_le in E3.
      rewrite reduce_add_mean
        by (try lia; rewrite slice_last_length by lia; lia).
      cbn [bind]. exists k, (nmean (slice_last kv 3)).
      split; [reflexivity|]. cbv zeta.
      repeat split; auto. lia.
    + apply Nat.leb_gt in E3. cbn [bind]. exists k, k.
      split; [reflexivity|]. cbv zeta.
      repeat split; auto. lia.
Qed.

Lemma C4_stochastic_witness :
  calculateStochastic (firstn 5 flat_tail) 14 3
  = Ok (Stochastic.mk (Fin 50) (Fin 50))
  /\ exists k d, calculateStochastic flat_tail 14 3 = Ok (Stochastic.mk k d).
Proof.
  split.
  - apply (proj1 (C4_stochastic (firstn 5 flat_tail))). simpl. lia.
  - destruct (proj2 (C4_stochastic flat_tail)) as (k & d & E & _).
    + simpl. lia.
    + exists k, d. exact E.
Defined.

(** ** ADX *)

Lemma slice_map {A B : Type} (f : A -> B) (l : list A) (a b : nat) :
  slice (map f l) a b = map f (slice l a b).
Proof. unfold slice. rewrite skipn_map, firstn_map. reflexivity. Qed.

Lemma slice_length {A : Type} (l : list A) (a b : nat) :
  b <= length l -> length (slice l a b) = b - a.
Proof.
  intro H. unfold slice. rewrite length_firstn, length_skipn. lia.
Qed.

Lemma mean_over_Fin (l : list Q) (period : nat) :
  l <> [] -> 0 < period ->
  mean_over (map Fin l) period =
  Ok (Fin (Qreduce l / inject_Z (Z.of_nat period))).
Proof.
  intros Hl Hp. unfold mean_over. rewrite reduce_add_Fin by exact Hl.
  cbn [bind]. rewrite ndiv_of_nat by exact Hp. reflexivity.
Qed.

Lemma Qsum_map_nonneg {A : Type} (f : A -> Q) (J : list A) :
  (forall i, (0 <= f i)%Q) -> (0 <= Qsum (map f J))%Q.
Proof.
  intro H. induction J as [|j J IH]; simpl; [lra|].
  specialize (H j). lra.
Qed.

Lemma Qsum_map_le {A : Type} (f g : A -> Q) (J : list A) :
  (forall i, (f i <= g i)%Q) -> (Qsum (map f J) <= Qsum (map g J))%Q.
Proof.
  intro H. induction J as [|j J IH]; simpl; [lra|].
  specialize (H j). lra.
Qed.

Lemma Qmean_nonneg (s : Q) (n : nat) :
  0 < n -> (0 <= s)%Q -> (0 <= s / inject_Z (Z.of_nat n))%Q.
Proof.
  intros Hn Hs. apply Qle_shift_div_l; [apply of_nat_pos; exact Hn | lra].
Qed.

Lemma Qmean_le (s t : Q) (n : nat) :
  0 < n -> (s <= t)%Q ->
  (s / inject_Z (Z.of_nat n) <= t / inject_Z (Z.of_nat n))%Q.
Proof.
  intros Hn Hs. pose proof (of_nat_pos Hn) as Hp.
  unfold Qdiv. apply Qmult_le_compat_r; [exact Hs|].
  apply Qlt_le_weak, Qinv_lt_0_compat. exact Hp.
Qed.

(** *** The rows of the history *)

Section Rows.

Variable candles : list Candle.

Lemma true_range_at (i : nat) :
  true_range (candle_nth candles (i - 1)) (candle_nth candles i)
  = Fin (tr_at candles i).
Proof. reflexivity. Qed.

Lemma plus_dm_at_Fin (i : nat) :
  plus_dm (candle_nth candles (i - 1)) (candle_nth candles i)
  = Fin (plus_dm_at candles i).
Proof.
  unfold plus_dm, plus_dm_at. cbn [nsub nneg nadd ngt nlt].
  destruct (Qltb _ _ && Qltb _ _); reflexivity.
Qed.

Lemma minus_dm_at_Fin (i : nat) :
  minus_dm (candle_nth candles (i - 1)) (candle_nth candles i)
  = Fin (minus_dm_at candles i).
Proof.
  unfold minus_dm, minus_dm_at. cbn [nsub nneg nadd ngt nlt].
  destruct (Qltb _ _ && Qltb _ _); reflexivity.
Qed.

Lemma tr_at_nonneg (i : nat) : (0 <= tr_at candles i)%Q.
Proof.
  unfold tr_at. apply Qle_trans with (2 := Q.le_max_r _ _).
  apply Qabs_nonneg.
Qed.

Lemma plus_dm_at_nonneg (i : nat) : (0 <= plus_dm_at candles i)%Q.
Proof.
  unfold plus_dm_at. cbv zeta.
  destruct (Qltb _ _) eqn:E1; cbn [andb]; [|lra].
  destruct (Qltb 0 _) eqn:E2; [|lra]. apply Qltb_true in E2. lra.
Qed.

Lemma minus_dm_at_nonneg (i : nat) : (0 <= minus_dm_at candles i)%Q.
Proof.
  unfold minus_dm_at. cbv zeta.
  destruct (Qltb _ _) eqn:E1; cbn [andb]; [|lra].
  destruct (Qltb 0 _) eqn:E2; [|lra]. apply Qltb_true in E2. lra.
Qed.

Hypothesis candles_well_formed : Forall well_formed candles.

Lemma candle_nth_well_formed (i : nat) : well_formed (candle_nth candles i).
Proof.
  unfold candle_nth. destruct (Nat.lt_ge_cases i (length candles)) as [H|H].
  - rewrite Forall_forall in candles_well_formed.
    apply candles_well_formed, nth_In, H.
  - rewrite nth_overflow by exact H. unfold well_formed. simpl. lra.
Qed.

Lemma plus_dm_at_le_tr (i : nat) : (plus_dm_at candles i <= tr_at candles i)%Q.
Proof.
  pose proof (tr_at_nonneg i) as Hnn. unfold plus_dm_at. cbv zeta.
  destruct (Qltb _ _ && Qltb _ _); [|exact Hnn].
  unfold tr_at. cbv zeta.
  destruct (candle_nth_well_formed (i - 1)) as [_ Hch].
  apply Qle_trans with (2 := Q.le_max_l _ _).
  apply Qle_trans with (2 := Q.le_max_r _ _).
  apply Qle_trans with (2 := Qle_Qabs _). lra.
Qed.

Lemma minus_dm_at_le_tr (i : nat) :
  (minus_dm_at candles i <= tr_at candles i)%Q.
Proof.
  pose proof (tr_at_nonneg i) as Hnn. unfold minus_dm_at. cbv zeta.
  destruct (Qltb _ _ && Qltb _ _); [|exact Hnn].
  unfold tr_at. cbv zeta.
  destruct (candle_nth_well_formed (i - 1)) as [Hcl _].
  apply Qle_trans with (2 := Q.le_max_r _ _).
  rewrite <- Qabs_opp.
  apply Qle_trans with (2 := Qle_Qabs _). lra.
Qed.

End Rows.

(** *** The history loop *)

Lemma adx_loop_Fin (candles : list Candle) (idxs : list nat)
  (a b c : list Q) :
  (forall i, In i idxs -> 1 <= i < length candles) ->
  for_each (adx_step candles) idxs
           (mkHistory (map Fin a) (map Fin b) (map Fin c)) =
  Ok (mkHistory (map Fin (a ++ map (tr_at candles) idxs))
                (map Fin (b ++ map (plus_dm_at candles) idxs))
                (map Fin (c ++ map (minus_dm_at candles) idxs))).
Proof.
  revert a b c. induction idxs as [|i idxs IH]; intros a b c Hin.
  - simpl. rewrite !app_nil_r. reflexivity.
  - assert (Hi : 1 <= i < length candles) by (apply Hin; left; reflexivity).
    cbn [for_each]. unfold adx_step at 1.
    rewrite !candle_at_nth by lia. cbn [bind trValues plusDM minusDM].
    rewrite true_range_at, plus_dm_at_Fin, minus_dm_at_Fin.
    change [Fin (tr_at candles i)] with (map Fin [tr_at candles i]).
    change [Fin (plus_dm_at candles i)] with (map Fin [plus_dm_at candles i]).
    change [Fin (minus_dm_at candles i)]
      with (map Fin [minus_dm_at candles i]).
    rewrite <- !map_app.
    rewrite IH by (intros j Hj; apply Hin; right; exact Hj).
    cbn [map]. rewrite <- !app_assoc. reflexivity.
Qed.

Lemma adx_history_Fin (candles : list Candle) :
  adx_history candles =
  Ok (mkHistory
        (map Fin (map (tr_at candles) (range 1 (length candles))))
        (map Fin (map (plus_dm_at candles) (range 1 (length candles))))
        (map Fin (map (minus_dm_at candles) (range 1 (length candles))))).
Proof.
  unfold adx_history.
  apply (@adx_loop_Fin candles (range 1 (length candles)) [] [] []).
  intros i Hi. apply in_range in Hi. lia.
Qed.

(** *** Directional indices and DX *)

Lemma directional_index_Fin (a t : Q) :
  directional_index (Fin a) (Fin t) = Fin (di_of a t).
Proof.
  unfold directional_index, di_of, nne. cbn [neq].
  destruct (Qeq_bool t 0) eqn:E; cbn [negb]; [reflexivity|].
  unfold ndiv. rewrite E. reflexivity.
Qed.

Lemma di_of_nonneg (a t : Q) :
  (0 <= a)%Q -> (0 <= t)%Q -> (0 <= di_of a t)%Q.
Proof.
  intros Ha Ht. unfold di_of. destruct (Qeq_bool t 0) eqn:E; [lra|].
  apply Qeq_bool_false in E.
  assert (Hd : (0 <= a / t)%Q) by (apply Qle_shift_div_l; lra). lra.
Qed.

Lemma di_of_le_100 (a t : Q) :
  (0 <= a <= t)%Q -> (di_of a t <= 100)%Q.
Proof.
  intros [Ha Hat]. unfold di_of. destruct (Qeq_bool t 0) eqn:E; [lra|].
  apply Qeq_bool_false in E.
  assert (Hd : (a / t <= 1)%Q) by (apply Qle_shift_div_r; lra). lra.
Qed.

Lemma dx_Fin (p m : Q) :
  (0 <= p)%Q -> (0 <= m)%Q ->
  (nne (nadd (Fin p) (Fin m)) (Fin 0) = false)
  \/ (nne (nadd (Fin p) (Fin m)) (Fin 0) = true
      /\ exists x, dx_of (Fin p) (Fin m) = Fin x /\ percent x).
Proof.
  intros Hp Hm. unfold nne. cbn [nadd neq].
  destruct (Qeq_bool (p + m) 0) eqn:E; cbn [negb]; [left; reflexivity|].
  right. split; [reflexivity|].
  unfold dx_of. cbn [nsub nneg nadd nabs]. unfold ndiv. rewrite E.
  cbn [nmul]. eexists. split; [reflexivity|].
  apply Qeq_bool_false in E.
  assert (Hs : (0 < p + m)%Q) by lra.
  assert (Ha : (0 <= Qabs (p + - m) <= p + m)%Q).
  { split; [apply Qabs_nonneg|]. apply Qabs_Qle_condition. lra. }
  assert (H0 : (0 <= Qabs (p + - m) / (p + m))%Q)
    by (apply Qle_shift_div_l; lra).
  assert (H1 : (Qabs (p + - m) / (p + m) <= 1)%Q)
    by (apply Qle_shift_div_r; lra).
  unfold percent. lra.
Qed.

Lemma Qsum_percent (l : list Q) :
  Forall percent l ->
  (0 <= Qsum l <= 100 * inject_Z (Z.of_nat (length l)))%Q.
Proof.
  induction 1 as [|x l Hx _ IH].
  - cbn [Qsum fold_right length Z.of_nat]. change (inject_Z 0) with 0%Q. lra.
  - cbn [Qsum fold_right length]. fold (Qsum l).
    rewrite Nat2Z.inj_succ. unfold Z.succ. rewrite inject_Z_plus.
    unfold percent in Hx. change (inject_Z 1) with 1%Q. lra.
Qed.

Lemma Qmean_percent (l : list Q) :
  l <> [] -> Forall percent l ->
  percent (Qreduce l / inject_Z (Z.of_nat (length l))).
Proof.
  intros Hne Hl. pose proof (Qsum_percent Hl) as Hs.
  assert (Hn : (0 < inject_Z (Z.of_nat (length l)))%Q).
  { apply of_nat_pos. destruct l; [congruence | simpl; lia]. }
  unfold percent. rewrite Qreduce_sum. split.
  - apply Qle_shift_div_l; lra.
  - apply Qle_shift_div_r; lra.
Qed.

(** *** The DX loop *)

Section DXLoop.

Variable J : list nat.
Variables ftr fp fm : nat -> Q.
Variable period : nat.

Hypothesis period_pos : 0 < period.
Hypothesis ftr_nonneg : forall i, (0 <= ftr i)%Q.
Hypothesis fp_nonneg : forall i, (0 <= fp i)%Q.
Hypothesis fm_nonneg : forall i, (0 <= fm i)%Q.

Let h : dm_history :=
  mkHistory (map Fin (map ftr J)) (map Fin (map fp J)) (map Fin (map fm J)).

Lemma window_mean (f : nat -> Q) (i : nat) :
  (forall j, (0 <= f j)%Q) ->
  period <= i <= length J ->
  exists a, mean_over (slice (map Fin (map f J)) (i - period) i) period
            = Ok (Fin a) /\ (0 <= a)%Q.
Proof.
  intros Hf Hi. rewrite !slice_map.
  assert (Hne : map f (slice J (i - period) i) <> []).
  { intro E. apply (f_equal (@length Q)) in E.
    rewrite length_map, slice_length in E by lia. simpl in E. lia. }
  rewrite mean_over_Fin by assumption.
  eexists. split; [reflexivity|].
  apply Qmean_nonneg; [exact period_pos|].
  rewrite Qreduce_sum. apply Qsum_map_nonneg. exact Hf.
Qed.

Lemma dx_step_Fin (acc : list Q) (i : nat) :
  period <= i <= length J ->
  Forall percent acc ->
  exists acc', dx_step h period (map Fin acc) i = Ok (map Fin acc')
               /\ Forall percent acc'.
Proof.
  intros Hi Hacc. unfold dx_step, h. cbn [trValues plusDM minusDM].
  destruct (@window_mean ftr i ftr_nonneg Hi) as (t & Et & Ht).
  destruct (@window_mean fp i fp_nonneg Hi) as (p & Ep & Hp).
  destruct (@window_mean fm i fm_nonneg Hi) as (m & Em & Hm).
  rewrite Et, Ep, Em. cbn [bind]. rewrite !directional_index_Fin.
  destruct (@dx_Fin (di_of p t) (di_of m t)) as [E|(E & x & Ex & Hx)];
    try (apply di_of_nonneg; assumption); rewrite E.
  - exists acc. split; [reflexivity | exact Hacc].
  - exists (acc ++ [x]). rewrite Ex, map_app. split; [reflexivity|].
    apply Forall_app. split; [exact Hacc|]. constructor; [exact Hx|].
    constructor.
Qed.

Lemma dx_loop_Fin (idxs : list nat) (acc : list Q) :
  (forall i, In i idxs -> period <= i <= length J) ->
  Forall percent acc ->
  exists acc', for_each (dx_step h period) idxs (map Fin acc)
               = Ok (map Fin acc')
               /\ Forall percent acc'.
Proof.
  revert acc. induction idxs as [|i idxs IH]; intros acc Hin Hacc.
  - exists acc. split; [reflexivity | exact Hacc].
  - destruct (@dx_step_Fin acc i) as (a1 & E1 & H1);
      [apply Hin; left; reflexivity | exact Hacc |].
    destruct (IH a1) as (a2 & E2 & H2);
      [intros j Hj; apply Hin; right; exact Hj | exact H1 |].
    exists a2. cbn [for_each]. rewrite E1. cbn [bind]. split; assumption.
Qed.

End DXLoop.

(** *** The result *)

Lemma trailing_steps_nonempty (candles : list Candle) (period : nat) :
  2 <= length candles -> trailing_steps candles period <> [].
Proof.
  intro H. unfold trailing_steps. apply slice_last_nonempty.
  intro E. apply (f_equal (@length nat)) in E.
  rewrite range_length in E. simpl in E. lia.
Qed.

Lemma trailing_mean (candles : list Candle) (f : nat -> Q) (period : nat) :
  2 <= length candles -> 0 < period ->
  mean_over
    (slice_last (map Fin (map f (range 1 (length candles)))) period) period
  = Ok (Fin (Qreduce (map f (trailing_steps candles period))
             / inject_Z (Z.of_nat period))).
Proof.
  intros Hlen Hp. rewrite !slice_last_map. fold (trailing_steps candles period).
  apply mean_over_Fin; [|exact Hp].
  pose proof (@trailing_steps_nonempty candles period Hlen) as Hne.
  destruct (trailing_steps candles period); [congruence | discriminate].
Qed.

Lemma adx_local_atr_value (candles : list Candle) (period : nat) :
  2 <= length candles -> 0 < period ->
  adx_local_atr candles period = Ok (Fin (local_atr candles period)).
Proof.
  intros Hlen Hp. unfold adx_local_atr. rewrite adx_history_Fin.
  cbn [bind trValues]. apply trailing_mean; assumption.
Qed.




(** ** Trend strength *)

Section TrendStrength.

Variable candles : list Candle.

Lemma run_loop_tail (i n : nat) (d : bool) :
  i < length candles ->
  run_loop candles i (mkRun n (if d then 1 else -1)%Z) =
  Ok (mkRun (n + same_prefix d (dirs_from candles i)) (if d then 1 else -1)%Z).
Proof.
  revert n. induction i as [|i IH]; intros n Hi.
  - simpl. rewrite Nat.add_0_r. reflexivity.
  - cbn [run_loop dirs_from].
    destruct (length candles - 11 <? S i).
    2:{ simpl. rewrite Nat.add_0_r. reflexivity. }
    rewrite !candle_at_nth by lia. cbn [bind lastDirection consecutiveMoves].
    assert (Hd0 : ((if d then 1 else -1) =? 0)%Z = false)
      by (destruct d; reflexivity).
    rewrite Hd0. cbn [ngt nlt same_prefix].
    fold (candle_nth candles (S i)).
    assert (Hr : Qltb (close (candle_nth candles i))
                      (close (candle_nth candles (S i)))
                 = rising candles (S i)).
    { unfold rising. replace (S i - 1) with i by lia. reflexivity. }
    rewrite Hr.
    destruct (rising candles (S i)), d; cbn [Bool.eqb Z.eqb Pos.eqb];
      try (rewrite IH by lia; f_equal; f_equal; lia);
      try (rewrite Nat.add_0_r; reflexivity).
Qed.

Lemma run_loop_start (i : nat) :
  i < length candles ->
  exists st, run_loop candles i (mkRun 0 0%Z) = Ok st
             /\ consecutiveMoves st = run_length (dirs_from candles i).
Proof.
  intro Hi. destruct i as [|i].
  - exists (mkRun 0 0%Z). split; reflexivity.
  - cbn [run_loop dirs_from].
    destruct (length candles - 11 <? S i).
    2:{ exists (mkRun 0 0%Z). split; reflexivity. }
    rewrite !candle_at_nth by lia. cbn [bind lastDirection Z.eqb ngt nlt].
    assert (Hr : Qltb (close (candle_nth candles i))
                      (close (candle_nth candles (S i)))
                 = rising candles (S i)).
    { unfold rising. replace (S i - 1) with i by lia. reflexivity. }
    rewrite Hr.
    pose proof (@run_loop_tail i 1 (rising candles (S i))) as Ht.
    rewrite Ht by lia. eexists. split; [reflexivity|].
    reflexivity.
Qed.

Lemma dirs_from_window (i : nat) :
  length candles - 11 <= i ->
  11 <= length candles ->
  dirs_from candles i =
  map (rising candles) (rev (range (length candles - 10) (S i))).
Proof.
  intros Hlo Hlen. induction i as [|i IH].
  - simpl. unfold range. replace (1 - (length candles - 10)) with 0 by lia.
    reflexivity.
  - cbn [dirs_from]. destruct (length candles - 11 <? S i) eqn:E.
    + apply Nat.ltb_lt in E.
      rewrite range_snoc by lia. rewrite rev_app_distr. simpl.
      rewrite IH by lia. reflexivity.
    + apply Nat.ltb_ge in E. unfold range.
      replace (S (S i) - (length candles - 10)) with 0 by lia. reflexivity.
Qed.

Lemma momentum_run_loop :
  20 <= length candles ->
  exists st, run_loop candles (length candles - 1) (mkRun 0 0%Z) = Ok st
             /\ consecutiveMoves st = momentum_run candles.
Proof.
  intro Hlen.
  destruct (@run_loop_start (length candles - 1)) as (st & E & Hc); [lia|].
  exists st. split; [exact E|]. rewrite Hc. unfold momentum_run.
  rewrite dirs_from_window by lia.
  replace (S (length candles - 1)) with (length candles) by lia.
  reflexivity.
Qed.

Lemma trend_strength_value (adxValue : Q) :
  20 <= length candles ->
  calculateTrendStrength candles (Fin adxValue) =
  Ok (nmin (Fin 100) (trend_average candles adxValue)).
Proof.
  intro Hlen. unfold calculateTrendStrength.
  destruct (length candles <? 20) eqn:E; [apply Nat.ltb_lt in E; lia|].
  rewrite closes_as_map.
  assert (Hne : close_prices candles <> []).
  { intro E0. apply (f_equal (@length Q)) in E0. unfold close_prices in E0.
    rewrite length_map in E0. simpl in E0. lia. }
  rewrite sma_Fin; [|exact Hne|lia]. cbn [bind].
  rewrite slice_last_length by lia.
  assert (Hcl : length (close_prices candles) = length candles)
    by (unfold close_prices; apply length_map).
  rewrite Hcl, length_map, Hcl, Nat.min_l by lia.

  destruct momentum_run_loop as (st & Est & Hst); [exact Hlen|].
  rewrite Est. cbn [bind]. rewrite Hst.
  rewrite <- closes_as_map. unfold closes.
  rewrite (get_map_Fin close candles (mkCandle 0 0 0 0 0 0)) by lia.
  reflexivity.
Qed.

End TrendStrength.

Lemma momentum_run_le (candles : list Candle) : momentum_run candles <= 10.
Proof.
  unfold momentum_run.
  set (dirs := map _ _).
  assert (Hlen : length dirs <= 10).
  { unfold dirs. rewrite length_map, length_rev, range_length. lia. }
  assert (Hp : forall d l, same_prefix d l <= length l).
  { intros d l. induction l as [|x l IH]; simpl; [lia|].
    destruct (Bool.eqb x d); lia. }
  destruct dirs as [|d t]; simpl in *; [lia|].
  specialize (Hp d t). lia.
Qed.




(** ** OBV *)

Lemma obv_step_after (candles : list Candle) (a : Q) (i : nat) :
  1 <= i < length candles ->
  obv_step candles (Fin a) i = Ok (Fin (obv_after candles a i)).
Proof.
  intro Hi. unfold obv_step, obv_after.
  rewrite !candle_at_nth by lia. cbn [bind ngt nlt].
  destruct (Qltb (close (candle_nth candles (i - 1)))
                 (close (candle_nth candles i))); [reflexivity|].
  destruct (Qltb (close (candle_nth candles i))
                 (close (candle_nth candles (i - 1)))); reflexivity.
Qed.

Lemma obv_loop (candles : list Candle) (idxs : list nat) (a : Q) :
  (forall i, In i idxs -> 1 <= i < length candles) ->
  for_each (obv_step candles) idxs (Fin a) =
  Ok (Fin (fold_left (obv_after candles) idxs a)).
Proof.
  revert a. induction idxs as [|i idxs IH]; intros a Hin; [reflexivity|].
  simpl. rewrite obv_step_after by (apply Hin; left; reflexivity).
  simpl. apply IH. intros j Hj. apply Hin. right. exact Hj.
Qed.

Lemma obv_value (candles : list Candle) :
  calculateOBV candles =
  Ok (Fin (fold_left (obv_after candles) (range 1 (length candles)) 0%Q)).
Proof.
  unfold calculateOBV. destruct (length candles <? 2) eqn:E.
  - apply Nat.ltb_lt in E. unfold range.
    replace (length candles - 1) with 0 by lia. reflexivity.
  - apply obv_loop. intros i Hi. apply in_range in Hi. lia.
Qed.

Lemma close_prices_nth (candles : list Candle) (i : nat) :
  nth i (close_prices candles) 0%Q = close (candle_nth candles i).
Proof.
  unfold close_prices, candle_nth.
  change 0%Q with (close (mkCandle 0 0 0 0 0 0)) at 1. apply map_nth.
Qed.

(** With rising closes and a non-negative volume a step never lowers the
    accumulator. *)
Lemma obv_after_ge (candles : list Candle) (a : Q) (i : nat) :
  nondecreasing (close_prices candles) ->
  volumes_nonneg candles ->
  1 <= i < length candles ->
  (a <= obv_after candles a i)%Q.
Proof.
  intros Hnd Hvol Hi. unfold obv_after.
  assert (Hv : (0 <= volume (candle_nth candles i))%Q).
  { unfold volumes_nonneg in Hvol. rewrite Forall_forall in Hvol.
    apply Hvol. unfold candle_nth. apply nth_In. lia. }
  assert (Hc : (close (candle_nth candles (i - 1))
                <= close (candle_nth candles i))%Q).
  { pose proof (@nondecreasing_nth (close_prices candles) (i - 1) 0%Q Hnd)
      as Hn.
    replace (S (i - 1)) with i in Hn by lia.
    rewrite !close_prices_nth in Hn. apply Hn.
    unfold close_prices. rewrite length_map. lia. }
  destruct (Qltb _ _) eqn:E1; [lra|].
  destruct (Qltb (close (candle_nth candles i)) _) eqn:E2; [|lra].
  apply Qltb_true in E2. lra.
Qed.

Lemma obv_fold_ge (candles : list Candle) (idxs : list nat) (a : Q) :
  nondecreasing (close_prices candles) ->
  volumes_nonneg candles ->
  (forall i, In i idxs -> 1 <= i < length candles) ->
  (a <= fold_left (obv_after candles) idxs a)%Q.
Proof.
  intros Hnd Hvol. revert a.
  induction idxs as [|i idxs IH]; intros a Hin; simpl; [lra|].
  apply Qle_trans with (obv_after candles a i).
  - apply obv_after_ge; auto. apply Hin. left. reflexivity.
  - apply IH. intros j Hj. apply Hin. right. exact Hj.
Qed.

Lemma candle_nth_firstn (candles : list Candle) (k i : nat) :
  i < k -> candle_nth (firstn k candles) i = candle_nth candles i.
Proof.
  intro H. unfold candle_nth. rewrite nth_firstn.
  apply Nat.ltb_lt in H. rewrite H. reflexivity.
Qed.

Lemma obv_fold_prefix (candles : list Candle) (k : nat) (idxs : list nat)
  (a : Q) :
  (forall i, In i idxs -> 1 <= i < k) ->
  fold_left (obv_after (firstn k candles)) idxs a =
  fold_left (obv_after candles) idxs a.
Proof.
  revert a. induction idxs as [|i idxs IH]; intros a Hin; [reflexivity|].
  simpl. assert (Hi : 1 <= i < k) by (apply Hin; left; auto).
  unfold obv_after at 2 4. rewrite !candle_nth_firstn by lia.
  apply IH. intros j Hj. apply Hin. right. exact Hj.
Qed.

(** Mirroring the prices turns every step into its opposite. *)
Lemma obv_after_mirror (K : Q) (candles : list Candle) (a b : Q) (i : nat) :
  i < length candles ->
  (b == - a)%Q ->
  (obv_after (map (mirror K) candles) b i == - obv_after candles a i)%Q.
Proof.
  intros Hi Hab. unfold obv_after.
  assert (Hm : forall j, j < length candles ->
            candle_nth (map (mirror K) candles) j
            = mirror K (candle_nth candles j)).
  { intros j Hj. unfold candle_nth.
    rewrite (nth_indep _ _ (mirror K (mkCandle 0 0 0 0 0 0)))
      by (rewrite length_map; exact Hj).
    apply map_nth. }
  rewrite !Hm by lia. cbn [mirror close volume].
  set (p := close (candle_nth candles (i - 1))).
  set (c := close (candle_nth candles i)).
  set (v := volume (candle_nth candles i)).
  destruct (Qltb (K - p) (K - c)) eqn:E1;
    destruct (Qltb (K - c) (K - p)) eqn:E2;
    destruct (Qltb p c) eqn:E3;
    destruct (Qltb c p) eqn:E4;
    Qltb_props; lra.
Qed.

Lemma obv_fold_mirror (K : Q) (candles : list Candle) (idxs : list nat)
  (a b : Q) :
  (forall i, In i idxs -> i < length candles) ->
  (b == - a)%Q ->
  (fold_left (obv_after (map (mirror K) candles)) idxs b
   == - fold_left (obv_after candles) idxs a)%Q.
Proof.
  revert a b. induction idxs as [|i idxs IH]; intros a b Hin Hab; simpl.
  - exact Hab.
  - apply IH.
    + intros j Hj. apply Hin. right. exact Hj.
    + apply obv_after_mirror; auto. apply Hin. left. reflexivity.
Qed.

(** C7 as stated fails: closes that rise with a negative volume give a
    negative OBV. *)
Lemma C7_obv_negative_volume_counterexample :
  nondecreasing (close_prices obv_negative_volume)
  /\ calculateOBV obv_negative_volume = Ok (Fin (-5)).
Proof.
  split.
  - simpl. split; [unfold Qle; simpl; lia | exact I].
  - reflexivity.
Qed.

(** C7 (amended). For candles whose closes never decrease and whose volumes
    are non-negative, every step of OBV adds a non-negative amount, OBV is
    non-negative, and appending a candle never lowers it; and for every
    candle sequence OBV of the price-mirrored sequence is the exact negative
    of OBV of the sequence. *)
Theorem C7_obv_monotone_and_mirror (candles : list Candle) :
  (nondecreasing (close_prices candles) ->
   volumes_nonneg candles ->
   (forall i a, 1 <= i < length candles ->
      exists a', obv_step candles (Fin a) i = Ok (Fin a') /\ (a <= a')%Q)
   /\ (exists q, calculateOBV candles = Ok (Fin q) /\ (0 <= q)%Q)
   /\ (forall k, exists q q',
         calculateOBV (firstn k candles) = Ok (Fin q)
         /\ calculateOBV candles = Ok (Fin q') /\ (q <= q')%Q))
  /\ (forall K, exists q q',
        calculateOBV candles = Ok (Fin q)
        /\ calculateOBV (map (mirror K) candles) = Ok (Fin q')
        /\ (q' == - q)%Q).
Proof.
  split.
  - intros Hnd Hvol. split; [|split].
    + intros i a Hi. exists (obv_after candles a i). split.
      * apply obv_step_after. exact Hi.
      * apply obv_after_ge; auto.
    + eexists. split; [apply obv_value|].
      apply obv_fold_ge; auto. intros i Hi. apply in_range in Hi. lia.
    + intro k. do 2 eexists. split; [apply obv_value|].
      split; [apply obv_value|].
      destruct (Nat.le_gt_cases (length candles) k) as [Hk|Hk].
      { rewrite firstn_all2 by exact Hk. lra. }
      rewrite length_firstn, Nat.min_l by lia.
      (* the indices of the prefix, then the remaining ones *)
      assert (Hsplit : range 1 (length candles)
                       = range 1 k ++ range (Nat.max 1 k) (length candles)).
      { unfold range. destruct k as [|k].
        - simpl. reflexivity.
        - replace (length candles - 1)
            with ((S k - 1) + (length candles - S k)) by lia.
          rewrite seq_app. f_equal. f_equal; lia. }
      rewrite Hsplit, fold_left_app.
      assert (Hpre : fold_left (obv_after (firstn k candles)) (range 1 k) 0%Q
                     = fold_left (obv_after candles) (range 1 k) 0%Q).
      { apply obv_fold_prefix. intros i Hi. apply in_range in Hi. lia. }
      rewrite Hpre. apply obv_fold_ge; auto.
      intros i Hi. apply in_range in Hi. lia.
  - intro K. do 2 eexists. split; [apply obv_value|].
    split; [apply obv_value|].
    rewrite length_map. apply obv_fold_mirror.
    + intros i Hi. apply in_range in Hi. lia.
    + lra.
Qed.

Lemma C7_obv_witness :
  exists q, calculateOBV rsi_rising = Ok (Fin q) /\ (0 <= q)%Q.
Proof.
  apply (proj1 (C7_obv_monotone_and_mirror rsi_rising)).
  - simpl. repeat split; try (unfold Qle; simpl; lia).
  - unfold volumes_nonneg, rsi_rising. simpl.
    repeat constructor; unfold Qle; simpl; lia.
Defined.

(** ** Support and resistance *)

Section InsertionSort.

Variable cmp : num -> num -> num.
Variable test : Q -> Q -> bool.
Variable R : Q -> Q -> Prop.

Hypothesis cmp_test :
  forall x y, ngt (cmp (Fin y) (Fin x)) (Fin 0) = test y x.
Hypothesis test_true : forall x y, test y x = true -> R x y.
Hypothesis test_false : forall x y, test y x = false -> R y x.
Hypothesis R_trans : forall x y z, R x y -> R y z -> R x z.

Lemma insert_by_Fin (x : Q) (l : list Q) :
  insert_by cmp (Fin x) (map Fin l) = map Fin (Qinsert_by test x l).
Proof.
  induction l as [|y l IH]; cbn [insert_by map Qinsert_by]; [reflexivity|].
  rewrite cmp_test. destruct (test y x); cbn [map]; [reflexivity|].
  rewrite IH. reflexivity.
Qed.

Lemma sort_by_Fin (l : list Q) :
  sort_by cmp (map Fin l) = map Fin (Qsort_by test l).
Proof.
  unfold sort_by, Qsort_by. change (@nil num) with (map Fin []).
  generalize (@nil Q). induction l as [|x l IH]; intro acc; simpl.
  - reflexivity.
  - rewrite insert_by_Fin. apply IH.
Qed.

Lemma Qinsert_In (x z : Q) (l : list Q) :
  In z (Qinsert_by test x l) <-> z = x \/ In z l.
Proof.
  induction l as [|y l IH]; simpl.
  - intuition.
  - destruct (test y x); simpl; [intuition|]. rewrite IH. intuition.
Qed.

Lemma Qinsert_sorted (x : Q) (l : list Q) :
  StronglySorted R l -> StronglySorted R (Qinsert_by test x l).
Proof.
  induction 1 as [|y l Hs IH Hall]; simpl.
  - constructor; constructor.
  - destruct (test y x) eqn:E.
    + constructor; [constructor; assumption|].
      constructor; [apply test_true; exact E|].
      rewrite Forall_forall in *. intros z Hz.
      apply R_trans with y; [apply test_true; exact E | apply Hall; exact Hz].
    + constructor; [exact IH|].
      rewrite Forall_forall in *. intros z Hz.
      apply Qinsert_In in Hz. destruct Hz as [->|Hz].
      * apply test_false. exact E.
      * apply Hall. exact Hz.
Qed.

Lemma Qsort_fold (l acc : list Q) :
  StronglySorted R acc ->
  StronglySorted R (fold_left (fun a x => Qinsert_by test x a) l acc)
  /\ (forall z, In z (fold_left (fun a x => Qinsert_by test x a) l acc)
                <-> In z l \/ In z acc).
Proof.
  revert acc. induction l as [|x l IH]; intros acc Hs; simpl.
  - split; [exact Hs | intuition].
  - destruct (IH (Qinsert_by test x acc) (Qinsert_sorted x Hs)) as [H1 H2].
    split; [exact H1|]. intro z. rewrite H2, Qinsert_In. intuition.
Qed.

(** The first element of the sorted array is related to every element. *)
Lemma Qsort_head (l : list Q) :
  l <> [] ->
  exists h t, Qsort_by test l = h :: t /\ In h l
              /\ forall z, In z l -> z = h \/ R h z.
Proof.
  intro Hne. unfold Qsort_by.
  destruct (@Qsort_fold l [] (SSorted_nil R)) as [Hs Hin].
  destruct (fold_left _ l []) as [|h t] eqn:E.
  - destruct l as [|x l]; [congruence|].
    exfalso. apply (proj2 (Hin x)). left. left. reflexivity.
  - exists h, t. split; [reflexivity|]. split.
    + destruct (proj1 (Hin h) (or_introl eq_refl)) as [H|[]]. exact H.
    + intros z Hz. destruct (proj2 (Hin z) (or_introl Hz)) as [H|H].
      * left. symmetry. exact H.
      * right. inversion Hs as [|? ? _ Hall]; subst.
        rewrite Forall_forall in Hall. apply Hall. exact H.
Qed.

End InsertionSort.

Lemma filter_Fin (f : num -> bool) (l : list Q) :
  filter f (map Fin l) = map Fin (filter (fun q => f (Fin q)) l).
Proof.
  induction l as [|x l IH]; simpl; [reflexivity|].
  destruct (f (Fin x)); simpl; rewrite IH; reflexivity.
Qed.

Lemma pivot_step_Fin (candles : list Candle) (w : nat) (l : list Q) (i : nat) :
  i < length candles ->
  exists l', pivot_step candles w (map Fin l) i = Ok (map Fin l').
Proof.
  intro Hi. unfold pivot_step. rewrite candle_at_nth by exact Hi.
  cbn [bind].
  destruct (isHigh _ _ _), (isLow _ _ _).
  - exists ((l ++ [high (candle_nth candles i)])
            ++ [low (candle_nth candles i)]).
    rewrite !map_app. reflexivity.
  - exists (l ++ [high (candle_nth candles i)]). rewrite map_app. reflexivity.
  - exists (l ++ [low (candle_nth candles i)]). rewrite map_app. reflexivity.
  - exists l. reflexivity.
Qed.

Lemma pivot_loop_Fin (candles : list Candle) (w : nat) (idxs : list nat)
  (l : list Q) :
  (forall i, In i idxs -> i < length candles) ->
  exists l', for_each (pivot_step candles w) idxs (map Fin l)
             = Ok (map Fin l').
Proof.
  revert l. induction idxs as [|i idxs IH]; intros l Hin.
  - exists l. reflexivity.
  - destruct (@pivot_step_Fin candles w l i) as (l1 & E1);
      [apply Hin; left; reflexivity|].
    destruct (IH l1) as (l2 & E2);
      [intros j Hj; apply Hin; right; exact Hj|].
    exists l2. simpl. rewrite E1. exact E2.
Qed.

Lemma pivot_points_Fin (candles : list Candle) :
  exists pivots, pivot_points candles = Ok (map Fin pivots).
Proof.
  unfold pivot_points. change (@nil num) with (map Fin []).
  apply pivot_loop_Fin. intros i Hi. apply in_range in Hi. lia.
Qed.

(** C8. With at least 20 candles the pivots are real numbers, and when one
    of them is below and one above the current price, the nearest support
    is the largest pivot below the price and the nearest resistance the
    smallest pivot above it, so that support < price < resistance. *)
Theorem C8_support_below_resistance_above (candles : list Candle)
  (currentPrice : Q) :
  20 <= length candles ->
  exists pivots,
    pivot_points candles = Ok (map Fin pivots)
    /\ ((exists p, In p pivots /\ (p < currentPrice)%Q) ->
        (exists p, In p pivots /\ (currentPrice < p)%Q) ->
        exists sr s r,
          findSupportResistance candles (Fin currentPrice) = Ok sr
          /\ SR.nearestSupport sr = Fin s
          /\ SR.nearestResistance sr = Fin r
          /\ (s < currentPrice < r)%Q
          /\ In s pivots /\ In r pivots
          /\ (forall p, In p pivots -> (p < currentPrice)%Q -> (p <= s)%Q)
          /\ (forall p, In p pivots -> (currentPrice < p)%Q -> (r <= p)%Q)).
Proof.
  intro Hlen. destruct (pivot_points_Fin candles) as (pivots & Ep).
  exists pivots. split; [exact Ep|].
  intros (p & Hp & Hpl) (q & Hq & Hql).
  unfold findSupportResistance.
  destruct (length candles <? 20) eqn:E; [apply Nat.ltb_lt in E; lia|].
  rewrite Ep. cbn [bind]. rewrite !filter_Fin.
  cbn [nlt ngt].
  set (below := filter (fun x => Qltb x currentPrice) pivots).
  set (above := filter (fun x => Qltb currentPrice x) pivots).
  rewrite (@sort_by_Fin (fun a b => nsub b a) (fun y x => Qltb y x))
    by (intros x y; cbn [nsub nneg nadd ngt nlt];
        destruct (Qltb 0 (x + - y)) eqn:E1, (Qltb y x) eqn:E2;
        try reflexivity; Qltb_props; lra).
  rewrite (@sort_by_Fin (fun a b => nsub a b) (fun y x => Qltb x y))
    by (intros x y; cbn [nsub nneg nadd ngt nlt];
        destruct (Qltb 0 (y + - x)) eqn:E1, (Qltb x y) eqn:E2;
        try reflexivity; Qltb_props; lra).
  assert (Hb : below <> []).
  { intro E0. assert (Hin : In p below).
    { apply filter_In. split; [exact Hp | apply Qltb_true; exact Hpl]. }
    rewrite E0 in Hin. exact Hin. }
  assert (Ha : above <> []).
  { intro E0. assert (Hin : In q above).
    { apply filter_In. split; [exact Hq | apply Qltb_true; exact Hql]. }
    rewrite E0 in Hin. exact Hin. }
  destruct (@Qsort_head (fun y x => Qltb y x) (fun a b => (b <= a)%Q))
    with (l := below) as (s & ts & Es & Hs & Hsmax); auto.
  { intros x y H. apply Qltb_true in H. lra. }
  { intros x y H. apply Qltb_false in H. exact H. }
  { intros x y z H1 H2. lra. }
  destruct (@Qsort_head (fun y x => Qltb x y) (fun a b => (a <= b)%Q))
    with (l := above) as (r & tr & Er & Hr & Hrmin); auto.
  { intros x y H. apply Qltb_true in H. lra. }
  { intros x y H. apply Qltb_false in H. exact H. }
  { intros x y z H1 H2. lra. }
  rewrite Es, Er. cbn [map length Nat.ltb Nat.leb get nth].
  apply filter_In in Hs. destruct Hs as [Hs1 Hs2]. apply Qltb_true in Hs2.
  apply filter_In in Hr. destruct Hr as [Hr1 Hr2]. apply Qltb_true in Hr2.
  eexists. exists s, r. split; [reflexivity|].
  cbn [SR.nearestSupport SR.nearestResistance].
  repeat split; auto.
  - intros z Hz Hzl.
    destruct (Hsmax z) as [->|H]; [|lra|exact H].
    apply filter_In. split; [exact Hz | apply Qltb_true; exact Hzl].
  - intros z Hz Hzl.
    destruct (Hrmin z) as [->|H]; [|lra|exact H].
    apply filter_In. split; [exact Hz | apply Qltb_true; exact Hzl].
Qed.

Lemma C8_support_resistance_witness :
  exists sr s r,
    findSupportResistance one_dip_one_peak (Fin 100) = Ok sr
    /\ SR.nearestSupport sr = Fin s /\ SR.nearestResistance sr = Fin r
    /\ (s < 100 < r)%Q.
Proof.
  destruct (@C8_support_below_resistance_above one_dip_one_peak 100)
    as (pivots & Ep & H).
  - simpl. lia.
  - assert (Hd : In 90%Q pivots /\ In 110%Q pivots).
    { assert (Hc : exists l, pivot_points one_dip_one_peak = Ok (map Fin l)
                             /\ In 90%Q l /\ In 110%Q l).
      { exists [100; 100; 100; 90; 100; 100; 100; 100; 100; 100; 100; 100;
                100; 100; 110; 100; 100; 100; 100; 100]%Q.
        split; [vm_compute; reflexivity|]. simpl. tauto. }
      destruct Hc as (l & El & Hl). rewrite El in Ep.
      injection Ep as Ep. apply map_Fin_inj in Ep. subst l. exact Hl. }
    destruct H as (sr & s & r & E & Es & Er & Hsr & _).
    + exists 90%Q. split; [tauto | reflexivity].
    + exists 110%Q. split; [tauto | reflexivity].
    + exists sr, s, r. tauto.
Defined.

(** ** Momentum and rate of change *)

Lemma momentum_formula (candles : list Candle) (p : nat) :
  p + 1 <= length candles ->
  calculateMomentum candles p =
  Ok (rate_of_change (close (candle_nth candles (length candles - 1)))
                     (close (candle_nth candles (length candles - p - 1)))).
Proof.
  intro H. unfold calculateMomentum.
  destruct (length candles <? p + 1) eqn:E;
    [apply Nat.ltb_lt in E; lia|].
  rewrite !candle_at_nth by lia. reflexivity.
Qed.

(** C9. For every candle sequence and every period (so for every p >= 1),
    Momentum and ROC return the same value: 0 with fewer than p + 1
    candles, and otherwise
    (close_now - close_{now-p}) / close_{now-p} * 100. *)
Theorem C9_momentum_equals_roc (candles : list Candle) (p : nat) :
  calculateMomentum candles p = calculateROC candles p
  /\ (length candles < p + 1 -> calculateMomentum candles p = Ok (Fin 0))
  /\ (p + 1 <= length candles ->
      calculateROC candles p =
      Ok (rate_of_change
            (close (candle_nth candles (length candles - 1)))
            (close (candle_nth candles (length candles - p - 1))))).
Proof.
  assert (Heq : calculateMomentum candles p = calculateROC candles p).
  { unfold calculateMomentum, calculateROC.
    destruct (length candles <? p + 1); reflexivity. }
  split; [exact Heq|]. split.
  - intro H. unfold calculateMomentum.
    apply Nat.ltb_lt in H. rewrite H. reflexivity.
  - intro H. rewrite <- Heq. apply momentum_formula. exact H.
Qed.

Lemma C9_momentum_roc_witness :
  calculateMomentum (firstn 5 rsi_rising) 10 = Ok (Fin 0)
  /\ calculateROC rsi_rising 12 = Ok (rate_of_change 114 102).
Proof.
  split.
  - apply (proj1 (proj2 (C9_momentum_equals_roc (firstn 5 rsi_rising) 10))).
    simpl. lia.
  - apply (proj2 (proj2 (C9_momentum_equals_roc rsi_rising 12))).
    simpl. lia.
Defined.

(** ** EMA on a short series *)

Lemma get_last (prices : list num) :
  get prices (length prices - 1) = last prices Undefined.
Proof.
  unfold get. induction prices as [|x l IH]; [reflexivity|].
  destruct l as [|y l]; [reflexivity|].
  simpl in *. rewrite Nat.sub_0_r in IH. exact IH.
Qed.

(** C10. On a non-empty series shorter than the period the EMA is the last
    element of the series, returned as it is. *)
Theorem C10_ema_short_series_returns_last (prices : list num) (period : nat) :
  prices <> [] ->
  length prices < period ->
  calculateEMA prices period = Ok (last prices Undefined)
  /\ In (last prices Undefined) prices.
Proof.
  intros Hne Hlt. unfold calculateEMA.
  apply Nat.ltb_lt in Hlt. rewrite Hlt. rewrite get_last. split.
  - reflexivity.
  - destruct (exists_last Hne) as (l & x & ->).
    rewrite last_last. apply in_or_app. right. left. reflexivity.
Qed.

Lemma C10_ema_witness :
  calculateEMA [Fin 3; Fin 7; Fin 5] 12 = Ok (Fin 5).
Proof.
  apply (C10_ema_short_series_returns_last (prices := [Fin 3; Fin 7; Fin 5])).
  - discriminate.
  - simpl. lia.
Defined.

(** * Further properties of the engine *)

(** ** ATR *)

Lemma atr_loop_Fin (candles : list Candle) (idxs : list nat) (a : list Q) :
  (forall i, In i idxs -> 1 <= i < length candles) ->
  for_each (atr_step candles) idxs (map Fin a) =
  Ok (map Fin (a ++ map (tr_at candles) idxs)).
Proof.
  revert a. induction idxs as [|i idxs IH]; intros a Hin.
  - simpl. rewrite app_nil_r. reflexivity.
  - assert (Hi : 1 <= i < length candles) by (apply Hin; left; reflexivity).
    cbn [for_each]. unfold atr_step at 1.
    rewrite !candle_at_nth by lia. cbn [bind].
    rewrite true_range_at.
    change [Fin (tr_at candles i)] with (map Fin [tr_at candles i]).
    rewrite <- map_app.
    rewrite IH by (intros j Hj; apply Hin; right; exact Hj).
    cbn [map]. rewrite <- app_assoc. reflexivity.
Qed.

Lemma atr_value (candles : list Candle) (period : nat) :
  1 <= period -> period + 1 <= length candles ->
  calculateATR candles period = Ok (Fin (local_atr candles period)).
Proof.
  intros Hp Hlen. unfold calculateATR.
  destruct (length candles <? period + 1) eqn:E;
    [apply Nat.ltb_lt in E; lia|].
  change (@nil num) with (map Fin []).
  rewrite atr_loop_Fin by (intros i Hi; apply in_range in Hi; lia).
  cbn [bind app]. apply trailing_mean; lia.
Qed.

Lemma Qsum_zero_iff {A : Type} (f : A -> Q) (J : list A) :
  (forall i, (0 <= f i)%Q) ->
  (Qsum (map f J) == 0)%Q <-> (forall i, In i J -> (f i == 0)%Q).
Proof.
  intro Hf. induction J as [|j J IH]; simpl.
  - split; [intros _ i [] | reflexivity].
  - pose proof (Hf j) as Hj.
    pose proof (Qsum_map_nonneg f J Hf) as Hs. split.
    + intros H i [<-|Hi]; [lra|]. apply IH; [lra | exact Hi].
    + intro H. rewrite (H j (or_introl eq_refl)).
      rewrite (proj2 IH); [lra|]. intros i Hi. apply H. right. exact Hi.
Qed.

Lemma tr_at_zero_iff (candles : list Candle) (i : nat) :
  (tr_at candles i == 0)%Q <-> flat_step candles i.
Proof.
  unfold tr_at, flat_step. cbv zeta.
  set (h := high (candle_nth candles i)).
  set (l := low (candle_nth candles i)).
  set (c := close (candle_nth candles (i - 1))).
  pose proof (Qabs_nonneg (h + - c)) as H1.
  pose proof (Qabs_nonneg (l + - c)) as H2.
  split.
  - intro H.
    assert (Hm : (Qmax (Qmax (h + - l) (Qabs (h + - c))) (Qabs (l + - c))
                  <= 0)%Q) by lra.
    apply Q.max_lub_iff in Hm. destruct Hm as [Hm Hc].
    apply Q.max_lub_iff in Hm. destruct Hm as [_ Hb].
    apply Qabs_Qle_condition in Hb. apply Qabs_Qle_condition in Hc.
    split; lra.
  - intros [Hhl Hhc].
    assert (E1 : (h + - l == 0)%Q) by lra.
    assert (E2 : (h + - c == 0)%Q) by lra.
    assert (E3 : (l + - c == 0)%Q) by lra.
    rewrite E1, E2, E3. reflexivity.
Qed.



(** ** Volume indicator *)

Lemma volumes_as_map (cs : list Candle) : volumes cs = map Fin (map volume cs).
Proof. unfold volumes. rewrite map_map. reflexivity. Qed.

Lemma inf_of_sign_cases (x : Q) :
  ((x == 0)%Q -> inf_of_sign (x ?= 0)%Q = NaN)
  /\ ((0 < x)%Q -> inf_of_sign (x ?= 0)%Q = PInf)
  /\ ((x < 0)%Q -> inf_of_sign (x ?= 0)%Q = NInf).
Proof.
  repeat split; intro H.
  - apply Qeq_alt in H. unfold Qcompare in *. rewrite H. reflexivity.
  - apply Qgt_alt in H. unfold Qcompare in *. rewrite H. reflexivity.
  - apply Qlt_alt in H. unfold Qcompare in *. rewrite H. reflexivity.
Qed.

Lemma volume_indicator_value (candles : list Candle) :
  10 <= length candles ->
  calculateVolumeIndicator candles =
  Ok (nmul (nsub (ndiv (Fin (Qreduce (map volume (slice_last candles 5))
                             / inject_Z (Z.of_nat 5)))
                       (Fin (Qreduce
                               (map volume
                                    (slice candles (length candles - 10)
                                           (length candles - 5)))
                             / inject_Z (Z.of_nat 5))))
                 (Fin 1))
           (Fin 100)).
Proof.
  intro Hlen. unfold calculateVolumeIndicator.
  destruct (length candles <? 10) eqn:E; [apply Nat.ltb_lt in E; lia|].
  rewrite !volumes_as_map, !length_map.
  assert (L1 : length (slice_last candles 5) = 5)
    by (rewrite slice_last_length by lia; lia).
  assert (L2 : length (slice candles (length candles - 10)
                             (length candles - 5)) = 5)
    by (rewrite slice_length by lia; lia).
  rewrite L1, L2.
  rewrite !reduce_add_Fin.
  - cbn [bind]. rewrite !ndiv_of_nat by lia. reflexivity.
  - intro E0. apply (f_equal (@length Q)) in E0.
    rewrite length_map, L2 in E0. discriminate.
  - intro E0. apply (f_equal (@length Q)) in E0.
    rewrite length_map, L1 in E0. discriminate.
Qed.



(** ** Moving averages *)

Lemma Qsum_between (lo hi : Q) (l : list Q) :
  all_between lo hi l ->
  (lo * inject_Z (Z.of_nat (length l)) <= Qsum l
   <= hi * inject_Z (Z.of_nat (length l)))%Q.
Proof.
  induction l as [|x l IH]; intro H.
  - cbn [Qsum fold_right length Z.of_nat]. change (inject_Z 0) with 0%Q. lra.
  - cbn [Qsum fold_right length]. fold (Qsum l).
    rewrite Nat2Z.inj_succ. unfold Z.succ. rewrite inject_Z_plus.
    change (inject_Z 1) with 1%Q.
    assert (Hx : (lo <= x <= hi)%Q) by (apply H; left; reflexivity).
    assert (Hl : all_between lo hi l)
      by (intros y Hy; apply H; right; exact Hy).
    specialize (IH Hl). lra.
Qed.

Lemma Qmean_between (lo hi : Q) (l : list Q) :
  l <> [] -> all_between lo hi l ->
  (lo <= Qreduce l / inject_Z (Z.of_nat (length l)) <= hi)%Q.
Proof.
  intros Hne H. pose proof (Qsum_between H) as Hs.
  assert (Hn : (0 < inject_Z (Z.of_nat (length l)))%Q).
  { apply of_nat_pos. destruct l; [congruence | simpl; lia]. }
  rewrite Qreduce_sum. split.
  - apply Qle_shift_div_l; lra.
  - apply Qle_shift_div_r; lra.
Qed.



(** *** EMA over a full window *)

Section EMA.

Variable l : list Q.
Variable period : nat.
Hypothesis period_pos : 1 <= period.
Hypothesis long_enough : period <= length l.

Let prices := map Fin l.
Let m : Q := (2 / (inject_Z (Z.of_nat period) + 1))%Q.

Lemma ema_multiplier :
  ndiv (Fin 2) (nadd (of_nat period) (Fin 1)) = Fin m /\ (0 < m <= 1)%Q.
Proof.
  pose proof (@of_nat_pos period period_pos) as Hp.
  assert (H1 : (1 <= inject_Z (Z.of_nat period))%Q).
  { change 1%Q with (inject_Z 1). rewrite <- Zle_Qle. lia. }
  unfold of_nat. cbn [nadd]. unfold ndiv.
  destruct (Qeq_bool (inject_Z (Z.of_nat period) + 1) 0) eqn:E;
    [apply Qeq_bool_iff in E; lra|].
  split; [reflexivity|]. unfold m. split.
  - apply Qlt_shift_div_l; lra.
  - apply Qle_shift_div_r; lra.
Qed.

Lemma window_element (i : nat) :
  length l - period <= i < length l ->
  In (nth i l 0%Q) (slice_last l period).
Proof.
  intro Hi. unfold slice_last. destruct period as [|p] eqn:Ep; [lia|].
  replace i with ((length l - S p) + (i - (length l - S p))) by lia.
  rewrite <- nth_skipn. apply nth_In. rewrite length_skipn. lia.
Qed.

Lemma get_prices (i : nat) :
  i < length l -> get prices i = Fin (nth i l 0%Q).
Proof.
  intro Hi. unfold get, prices.
  rewrite (nth_indep _ Undefined (Fin 0)) by (rewrite length_map; exact Hi).
  apply (map_nth Fin).
Qed.

Lemma ema_loop_between (lo hi : Q) (idxs : list nat) (e : Q) :
  all_between lo hi (slice_last l period) ->
  (forall i, In i idxs -> length l - period <= i < length l) ->
  (lo <= e <= hi)%Q ->
  exists e', fold_left (ema_step prices (Fin m)) idxs (Fin e) = Fin e'
             /\ (lo <= e' <= hi)%Q.
Proof.
  intros Hw. revert e. induction idxs as [|i idxs IH]; intros e Hin He.
  - exists e. split; [reflexivity | exact He].
  - assert (Hi : length l - period <= i < length l)
      by (apply Hin; left; reflexivity).
    cbn [fold_left]. unfold ema_step at 2.
    rewrite get_prices by lia. cbn [nsub nneg nadd nmul].
    apply IH; [intros j Hj; apply Hin; right; exact Hj|].
    pose proof (Hw _ (window_element Hi)) as Hx.
    set (x := nth i l 0%Q) in *.
    destruct ema_multiplier as [_ [Hm0 Hm1]].
    assert (P1 : (0 <= m * (x - lo))%Q) by (apply Qmult_le_0_compat; lra).
    assert (P2 : (0 <= (1 - m) * (e - lo))%Q)
      by (apply Qmult_le_0_compat; lra).
    assert (P3 : (0 <= m * (hi - x))%Q) by (apply Qmult_le_0_compat; lra).
    assert (P4 : (0 <= (1 - m) * (hi - e))%Q)
      by (apply Qmult_le_0_compat; lra).
    split; lra.
Qed.

Lemma ema_between (lo hi : Q) :
  all_between lo hi (slice_last l period) ->
  exists e, calculateEMA prices period = Ok (Fin e) /\ (lo <= e <= hi)%Q.
Proof.
  intro Hw. unfold calculateEMA, prices. rewrite length_map.
  destruct (length l <? period) eqn:E; [apply Nat.ltb_lt in E; lia|].
  destruct ema_multiplier as [Em _]. rewrite Em.
  assert (Hne : l <> []).
  { intro E0. rewrite E0 in long_enough. simpl in long_enough. lia. }
  rewrite slice_last_map, reduce_add_Fin
    by (apply slice_last_nonempty; exact Hne).
  cbn [bind]. rewrite ndiv_of_nat by lia.
  destruct (@ema_loop_between lo hi (range (length l - period) (length l))
              (Qreduce (slice_last l period) / inject_Z (Z.of_nat period)))
    as (e & Ee & He).
  - exact Hw.
  - intros i Hi. apply in_range in Hi. lia.
  - replace period with (length (slice_last l period)) at 2 4
      by (rewrite slice_last_length by lia; lia).
    apply Qmean_between; [|exact Hw].
    apply slice_last_nonempty. exact Hne.
  - exists e. fold prices. rewrite Ee. split; [reflexivity | exact He].
Qed.

End EMA.



(** ** MACD on a full history *)

Lemma In_firstn {A : Type} (x : A) (n : nat) (l : list A) :
  In x (firstn n l) -> In x l.
Proof.
  intro H. rewrite <- (firstn_skipn n l). apply in_or_app. left. exact H.
Qed.

Lemma In_skipn {A : Type} (x : A) (n : nat) (l : list A) :
  In x (skipn n l) -> In x l.
Proof.
  intro H. rewrite <- (firstn_skipn n l). apply in_or_app. right. exact H.
Qed.

Lemma In_slice_last {A : Type} (x : A) (n : nat) (l : list A) :
  In x (slice_last l n) -> In x l.
Proof.
  unfold slice_last. destruct n; [tauto|]. apply In_skipn.
Qed.

Lemma list_bounded (l : list Q) : exists lo hi, all_between lo hi l.
Proof.
  induction l as [|x l (lo & hi & H)].
  - exists 0%Q, 0%Q. intros x [].
  - exists (Qmin x lo), (Qmax x hi). intros y [<-|Hy].
    + split; [apply Q.le_min_l | apply Q.le_max_l].
    + destruct (H y Hy) as [H1 H2]. split.
      * apply Qle_trans with lo; [apply Q.le_min_r | exact H1].
      * apply Qle_trans with hi; [exact H2 | apply Q.le_max_r].
Qed.

(** EMA of a non-empty series of reals is a real within the bounds of the
    series, on the short path as on the long one. *)
Lemma ema_Fin_between (l : list Q) (period : nat) (lo hi : Q) :
  l <> [] -> 1 <= period -> all_between lo hi l ->
  exists e, calculateEMA (map Fin l) period = Ok (Fin e)
            /\ (lo <= e <= hi)%Q.
Proof.
  intros Hne Hp Hw.
  destruct (Nat.lt_ge_cases (length l) period) as [Hs|Hl].
  - unfold calculateEMA. rewrite length_map.
    apply Nat.ltb_lt in Hs. rewrite Hs. apply Nat.ltb_lt in Hs.
    assert (Hlen : length l - 1 < length l).
    { destruct l; [congruence | simpl; lia]. }
    rewrite get_prices by exact Hlen.
    eexists. split; [reflexivity|]. apply Hw, nth_In, Hlen.
  - apply ema_between; try assumption.
    intros x Hx. apply Hw. apply In_slice_last in Hx. exact Hx.
Qed.

Section MACDLoop.

Variable l : list Q.
Variables lo hi : Q.
Hypothesis closes_between : all_between lo hi l.
Hypothesis closes_nonempty : l <> [].

Lemma macd_step_Fin (acc : list Q) (i : nat) :
  1 <= i ->
  all_between (lo - hi) (hi - lo) acc ->
  exists x, macd_step (map Fin l) (map Fin acc) i = Ok (map Fin (acc ++ [x]))
            /\ all_between (lo - hi) (hi - lo) (acc ++ [x]).
Proof.
  intros Hi Hacc. unfold macd_step. rewrite slice_map.
  assert (Hl : slice l 0 i <> []).
  { intro E. apply (f_equal (@length Q)) in E. unfold slice in E.
    rewrite length_firstn in E. simpl in E.
    destruct l; [congruence | simpl in E; lia]. }
  assert (Hb : all_between lo hi (slice l 0 i)).
  { intros y Hy. apply closes_between. unfold slice in Hy.
    apply In_firstn in Hy. exact Hy. }
  destruct (@ema_Fin_between (slice l 0 i) 12 lo hi Hl)
    as (a & Ea & Ha); [lia | exact Hb |].
  destruct (@ema_Fin_between (slice l 0 i) 26 lo hi Hl)
    as (b & Eb & Hb'); [lia | exact Hb |].
  rewrite Ea, Eb. cbn [bind nsub nneg nadd].
  exists (a + - b)%Q. split.
  - rewrite map_app. reflexivity.
  - intros y Hy. apply in_app_or in Hy. destruct Hy as [Hy|[<-|[]]].
    + apply Hacc. exact Hy.
    + lra.
Qed.

Lemma macd_loop_Fin (idxs : list nat) (acc : list Q) :
  (forall i, In i idxs -> 1 <= i) ->
  all_between (lo - hi) (hi - lo) acc ->
  exists acc', for_each (macd_step (map Fin l)) idxs (map Fin acc)
               = Ok (map Fin acc')
               /\ all_between (lo - hi) (hi - lo) acc'
               /\ length acc' = length acc + length idxs.
Proof.
  revert acc. induction idxs as [|i idxs IH]; intros acc Hin Hacc.
  - exists acc. split; [reflexivity|]. split; [exact Hacc | simpl; lia].
  - destruct (@macd_step_Fin acc i) as (x & Ex & Hx);
      [apply Hin; left; reflexivity | exact Hacc |].
    destruct (IH (acc ++ [x])) as (acc' & E' & H' & L');
      [intros j Hj; apply Hin; right; exact Hj | exact Hx |].
    exists acc'. cbn [for_each]. rewrite Ex. cbn [bind].
    split; [exact E'|]. split; [exact H'|].
    rewrite L', length_app. simpl. lia.
Qed.

Lemma macd_bounded :
  26 <= length l ->
  exists v s,
    (ema12 <- calculateEMA (map Fin l) 12 ;;
     ema26 <- calculateEMA (map Fin l) 26 ;;
     let macdValue := nsub ema12 ema26 in
     macdValues <- for_each (macd_step (map Fin l))
                            (range 26 (length (map Fin l) + 1)) [] ;;
     signal <- calculateEMA macdValues 9 ;;
     let histogram := nsub macdValue signal in
     Ok (MACD.mk macdValue signal histogram))
    = Ok (MACD.mk (Fin v) (Fin s) (Fin (v + - s)))
    /\ (lo - hi <= v <= hi - lo)%Q
    /\ (lo - hi <= s <= hi - lo)%Q
    /\ (length l <= 33 -> s = v).
Proof.
  intro Hlen.
  destruct (@ema_Fin_between l 12 lo hi closes_nonempty)
    as (a & Ea & Ha); [lia | exact closes_between |].
  destruct (@ema_Fin_between l 26 lo hi closes_nonempty)
    as (b & Eb & Hb); [lia | exact closes_between |].
  rewrite Ea, Eb. cbn [bind nsub nneg nadd]. cbv zeta. rewrite length_map.
  replace (length l + 1) with (S (length l)) by lia.
  rewrite range_snoc by lia. rewrite for_each_app.
  change (@nil num) with (map Fin []).
  destruct (@macd_loop_Fin (range 26 (length l)) [])
    as (ms & Ems & Hms & Lms).
  { intros i Hi. apply in_range in Hi. lia. }
  { intros y []. }
  rewrite Ems. cbn [bind for_each].
  (* the last prefix is the whole series *)
  unfold macd_step. 
  assert (Hall : slice (map Fin l) 0 (length l) = map Fin l).
  { unfold slice. rewrite Nat.sub_0_r. cbn [skipn].
    rewrite <- (length_map Fin l). apply firstn_all. }
  rewrite Hall, Ea, Eb. cbn [bind nsub nneg nadd].
  set (v := (a + - b)%Q).
  change [Fin v] with (map Fin [v]). rewrite <- map_app.
  assert (Hv : (lo - hi <= v <= hi - lo)%Q) by (unfold v; lra).
  assert (Hmsv : all_between (lo - hi) (hi - lo) (ms ++ [v])).
  { intros y Hy. apply in_app_or in Hy. destruct Hy as [Hy|[<-|[]]].
    - apply Hms. exact Hy.
    - exact Hv. }
  rewrite range_length in Lms. simpl in Lms.
  destruct (Nat.lt_ge_cases (length (ms ++ [v])) 9) as [Hshort|Hlong].
  - exists v, v. unfold calculateEMA. rewrite length_map.
    apply Nat.ltb_lt in Hshort. rewrite Hshort. apply Nat.ltb_lt in Hshort.
    rewrite <- (length_map Fin (ms ++ [v])), get_last.
    rewrite map_app. cbn [map]. rewrite last_last. cbn [bind nsub nneg nadd].
    split; [reflexivity|]. repeat split; try apply Hv.
  - assert (Hne : ms ++ [v] <> []) by (destruct ms; discriminate).
    destruct (@ema_Fin_between (ms ++ [v]) 9 (lo - hi) (hi - lo) Hne)
      as (s & Es & Hs); [lia | exact Hmsv |].
    exists v, s. rewrite Es. cbn [bind nsub nneg nadd].
    split; [reflexivity|]. split; [exact Hv|]. split; [exact Hs|].
    intro H33. rewrite length_app in Hlong. simpl in Hlong. lia.
Qed.

End MACDLoop.



(** ** The aggregate report *)

Lemma reduce_add_returns (l : list num) :
  l <> [] -> exists s, reduce_add l = Ok s.
Proof.
  destruct l as [|x t]; [congruence|]. intros _. eexists. reflexivity.
Qed.

Lemma adx_returns (candles : list Candle) :
  exists v p m, calculateADX candles 14 = Ok (ADX.mk (Fin v) (Fin p) (Fin m)).
Proof.
  unfold calculateADX. destruct (length candles <? 14 + 1) eqn:Hlen.
  - do 3 eexists. reflexivity.
  - apply Nat.ltb_ge in Hlen.
    rewrite adx_history_Fin. cbn [bind trValues plusDM minusDM].
    rewrite !trailing_mean by lia. cbn [bind].
    rewrite !directional_index_Fin. rewrite !length_map.
    assert (Hidx : forall i,
               In i (range 14 (Nat.min (length (range 1 (length candles)))
                                       (14 * 2))) ->
               14 <= i <= length (range 1 (length candles))).
    { intros i Hi. apply in_range in Hi. lia. }
    destruct (@dx_loop_Fin (range 1 (length candles))
                (tr_at candles) (plus_dm_at candles) (minus_dm_at candles) 14
                (Nat.lt_0_succ 13)
                (tr_at_nonneg candles) (plus_dm_at_nonneg candles)
                (minus_dm_at_nonneg candles)
                _ [] Hidx (Forall_nil percent))
      as (dxs & Edx & _).
    cbn [map] in Edx. rewrite Edx. cbn [bind]. rewrite length_map.
    destruct (0 <? length dxs) eqn:E0.
    + apply Nat.ltb_lt in E0.
      rewrite reduce_add_Fin by (destruct dxs; [simpl in E0; lia|discriminate]).
      cbn [bind]. rewrite ndiv_of_nat by exact E0.
      do 3 eexists. reflexivity.
    + set (a := di_of _ _). set (b := di_of _ _).
      unfold nne, dx_of. cbn [nadd neq nsub nneg nabs].
      destruct (Qeq_bool (a + b) 0) eqn:Eab; cbn [negb bind].
      * do 3 eexists. reflexivity.
      * unfold ndiv. rewrite Eab. do 3 eexists. reflexivity.
Qed.

Lemma atr_returns (candles : list Candle) :
  exists a, calculateATR candles 14 = Ok (Fin a).
Proof.
  destruct (Nat.lt_ge_cases (length candles) (14 + 1)) as [H|H].
  - unfold calculateATR. apply Nat.ltb_lt in H. rewrite H. eexists.
    reflexivity.
  - eexists. apply atr_value; lia.
Qed.

Lemma stochastic_returns (candles : list Candle) :
  exists r, calculateStochastic candles 14 3 = Ok r.
Proof.
  unfold calculateStochastic. destruct (length candles <? 14) eqn:E.
  - eexists. reflexivity.
  - apply Nat.ltb_ge in E. rewrite candle_at_nth by lia. cbn [bind].
    rewrite stochastic_loop_spec
      by (try lia; intros i Hi; apply in_range in Hi; lia).
    cbn [bind app].
    set (kv := flat_map _ _).
    destruct (3 <=? length kv) eqn:E3.
    + apply Nat.leb_le in E3.
      destruct (@reduce_add_returns (slice_last kv 3)) as (s & Es).
      { intro E0. apply (f_equal (@length num)) in E0.
        rewrite slice_last_length in E0 by lia.
        cbn [length] in E0. lia. }
      rewrite Es. cbn [bind]. eexists. reflexivity.
    + cbn [bind]. eexists. reflexivity.
Qed.

Lemma volume_indicator_returns (candles : list Candle) :
  exists r, calculateVolumeIndicator candles = Ok r.
Proof.
  destruct (Nat.lt_ge_cases (length candles) 10) as [H|H].
  - unfold calculateVolumeIndicator. apply Nat.ltb_lt in H. rewrite H.
    eexists. reflexivity.
  - rewrite (@volume_indicator_value candles H). eexists. reflexivity.
Qed.

Lemma momentum_returns (candles : list Candle) (p : nat) :
  exists r, calculateMomentum candles p = Ok r.
Proof.
  destruct (Nat.lt_ge_cases (length candles) (p + 1)) as [H|H].
  - unfold calculateMomentum. apply Nat.ltb_lt in H. rewrite H.
    eexists. reflexivity.
  - rewrite momentum_formula by exact H. eexists. reflexivity.
Qed.

Lemma roc_returns (candles : list Candle) (p : nat) :
  exists r, calculateROC candles p = Ok r.
Proof.
  destruct (momentum_returns candles p) as (r & E). exists r.
  rewrite <- E. unfold calculateROC, calculateMomentum.
  destruct (length candles <? p + 1); reflexivity.
Qed.

Lemma support_resistance_returns (candles : list Candle) (price : num) :
  exists r, findSupportResistance candles price = Ok r.
Proof.
  unfold findSupportResistance. destruct (length candles <? 20).
  - eexists. reflexivity.
  - destruct (pivot_points_Fin candles) as (pv & E). rewrite E.
    cbn [bind]. eexists. reflexivity.
Qed.

Lemma trend_strength_returns (candles : list Candle) (adxValue : Q) :
  exists r, calculateTrendStrength candles (Fin adxValue) = Ok r.
Proof.
  destruct (Nat.lt_ge_cases (length candles) 20) as [H|H].
  - unfold calculateTrendStrength. apply Nat.ltb_lt in H. rewrite H.
    eexists. reflexivity.
  - rewrite trend_strength_value by exact H. eexists. reflexivity.
Qed.

Lemma macd_returns (candles : list Candle) :
  candles <> [] -> exists r, calculateMACD candles = Ok r.
Proof.
  intro Hne. destruct (Nat.lt_ge_cases (length candles) 26) as [H|H].
  - destruct (macd_short_history Hne H) as (v & E). eexists. exact E.
  - assert (Hl : length (close_prices candles) = length candles)
      by (unfold close_prices; apply length_map).
    assert (Hc : close_prices candles <> []).
    { intro E. rewrite E in Hl. simpl in Hl. lia. }
    destruct (list_bounded (close_prices candles)) as (lo & hi & Hb).
    destruct (@macd_bounded (close_prices candles) lo hi Hb Hc)
      as (v & s & E & _); [lia|].
    unfold calculateMACD. cbv zeta. rewrite closes_as_map.
    eexists. exact E.
Qed.

Section Report.

Variable Math_sqrt : Q -> Q.

Lemma bollinger_returns (candles : list Candle) :
  candles <> [] ->
  exists b, calculateBollingerBands Math_sqrt candles 20 = Ok b.
Proof.
  intro Hne. unfold calculateBollingerBands. rewrite closes_as_map.
  assert (Hl : close_prices candles <> []).
  { unfold close_prices. destruct candles; [congruence | discriminate]. }
  rewrite sma_Fin by (assumption || lia). cbn [bind].
  destruct (@reduce_add_returns
              (map (fun price =>
                      pow2 (nsub price
                              (Fin (Qreduce (slice_last (close_prices candles)
                                                        20)
                                    / inject_Z
                                        (Z.of_nat
                                           (length
                                              (slice_last
                                                 (close_prices candles)
                                                 20)))))))
                   (slice_last (map Fin (close_prices candles)) 20)))
    as (s & Es).
  { intro E. apply map_eq_nil in E. rewrite slice_last_map in E.
    apply map_eq_nil in E. revert E. apply slice_last_nonempty. exact Hl. }
  rewrite Es. cbn [bind]. eexists. reflexivity.
Qed.

(** X6. [analyzeMarket] throws on the empty candle sequence and on no other: on
    every non-empty sequence it returns a report, whose ADX, ATR and RSI are
    those of the calculators with period 14, whose regime is
    [determineMarketRegime] of that ADX value, that ATR and the last close,
    and whose trend strength is computed from that ADX value. *)
Theorem analyzeMarket_throws_only_on_empty (candles : list Candle) :
  (candles = [] -> analyzeMarket Math_sqrt candles = TypeError)
  /\ (candles <> [] ->
      exists r,
        analyzeMarket Math_sqrt candles = Ok r
        /\ calculateADX candles 14 = Ok (TechnicalIndicators.adx r)
        /\ calculateATR candles 14 = Ok (TechnicalIndicators.atr r)
        /\ TechnicalIndicators.rsi r = calculateRSI candles 14
        /\ TechnicalIndicators.marketRegime r =
           determineMarketRegime
             (ADX.value (TechnicalIndicators.adx r))
             (TechnicalIndicators.atr r)
             (Fin (close (candle_nth candles (length candles - 1))))
        /\ calculateTrendStrength candles
             (ADX.value (TechnicalIndicators.adx r))
           = Ok (TechnicalIndicators.trendStrength r)).
Proof.
  split.
  - intros ->. reflexivity.
  - intro Hne.
    assert (Hlen : 0 < length candles)
      by (destruct candles; [congruence | simpl; lia]).
    assert (Hl : close_prices candles <> []).
    { unfold close_prices. destruct candles; [congruence | discriminate]. }
    unfold analyzeMarket. cbv zeta.
    destruct (adx_returns candles) as (v & p & m & Eadx).
    destruct (atr_returns candles) as (a & Eatr).
    destruct (bollinger_returns Hne) as (b & Eb).
    destruct (trend_strength_returns candles v) as (ts & Ets).
    destruct (macd_returns Hne) as (macd & Emacd).
    destruct (volume_indicator_returns candles) as (vi & Evi).
    destruct (stochastic_returns candles) as (st & Est).
    destruct (momentum_returns candles 10) as (mo & Emo).
    destruct (roc_returns candles 12) as (ro & Ero).
    destruct (ema_closes_returns 12 Hne) as (e12 & E12).
    destruct (ema_closes_returns 26 Hne) as (e26 & E26).
    destruct (ema_closes_returns 50 Hne) as (e50 & E50).
    destruct (support_resistance_returns candles
                (get (closes candles) (length (closes candles) - 1)))
      as (sr & Esr).
    rewrite Eadx, Eatr, Eb. cbn [bind ADX.value]. rewrite Ets, Emacd.
    cbn [bind].
    rewrite closes_as_map, !sma_Fin by (assumption || lia). cbn [bind].
    rewrite <- closes_as_map, E12, E26, E50, Evi, Est, obv_value, Emo, Ero,
      Esr.
    cbn [bind]. eexists. split; [reflexivity|].
    cbn [TechnicalIndicators.adx TechnicalIndicators.atr
         TechnicalIndicators.rsi TechnicalIndicators.marketRegime
         TechnicalIndicators.trendStrength ADX.value].
    split; [reflexivity|]. split; [reflexivity|]. split; [reflexivity|].
    split; [|exact Ets].
    unfold closes. rewrite length_map.
    rewrite (get_map_Fin close candles (mkCandle 0 0 0 0 0 0)) by lia.
    reflexivity.
Qed.

End Report.

Lemma analyzeMarket_throws_only_on_empty_witness :
  analyzeMarket Qsqrt [] = TypeError
  /\ exists r, analyzeMarket Qsqrt (firstn 5 rsi_rising) = Ok r
               /\ TechnicalIndicators.marketRegime r = RANGING.
Proof.
  split.
  - apply (proj1 (analyzeMarket_throws_only_on_empty Qsqrt [])). reflexivity.
  - destruct (proj2 (analyzeMarket_throws_only_on_empty Qsqrt
                       (firstn 5 rsi_rising)))
      as (r & E & Eadx & Eatr & _ & Ereg & _).
    + discriminate.
    + exists r. split; [exact E|]. rewrite Ereg.
      assert (Ha : calculateADX (firstn 5 rsi_rising) 14
                   = Ok (ADX.mk (Fin 0) (Fin 0) (Fin 0))) by reflexivity.
      rewrite Ha in Eadx. injection Eadx as <-.
      assert (Hb : calculateATR (firstn 5 rsi_rising) 14 = Ok (Fin 0))
        by reflexivity.
      rewrite Hb in Eatr. injection Eatr as <-.
      reflexivity.
Defined.

(** ** Market regime *)



(** ** Stochastic within its range *)

Lemma fold_Qmax_ge (l : list Q) (a x : Q) :
  x = a \/ In x l -> (x <= fold_left Qmax l a)%Q.
Proof.
  revert a x. induction l as [|y l IH]; intros a x H; simpl.
  - destruct H as [->|[]]. apply Qle_refl.
  - destruct H as [->|[->|H]].
    + apply Qle_trans with (Qmax a y); [apply Q.le_max_l|].
      apply IH. left. reflexivity.
    + apply Qle_trans with (Qmax a x); [apply Q.le_max_r|].
      apply IH. left. reflexivity.
    + apply IH. right. exact H.
Qed.

Lemma fold_Qmin_le (l : list Q) (a x : Q) :
  x = a \/ In x l -> (fold_left Qmin l a <= x)%Q.
Proof.
  revert a x. induction l as [|y l IH]; intros a x H; simpl.
  - destruct H as [->|[]]. apply Qle_refl.
  - destruct H as [->|[->|H]].
    + apply Qle_trans with (Qmin a y); [|apply Q.le_min_l].
      apply IH. left. reflexivity.
    + apply Qle_trans with (Qmin a x); [|apply Q.le_min_r].
      apply IH. left. reflexivity.
    + apply IH. right. exact H.
Qed.

Lemma highest_high_ge (w : list Candle) (c : Candle) :
  In c w -> (high c <= highest_high w)%Q.
Proof.
  intro H. unfold highest_high, Qmaxl. destruct w as [|c0 w]; [destruct H|].
  cbn [map]. apply fold_Qmax_ge. destruct H as [->|H].
  - left. reflexivity.
  - right. apply in_map. exact H.
Qed.

Lemma lowest_low_le (w : list Candle) (c : Candle) :
  In c w -> (lowest_low w <= low c)%Q.
Proof.
  intro H. unfold lowest_low, Qminl. destruct w as [|c0 w]; [destruct H|].
  cbn [map]. apply fold_Qmin_le. destruct H as [->|H].
  - left. reflexivity.
  - right. apply in_map. exact H.
Qed.

(** The ratio of %K for a close inside a window of positive range. *)
Lemma percent_k_percent (c lo hi : Q) :
  (lo <= c <= hi)%Q -> ~ (hi == lo)%Q ->
  exists x, percent_k (Fin c) (Fin lo) (Fin hi) = Fin x /\ percent x.
Proof.
  intros Hc Hne. unfold percent_k. cbn [nsub nneg nadd]. unfold ndiv.
  destruct (Qeq_bool (hi + - lo) 0) eqn:E; [apply Qeq_bool_iff in E; lra|].
  cbn [nmul]. eexists. split; [reflexivity|].
  assert (Hd : (0 < hi + - lo)%Q) by lra.
  assert (H0 : (0 <= (c + - lo) / (hi + - lo))%Q)
    by (apply Qle_shift_div_l; lra).
  assert (H1 : ((c + - lo) / (hi + - lo) <= 1)%Q)
    by (apply Qle_shift_div_r; lra).
  unfold percent. lra.
Qed.

Section WellFormed.

Variable candles : list Candle.
Hypothesis candles_well_formed : Forall well_formed candles.

Lemma last_in_window (i : nat) :
  i < length candles ->
  In (candle_nth candles i) (window_at candles 14 i).
Proof.
  intro Hi. unfold window_at, slice, candle_nth.
  set (a := i + 1 - 14).
  replace (nth i candles (mkCandle 0 0 0 0 0 0))
    with (nth (i - a) (firstn (i + 1 - a) (skipn a candles))
              (mkCandle 0 0 0 0 0 0)).
  - apply nth_In. rewrite length_firstn, length_skipn. unfold a. lia.
  - rewrite nth_firstn.
    assert (Hlt : (i - a <? i + 1 - a) = true)
      by (apply Nat.ltb_lt; unfold a; lia).
    rewrite Hlt, nth_skipn. f_equal. unfold a. lia.
Qed.

Lemma close_in_window (w : list Candle) (i : nat) :
  In (candle_nth candles i) w ->
  (lowest_low w <= close (candle_nth candles i) <= highest_high w)%Q.
Proof.
  intro Hin.
  pose proof (candle_nth_well_formed candles_well_formed i) as [Hl Hh].
  pose proof (highest_high_ge _ _ Hin). pose proof (lowest_low_le _ _ Hin).
  lra.
Qed.

Lemma percent_k_at_percent (i : nat) (y : num) :
  percent_k_at candles 14 i = Some y ->
  exists x, y = Fin x /\ percent x.
Proof.
  unfold percent_k_at. cbv zeta.
  destruct (length (window_at candles 14 i) <? 14) eqn:El; [discriminate|].
  apply Nat.ltb_ge in El.
  assert (Hi : i < length candles).
  { unfold window_at, slice in El.
    rewrite length_firstn, length_skipn in El. lia. }
  destruct (Qeq_bool _ _) eqn:E; [discriminate|].
  apply Qeq_bool_false in E. intro H. injection H as <-.
  apply percent_k_percent; [|exact E].
  apply close_in_window, last_in_window, Hi.
Qed.

Lemma k_values_percent (idxs : list nat) :
  exists xs,
    flat_map (fun i => opt_list (percent_k_at candles 14 i)) idxs
    = map Fin xs
    /\ Forall percent xs.
Proof.
  induction idxs as [|i idxs (xs & E & H)].
  - exists []. split; [reflexivity | constructor].
  - cbn [flat_map]. rewrite E.
    destruct (percent_k_at candles 14 i) as [y|] eqn:Ey.
    + destruct (percent_k_at_percent _ Ey) as (x & -> & Hx).
      exists (x :: xs). split; [reflexivity | constructor; assumption].
    + exists xs. split; [reflexivity | exact H].
Qed.


End WellFormed.


(** ** RSI of the mirrored prices *)

Lemma candle_nth_mirror (K : Q) (candles : list Candle) (j : nat) :
  j < length candles ->
  candle_nth (map (mirror K) candles) j = mirror K (candle_nth candles j).
Proof.
  intro Hj. unfold candle_nth.
  rewrite (nth_indep _ _ (mirror K (mkCandle 0 0 0 0 0 0)))
    by (rewrite length_map; exact Hj).
  apply map_nth.
Qed.

Section Mirror.

Variable candles : list Candle.
Variable K : Q.
Let mirrored := map (mirror K) candles.

Lemma get_close (cs : list Candle) (i : nat) :
  i < length cs -> get (closes cs) i = Fin (close (candle_nth cs i)).
Proof.
  intro H. unfold closes, candle_nth. apply get_map_Fin. exact H.
Qed.

(** One turn of the loop on the prices and on the mirrored prices: gains
    and losses change places. *)
Lemma rsi_step_mirror (g l g2 l2 : Q) (i : nat) :
  1 <= i < length candles ->
  (g2 == l)%Q -> (l2 == g)%Q -> (0 <= g)%Q -> (0 <= l)%Q ->
  exists g' l' g2' l2',
    rsi_step (closes candles) (Fin g, Fin l) i = (Fin g', Fin l')
    /\ rsi_step (closes mirrored) (Fin g2, Fin l2) i = (Fin g2', Fin l2')
    /\ (g2' == l')%Q /\ (l2' == g')%Q /\ (0 <= g')%Q /\ (0 <= l')%Q
    /\ (g' + l' == g + l + Qabs (close_change candles i))%Q.
Proof.
  intros Hi H1 H2 Hg Hl. unfold rsi_step, mirrored.
  rewrite !get_close by (rewrite ?length_map; lia).
  rewrite !candle_nth_mirror by lia.
  cbn [mirror close nsub nneg nadd ngt nlt fst snd nabs].
  unfold close_change.
  set (a := close (candle_nth candles i)).
  set (b := close (candle_nth candles (i - 1))).
  assert (Hm : (K - a + - (K - b) == - (a + - b))%Q) by ring.
  pose proof (Qabs_nonneg (a + - b)) as Hab.
  assert (Habs : (Qabs (K - a + - (K - b)) == Qabs (a + - b))%Q)
    by (rewrite Hm; apply Qabs_opp).
  destruct (Qltb 0 (a + - b)) eqn:E1;
    destruct (Qltb 0 (K - a + - (K - b))) eqn:E2; Qltb_props.
  - lra.
  - do 4 eexists. split; [reflexivity|]. split; [reflexivity|].
    rewrite Habs. rewrite (Qabs_pos (a + - b)) by lra.
    repeat split; lra.
  - do 4 eexists. split; [reflexivity|]. split; [reflexivity|].
    rewrite (Qabs_neg (a + - b)) by lra.
    repeat split; lra.
  - assert (Hz : (a + - b == 0)%Q) by lra.
    do 4 eexists. split; [reflexivity|]. split; [reflexivity|].
    rewrite Habs, Hz. change (Qabs 0) with 0%Q.
    repeat split; lra.
Qed.

Lemma rsi_loop_mirror (idxs : list nat) (g l g2 l2 : Q) :
  (forall i, In i idxs -> 1 <= i < length candles) ->
  (g2 == l)%Q -> (l2 == g)%Q -> (0 <= g)%Q -> (0 <= l)%Q ->
  exists g' l' g2' l2',
    fold_left (rsi_step (closes candles)) idxs (Fin g, Fin l)
    = (Fin g', Fin l')
    /\ fold_left (rsi_step (closes mirrored)) idxs (Fin g2, Fin l2)
       = (Fin g2', Fin l2')
    /\ (g2' == l')%Q /\ (l2' == g')%Q /\ (0 <= g')%Q /\ (0 <= l')%Q
    /\ (g' + l' == g + l
                   + Qsum (map (fun i => Qabs (close_change candles i))
                               idxs))%Q.
Proof.
  revert g l g2 l2.
  induction idxs as [|i idxs IH]; intros g l g2 l2 Hin H1 H2 Hg Hl.
  - exists g, l, g2, l2. simpl. repeat split; auto; lra.
  - destruct (@rsi_step_mirror g l g2 l2 i)
      as (ga & la & gb & lb & Ea & Eb & R1 & R2 & Hga & Hla & Hs); auto.
    { apply Hin. left. reflexivity. }
    destruct (IH ga la gb lb)
      as (g' & l' & g2' & l2' & E' & E2' & R1' & R2' & Hg' & Hl' & Hs');
      auto.
    { intros j Hj. apply Hin. right. exact Hj. }
    exists g', l', g2', l2'. cbn [fold_left map Qsum fold_right].
    rewrite Ea, Eb. split; [exact E'|]. split; [exact E2'|].
    repeat split; auto. rewrite Hs'.
    fold (Qsum (map (fun i0 => Qabs (close_change candles i0)) idxs)).
    lra.
Qed.

End Mirror.

Lemma rsi_of_sums (g l : Q) :
  (0 <= g)%Q -> (0 <= l)%Q ->
  let avgGain := ndiv (Fin g) (of_nat 14) in
  let avgLoss := ndiv (Fin l) (of_nat 14) in
  exists r,
    (if neq avgLoss (Fin 0) then Fin 100
     else nsub (Fin 100)
               (ndiv (Fin 100) (nadd (Fin 1) (ndiv avgGain avgLoss))))
    = Fin r
    /\ ((l == 0)%Q -> r = 100%Q)
    /\ (~ (l == 0)%Q -> (r == 100 * g / (g + l))%Q).
Proof.
  intros Hg Hl. cbv zeta. rewrite !ndiv_of_nat by lia.
  change (inject_Z (Z.of_nat 14)) with 14%Q. cbn [neq].
  destruct (Qeq_bool (l / 14) 0) eqn:E.
  - apply Qeq_bool_iff in E.
    assert (Hl0 : (l == 0)%Q).
    { setoid_replace l with (l / 14 * 14)%Q by (field; lra).
      rewrite E. lra. }
    exists 100%Q. split; [reflexivity|]. split; [reflexivity|].
    intro H. contradiction.
  - apply Qeq_bool_false in E.
    assert (Hl0 : ~ (l == 0)%Q).
    { intro H. apply E. rewrite H. reflexivity. }
    unfold ndiv at 2. rewrite (proj2 (Qeq_bool_false _ _) E).
    cbn [nadd]. unfold ndiv.
    assert (Hr : (0 <= g / 14 / (l / 14))%Q).
    { apply Qle_shift_div_l; [|].
      - assert ((0 <= l / 14)%Q) by (apply Qle_shift_div_l; lra). lra.
      - assert ((0 <= g / 14)%Q) by (apply Qle_shift_div_l; lra). lra. }
    destruct (Qeq_bool (1 + g / 14 / (l / 14)) 0) eqn:E1;
      [apply Qeq_bool_iff in E1; lra|].
    cbn [nsub nneg nadd]. eexists. split; [reflexivity|].
    split; [intro H; contradiction|]. intros _. field. lra.
Qed.



(** ** Support and resistance around a positive price *)

Lemma supports_sorted (pv : list Q) (price : Q) :
  sort_by (fun a b => nsub b a)
          (filter (fun p => nlt p (Fin price)) (map Fin pv))
  = map Fin (Qsort_by (fun y x => Qltb y x)
                      (filter (fun x => Qltb x price) pv)).
Proof.
  rewrite filter_Fin. cbn [nlt].
  apply sort_by_Fin. intros x y. cbn [nsub nneg nadd ngt nlt].
  destruct (Qltb 0 (x + - y)) eqn:E1, (Qltb y x) eqn:E2;
    try reflexivity; Qltb_props; lra.
Qed.

Lemma resistances_sorted (pv : list Q) (price : Q) :
  sort_by (fun a b => nsub a b)
          (filter (fun p => ngt p (Fin price)) (map Fin pv))
  = map Fin (Qsort_by (fun y x => Qltb x y)
                      (filter (fun x => Qltb price x) pv)).
Proof.
  rewrite filter_Fin. cbn [ngt nlt].
  apply sort_by_Fin. intros x y. cbn [nsub nneg nadd ngt nlt].
  destruct (Qltb 0 (y + - x)) eqn:E1, (Qltb x y) eqn:E2;
    try reflexivity; Qltb_props; lra.
Qed.

(** The head of the sorted candidates satisfies the filter; without
    candidates the fallback level is used. *)
Lemma nearest_level (test : Q -> Q -> bool) (keep : Q -> bool)
  (pv : list Q) (fallback : Q) :
  let sorted := map Fin (Qsort_by test (filter keep pv)) in
  exists s,
    (if 0 <? length sorted then get sorted 0 else Fin fallback) = Fin s
    /\ ((filter keep pv = [] /\ s = fallback)
        \/ (In s pv /\ keep s = true)).
Proof.
  cbv zeta. destruct (filter keep pv) as [|x t] eqn:E.
  - exists fallback. split; [reflexivity|]. left. split; reflexivity.
  - assert (Hin : forall z, In z (Qsort_by test (x :: t)) -> In z (x :: t)).
    { intros z Hz. unfold Qsort_by in Hz.
      assert (G : forall l acc,
                 In z (fold_left (fun a y => Qinsert_by test y a) l acc) ->
                 In z l \/ In z acc).
      { induction l as [|y l IH]; intros acc H; simpl in H; [tauto|].
        apply IH in H. destruct H as [H|H]; [left; right; exact H|].
        apply Qinsert_In in H. destruct H as [->|H]; [left; left|right];
          auto. }
      apply G in Hz. destruct Hz as [Hz|[]]. exact Hz. }
    assert (Hne : Qsort_by test (x :: t) <> []).
    { unfold Qsort_by. cbn [fold_left Qinsert_by].
      assert (G : forall l acc, acc <> [] ->
                 fold_left (fun a y => Qinsert_by test y a) l acc <> []).
      { induction l as [|y l IH]; intros acc H; simpl; [exact H|].
        apply IH. destruct acc as [|a acc]; [congruence|]. simpl.
        destruct (test a y); discriminate. }
      apply G. discriminate. }
    destruct (Qsort_by test (x :: t)) as [|s ts] eqn:Es; [congruence|].
    exists s. split; [reflexivity|]. right.
    assert (Hs : In s (x :: t)) by (apply Hin; left; reflexivity).
    rewrite <- E in Hs. apply filter_In in Hs. exact Hs.
Qed.

Lemma distance_positive (price d : Q) :
  (0 < price)%Q -> (0 < d)%Q ->
  exists x, nmul (ndiv (Fin d) (Fin price)) (Fin 100) = Fin x
            /\ (0 < x)%Q /\ (x == d / price * 100)%Q.
Proof.
  intros Hp Hd. unfold ndiv.
  destruct (Qeq_bool price 0) eqn:E; [apply Qeq_bool_iff in E; lra|].
  cbn [nmul]. eexists. split; [reflexivity|]. split; [|reflexivity].
  assert (H : (0 < d / price)%Q) by (apply Qlt_shift_div_l; lra). lra.
Qed.



(** ** OBV: what it depends on *)

Lemma obv_fold_bound (candles : list Candle) (idxs : list nat) (a : Q) :
  (Qabs (fold_left (obv_after candles) idxs a)
   <= Qabs a + Qsum (map (fun i => Qabs (volume (candle_nth candles i)))
                         idxs))%Q.
Proof.
  revert a. induction idxs as [|i idxs IH]; intro a.
  - simpl. lra.
  - cbn [fold_left map Qsum fold_right].
    fold (Qsum (map (fun i => Qabs (volume (candle_nth candles i))) idxs)).
    eapply Qle_trans; [apply IH|].
    assert (H : (Qabs (obv_after candles a i)
                 <= Qabs a + Qabs (volume (candle_nth candles i)))%Q).
    { unfold obv_after. cbv zeta.
      pose proof (Qabs_nonneg (volume (candle_nth candles i))) as Hv.
      destruct (Qltb _ _).
      - apply Qabs_triangle.
      - destruct (Qltb _ _).
        + eapply Qle_trans; [apply Qabs_triangle|]. rewrite Qabs_opp. lra.
        + lra. }
    lra.
Qed.

Lemma Qltb_compare (x y : Q) :
  Qltb x y = match (x ?= y)%Q with Lt => true | _ => false end
  /\ Qltb y x = match (x ?= y)%Q with Gt => true | _ => false end.
Proof.
  destruct (x ?= y)%Q eqn:E.
  - apply (proj2 (Qeq_alt x y)) in E. split; apply Qltb_false; lra.
  - apply (proj2 (Qlt_alt x y)) in E.
    split; [apply Qltb_true | apply Qltb_false]; lra.
  - apply (proj2 (Qgt_alt x y)) in E.
    split; [apply Qltb_false | apply Qltb_true]; lra.
Qed.

Lemma obv_fold_same_order (cs cs' : list Candle) (idxs : list nat) (a : Q) :
  (forall i, In i idxs ->
     volume (candle_nth cs i) = volume (candle_nth cs' i)
     /\ (close (candle_nth cs i) ?= close (candle_nth cs (i - 1)))%Q
        = (close (candle_nth cs' i) ?= close (candle_nth cs' (i - 1)))%Q) ->
  fold_left (obv_after cs) idxs a = fold_left (obv_after cs') idxs a.
Proof.
  revert a. induction idxs as [|i idxs IH]; intros a H; [reflexivity|].
  cbn [fold_left].
  assert (Hi : obv_after cs a i = obv_after cs' a i).
  { destruct (H i (or_introl eq_refl)) as [Hv Hc].
    unfold obv_after. cbv zeta. rewrite <- Hv.
    destruct (Qltb_compare (close (candle_nth cs i))
                           (close (candle_nth cs (i - 1)))) as [H1 H2].
    destruct (Qltb_compare (close (candle_nth cs' i))
                           (close (candle_nth cs' (i - 1)))) as [H1' H2'].
    rewrite H1, H2, H1', H2', Hc. reflexivity. }
  rewrite Hi. apply IH. intros j Hj. apply H. right. exact Hj.
Qed.



(** ** Momentum: sign and the zero past price *)



(** ** What a pivot is *)

Lemma in_slice_indexed (candles : list Candle) (a b j : nat) (c : Candle) :
  b <= length candles ->
  In (j, c) (slice_indexed candles a b)
  <-> a <= j < b /\ c = candle_nth candles j.
Proof.
  intro Hb. unfold slice_indexed.
  assert (Hlen : length (range a b) = length (slice candles a b))
    by (rewrite range_length, slice_length by exact Hb; reflexivity).
  assert (Hnth : forall k, k < b - a ->
             nth k (combine (range a b) (slice candles a b))
                 (0, mkCandle 0 0 0 0 0 0)
             = (a + k, candle_nth candles (a + k))).
  { intros k Hk. rewrite combine_nth by exact Hlen. f_equal.
    - unfold range. apply seq_nth. exact Hk.
    - unfold slice, candle_nth. rewrite nth_firstn.
      apply Nat.ltb_lt in Hk. rewrite Hk. apply nth_skipn. }
  split.
  - intro H. apply (In_nth _ _ (0, mkCandle 0 0 0 0 0 0)) in H.
    destruct H as (k & Hk & E).
    rewrite length_combine, range_length, slice_length in Hk by exact Hb.
    rewrite Hnth in E by lia. injection E as <- <-. split; [lia|reflexivity].
  - intros [Hj ->].
    replace j with (a + (j - a)) by lia.
    rewrite <- Hnth by lia. apply nth_In.
    rewrite length_combine, range_length, slice_length by exact Hb. lia.
Qed.

Section Pivots.

Variable candles : list Candle.

Lemma isHigh_pivot (i : nat) :
  i + 5 < length candles ->
  isHigh (slice_indexed candles (i - 5) (i + 5 + 1)) i (candle_nth candles i)
  = true <-> pivot_high candles i.
Proof.
  intro Hi. unfold isHigh, pivot_high. rewrite forallb_forall. split.
  - intros H j Hj.
    specialize (H (j, candle_nth candles j)).
    cbn [fst snd] in H.
    destruct (j =? i) eqn:E.
    + apply Nat.eqb_eq in E. subst j. apply Qle_refl.
    + cbn [negb nge nle] in H. apply Qle_bool_iff. apply H.
      apply in_slice_indexed; [lia|]. split; [lia | reflexivity].
  - intros H [j c] Hin. apply in_slice_indexed in Hin; [|lia].
    destruct Hin as [Hj ->]. cbn [fst snd].
    destruct (j =? i); [reflexivity|]. cbn [negb nge nle].
    apply Qle_bool_iff. apply H. lia.
Qed.

Lemma isLow_pivot (i : nat) :
  i + 5 < length candles ->
  isLow (slice_indexed candles (i - 5) (i + 5 + 1)) i (candle_nth candles i)
  = true <-> pivot_low candles i.
Proof.
  intro Hi. unfold isLow, pivot_low. rewrite forallb_forall. split.
  - intros H j Hj.
    specialize (H (j, candle_nth candles j)).
    cbn [fst snd] in H.
    destruct (j =? i) eqn:E.
    + apply Nat.eqb_eq in E. subst j. apply Qle_refl.
    + cbn [negb nle] in H. apply Qle_bool_iff. apply H.
      apply in_slice_indexed; [lia|]. split; [lia | reflexivity].
  - intros H [j c] Hin. apply in_slice_indexed in Hin; [|lia].
    destruct Hin as [Hj ->]. cbn [fst snd].
    destruct (j =? i); [reflexivity|]. cbn [negb nle].
    apply Qle_bool_iff. apply H. lia.
Qed.

Lemma pivot_step_levels (acc : list Q) (i : nat) :
  i < length candles ->
  pivot_step candles 5 (map Fin acc) i
  = Ok (map Fin (acc ++ pivot_levels_at candles i)).
Proof.
  intro Hi. unfold pivot_step, pivot_levels_at.
  rewrite candle_at_nth by exact Hi. cbn [bind].
  destruct (isHigh _ _ _), (isLow _ _ _);
    rewrite ?map_app, ?app_nil_r; cbn [map app];
    rewrite <- ?app_assoc; reflexivity.
Qed.

Lemma pivot_loop_levels (idxs : list nat) (acc : list Q) :
  (forall i, In i idxs -> i < length candles) ->
  for_each (pivot_step candles 5) idxs (map Fin acc)
  = Ok (map Fin (acc ++ flat_map (pivot_levels_at candles) idxs)).
Proof.
  revert acc. induction idxs as [|i idxs IH]; intros acc Hin.
  - simpl. rewrite app_nil_r. reflexivity.
  - cbn [for_each flat_map].
    rewrite pivot_step_levels by (apply Hin; left; reflexivity).
    cbn [bind]. rewrite IH by (intros j Hj; apply Hin; right; exact Hj).
    rewrite app_assoc. reflexivity.
Qed.

(** X13. The pivot points are exactly the highs of the pivot highs and the lows
    of the pivot lows among the candles that have five candles on either
    side; a tie is enough, so a plateau gives several equal pivots. *)
Theorem pivot_points_are_local_extremes :
  exists pivots,
    pivot_points candles = Ok (map Fin pivots)
    /\ forall x,
         In x pivots <->
         exists i, 5 <= i /\ i + 5 < length candles
                   /\ ((x = high (candle_nth candles i)
                        /\ pivot_high candles i)
                       \/ (x = low (candle_nth candles i)
                           /\ pivot_low candles i)).
Proof.
  exists (flat_map (pivot_levels_at candles) (range 5 (length candles - 5))).
  split.
  - unfold pivot_points. change (@nil num) with (map Fin []).
    rewrite pivot_loop_levels by (intros i Hi; apply in_range in Hi; lia).
    reflexivity.
  - intro x. rewrite in_flat_map. split.
    + intros (i & Hi & Hx). apply in_range in Hi.
      exists i. split; [lia|]. split; [lia|].
      unfold pivot_levels_at in Hx. apply in_app_or in Hx.
      destruct Hx as [Hx|Hx].
      * destruct (isHigh _ _ _) eqn:E; [|destruct Hx].
        destruct Hx as [<-|[]]. left. split; [reflexivity|].
        apply isHigh_pivot; [lia | exact E].
      * destruct (isLow _ _ _) eqn:E; [|destruct Hx].
        destruct Hx as [<-|[]]. right. split; [reflexivity|].
        apply isLow_pivot; [lia | exact E].
    + intros (i & H5 & Hi & Hx). exists i. split; [apply in_range; lia|].
      unfold pivot_levels_at. apply in_or_app.
      destruct Hx as [[-> Hp]|[-> Hp]].
      * left. apply isHigh_pivot in Hp; [|lia]. rewrite Hp.
        left. reflexivity.
      * right. apply isLow_pivot in Hp; [|lia]. rewrite Hp.
        left. reflexivity.
Qed.

End Pivots.

(** * Properties of the signal table *)

Import Prediction PredictionSpec.

Section TableShape.

Variable Number_toFixed : num -> nat -> String.string.

Lemma toFixed_number (x : num) (digits : nat) :
  x <> Undefined ->
  toFixed Number_toFixed x digits = Ok (Number_toFixed x digits).
Proof. destruct x; intro H; try reflexivity. contradiction. Qed.

Lemma toFixed_undefined (digits : nat) :
  toFixed Number_toFixed Undefined digits = TypeError.
Proof. reflexivity. Qed.

Ltac skip_reading :=
  match goal with
  | |- context [toFixed Number_toFixed ?x ?d] =>
      destruct (toFixed Number_toFixed x d); cbn [bind]; [|reflexivity]
  end.

Lemma table_throws (indicators : TechnicalIndicators.t)
  (marketData : MarketData.t) :
  In Undefined (formatted indicators marketData) ->
  technicalIndicatorsList Number_toFixed indicators marketData = TypeError.
Proof.
  unfold formatted, technicalIndicatorsList. cbv zeta. intro H.
  repeat (destruct H as [H|H];
          [rewrite H, toFixed_undefined; reflexivity
          | try skip_reading]).
  destruct H.
Qed.

Lemma table_returns (indicators : TechnicalIndicators.t)
  (marketData : MarketData.t) :
  ~ In Undefined (formatted indicators marketData) ->
  exists rows,
    technicalIndicatorsList Number_toFixed indicators marketData = Ok rows.
Proof.
  intro Hdef. unfold formatted in Hdef.
  unfold technicalIndicatorsList. cbv zeta.
  rewrite !toFixed_number
    by (intro E; apply Hdef; rewrite E; cbn [In]; tauto).
  cbn [bind]. eexists. reflexivity.
Qed.

Lemma nabs_NaN_false (y : num) : ngt (nabs NaN) y = false.
Proof. destruct y; reflexivity. Qed.

Lemma ngt_NaN_false (y : num) : ngt NaN y = false.
Proof. destruct y; reflexivity. Qed.

(** X14. The table of votes has nine rows whatever the readings are, and
    building it throws exactly when one of the ten formatted readings is
    [undefined].  Every strength lies between 50 and 90.  Only the RSI,
    Stochastic, Bollinger and volume rows can abstain; the volume row never
    votes DOWN; an abstaining row other than the volume row has strength
    50.  The MACD, Momentum and ROC rows vote UP exactly when their reading
    is above zero, so that a NaN reading is a DOWN vote of strength 50. *)
Theorem signal_table_votes (indicators : TechnicalIndicators.t)
  (marketData : MarketData.t) :
  let table := technicalIndicatorsList Number_toFixed indicators marketData in
  (In Undefined (formatted indicators marketData) -> table = TypeError)
  /\ (~ In Undefined (formatted indicators marketData) ->
      exists rows,
        table = Ok rows
        /\ map Row.name rows = row_names
        /\ (forall r, In r rows ->
              (50 <= Row.strength r <= 90)%Q
              /\ (Row.signal r = NEUTRAL -> In (Row.name r) may_abstain)
              /\ (Row.category r = VOLUME -> Row.signal r <> DOWN)
              /\ (Row.signal r = NEUTRAL -> Row.category r <> VOLUME ->
                  Row.strength r = 50%Q)
              /\ (forall x, In (Row.name r, x) (sign_rows indicators) ->
                    (Row.signal r = UP <-> ngt x (Fin 0) = true)
                    /\ (Row.signal r <> NEUTRAL)
                    /\ (x = NaN ->
                        Row.signal r = DOWN /\ Row.strength r = 50%Q)))).
Proof.
  cbv zeta. split; [apply table_throws|].
  intro Hdef. unfold formatted in Hdef.
  unfold technicalIndicatorsList. cbv zeta.
  rewrite !toFixed_number
    by (intro E; apply Hdef; rewrite E; cbn [In]; tauto).
  cbn [bind]. eexists. split; [reflexivity|]. split; [reflexivity|].
  intros r Hr. cbn [In] in Hr.
  assert (Hsign : forall (x y : num) (s : String.string),
             (s, y) = (s, x) -> y = x) by (intros x y s E; congruence).
  repeat (destruct Hr as [Hr|Hr];
          [subst r;
           cbn [Row.name Row.signal Row.strength Row.category]|]);
    [ .. | destruct Hr ].
  - (* RSI *)
    destruct (nlt _ _); [|destruct (ngt _ _)];
      (split; [split; apply Qle_bool_iff; reflexivity|]);
      (split; [intro E; try discriminate E; cbn; tauto|]);
      (split; [intro E; discriminate E|]);
      (split; [intros E _; try discriminate E; reflexivity|]);
      intros x Hx; cbn [sign_rows In] in Hx;
      repeat (destruct Hx as [Hx|Hx]; [discriminate Hx|]); destruct Hx.
  - (* Stochastic *)
    destruct (nlt _ _); [|destruct (ngt _ _)];
      (split; [split; apply Qle_bool_iff; reflexivity|]);
      (split; [intro E; try discriminate E; cbn; tauto|]);
      (split; [intro E; discriminate E|]);
      (split; [intros E _; try discriminate E; reflexivity|]);
      intros x Hx; cbn [sign_rows In] in Hx;
      repeat (destruct Hx as [Hx|Hx]; [discriminate Hx|]); destruct Hx.
  - (* MACD *)
    split.
    { destruct (ngt (nabs _) _); split; apply Qle_bool_iff; reflexivity. }
    split; [destruct (ngt _ (Fin 0)); intro E; discriminate E|].
    split; [intro E; discriminate E|].
    split; [destruct (ngt _ (Fin 0)); intros E _; discriminate E|].
    intros x Hx. cbn [sign_rows In] in Hx.
    destruct Hx as [Hx|[Hx|[Hx|[]]]]; try discriminate Hx.
    apply Hsign in Hx. rewrite Hx.
    split; [destruct (ngt x (Fin 0)); split; intro E;
            try reflexivity; discriminate E|].
    split; [destruct (ngt x (Fin 0)); intro E; discriminate E|].
    intros ->. rewrite nabs_NaN_false, ngt_NaN_false. split; reflexivity.
  - (* ADX *)
    split.
    { destruct (ngt _ (Fin 40)); [|destruct (ngt _ (Fin 25))];
        split; apply Qle_bool_iff; reflexivity. }
    split; [destruct (ngt _ _); intro E; discriminate E|].
    split; [intro E; discriminate E|].
    split; [destruct (ngt (ADX.plusDI _) _); intros E _; discriminate E|].
    intros x Hx. cbn [sign_rows In] in Hx.
    repeat (destruct Hx as [Hx|Hx]; [discriminate Hx|]). destruct Hx.
  - (* SMA *)
    split; [split; apply Qle_bool_iff; reflexivity|].
    split; [destruct (ngt _ _); intro E; discriminate E|].
    split; [intro E; discriminate E|].
    split; [destruct (ngt _ _); intros E _; discriminate E|].
    intros x Hx. cbn [sign_rows In] in Hx.
    repeat (destruct Hx as [Hx|Hx]; [discriminate Hx|]). destruct Hx.
  - (* Bollinger Bands *)
    destruct (nlt _ _); [|destruct (ngt _ _)];
      (split; [split; apply Qle_bool_iff; reflexivity|]);
      (split; [intro E; try discriminate E; cbn; tauto|]);
      (split; [intro E; discriminate E|]);
      (split; [intros E _; try discriminate E; reflexivity|]);
      intros x Hx; cbn [sign_rows In] in Hx;
      repeat (destruct Hx as [Hx|Hx]; [discriminate Hx|]); destruct Hx.
  - (* Volume Trend *)
    split.
    { destruct (ngt (nabs _) _); split; apply Qle_bool_iff; reflexivity. }
    split; [intros _; cbn; tauto|].
    split; [destruct (ngt _ (Fin 10)); intros _ E; discriminate E|].
    split; [intros _ E; exfalso; apply E; reflexivity|].
    intros x Hx. cbn [sign_rows In] in Hx.
    repeat (destruct Hx as [Hx|Hx]; [discriminate Hx|]). destruct Hx.
  - (* Momentum *)
    split.
    { destruct (ngt (nabs _) _); split; apply Qle_bool_iff; reflexivity. }
    split; [destruct (ngt _ (Fin 0)); intro E; discriminate E|].
    split; [intro E; discriminate E|].
    split; [destruct (ngt _ (Fin 0)); intros E _; discriminate E|].
    intros x Hx. cbn [sign_rows In] in Hx.
    destruct Hx as [Hx|[Hx|[Hx|[]]]]; try discriminate Hx.
    apply Hsign in Hx. rewrite Hx.
    split; [destruct (ngt x (Fin 0)); split; intro E;
            try reflexivity; discriminate E|].
    split; [destruct (ngt x (Fin 0)); intro E; discriminate E|].
    intros ->. rewrite nabs_NaN_false, ngt_NaN_false. split; reflexivity.
  - (* ROC *)
    split.
    { destruct (ngt (nabs _) _); split; apply Qle_bool_iff; reflexivity. }
    split; [destruct (ngt _ (Fin 0)); intro E; discriminate E|].
    split; [intro E; discriminate E|].
    split; [destruct (ngt _ (Fin 0)); intros E _; discriminate E|].
    intros x Hx. cbn [sign_rows In] in Hx.
    destruct Hx as [Hx|[Hx|[Hx|[]]]]; try discriminate Hx.
    apply Hsign in Hx. rewrite Hx.
    split; [destruct (ngt x (Fin 0)); split; intro E;
            try reflexivity; discriminate E|].
    split; [destruct (ngt x (Fin 0)); intro E; discriminate E|].
    intros ->. rewrite nabs_NaN_false, ngt_NaN_false. split; reflexivity.
Qed.

End TableShape.

Lemma signal_table_votes_witness :
  technicalIndicatorsList plain_toFixed default_report market_without_volume
  = TypeError
  /\ exists rows,
       technicalIndicatorsList plain_toFixed default_report sample_market
       = Ok rows
       /\ map Row.name rows = row_names.
Proof.
  split.
  - apply (proj1 (signal_table_votes plain_toFixed default_report
                    market_without_volume)).
    simpl. tauto.
  - destruct (proj2 (signal_table_votes plain_toFixed default_report
                       sample_market))
      as (rows & E & Hn & _).
    + simpl. intuition discriminate.
    + exists rows. split; [exact E | exact Hn].
Defined.

(** ** Counting the votes *)

Lemma length_signals_cons (s : Signal) (r : Row.t) (l : list Row.t) :
  length (signals s (r :: l)) = votes_for s r + length (signals s l).
Proof.
  unfold signals, votes_for. cbn [filter].
  destruct (Signal_eqb (Row.signal r) s); reflexivity.
Qed.

Lemma votes_total (r : Row.t) :
  votes_for UP r + votes_for DOWN r + votes_for NEUTRAL r = 1.
Proof. unfold votes_for. destruct (Row.signal r); reflexivity. Qed.

Lemma score_from (l : list Row.t) (a : Q) :
  (fold_left (fun sum s => sum + Row.strength s) l a
   == a + Qsum (map Row.strength l))%Q.
Proof.
  revert a. induction l as [|r l IH]; intro a; simpl.
  - lra.
  - rewrite IH. lra.
Qed.

Lemma signals_cons (s : Signal) (r : Row.t) (l : list Row.t) :
  signals s (r :: l)
  = if Signal_eqb (Row.signal r) s then r :: signals s l else signals s l.
Proof. reflexivity. Qed.

Lemma Qsum_cons (x : Q) (l : list Q) : Qsum (x :: l) = (x + Qsum l)%Q.
Proof. reflexivity. Qed.

Lemma scores_counted (l : list Row.t) :
  (upScore l + downScore l == Qsum (map counted l))%Q.
Proof.
  unfold upScore, downScore, score. rewrite !score_from.
  induction l as [|r l IH].
  - cbn. lra.
  - rewrite !signals_cons. cbn [map]. rewrite Qsum_cons.
    set (T := Qsum (map counted l)) in *.
    unfold counted.
    destruct (Row.signal r); cbn [Signal_eqb map]; rewrite ?Qsum_cons; lra.
Qed.

Section Votes.

Variable Number_toFixed : num -> nat -> String.string.
Variable indicators : TechnicalIndicators.t.
Variable marketData : MarketData.t.
Variable rows : list Row.t.
Hypothesis table_built :
  technicalIndicatorsList Number_toFixed indicators marketData = Ok rows.

Ltac split_tests :=
  repeat match goal with
    | |- context [if ?b then _ else _] =>
        lazymatch b with
        | context [Signal_eqb] => fail
        | _ => destruct b
        end
    end.

Ltac row_bounds :=
  unfold counted; cbn [Row.signal Row.strength]; split_tests;
  cbn [Signal_eqb]; apply Qle_bool_iff; reflexivity.

Ltac row_vote :=
  unfold votes_for; cbn [Row.signal]; split_tests; reflexivity.

Lemma table_rows :
  exists r0 r1 r2 r3 r4 r5 r6 r7 r8,
    rows = [r0; r1; r2; r3; r4; r5; r6; r7; r8]
    /\ (votes_for NEUTRAL r2 = 0 /\ votes_for NEUTRAL r3 = 0
        /\ votes_for NEUTRAL r4 = 0 /\ votes_for NEUTRAL r7 = 0
        /\ votes_for NEUTRAL r8 = 0 /\ votes_for DOWN r6 = 0)
    /\ ((0 <= counted r0 <= 85) /\ (0 <= counted r1 <= 90)
        /\ (50 <= counted r2 <= 75) /\ (50 <= counted r3 <= 85)
        /\ (67 <= counted r4 <= 67) /\ (0 <= counted r5 <= 75)
        /\ (0 <= counted r6 <= 80) /\ (50 <= counted r7 <= 70)
        /\ (50 <= counted r8 <= 70))%Q.
Proof.
  pose proof table_built as H.
  unfold technicalIndicatorsList in H. cbv zeta in H.
  repeat match type of H with
    | context [toFixed Number_toFixed ?x ?d] =>
        destruct (toFixed Number_toFixed x d); cbn [bind] in H;
        [|discriminate H]
    end.
  injection H as <-.
  do 9 eexists. split; [reflexivity|]. split.
  - repeat split; row_vote.
  - repeat match goal with |- _ /\ _ => split end; row_bounds.
Qed.

Lemma vote_counts :
  length (signals UP rows) + length (signals DOWN rows)
  + length (signals NEUTRAL rows) = 9
  /\ length (signals NEUTRAL rows) <= 4
  /\ length (signals DOWN rows) <= 8.
Proof.
  destruct table_rows
    as (r0 & r1 & r2 & r3 & r4 & r5 & r6 & r7 & r8 & -> & Hv & _).
  destruct Hv as (N2 & N3 & N4 & N7 & N8 & D6).
  rewrite !length_signals_cons. cbn [signals filter length].
  pose proof (votes_total r0). pose proof (votes_total r1).
  pose proof (votes_total r2). pose proof (votes_total r3).
  pose proof (votes_total r4). pose proof (votes_total r5).
  pose proof (votes_total r6). pose proof (votes_total r7).
  pose proof (votes_total r8).
  lia.
Qed.

Lemma alignment_value :
  exists a,
    signalAlignment rows = Fin a
    /\ (a == inject_Z (Z.of_nat (Nat.max (length (signals UP rows))
                                         (length (signals DOWN rows))))
             / 9 * 100)%Q
    /\ (100 / 3 <= a <= 100)%Q.
Proof.
  destruct vote_counts as (Ht & Hn & Hd).
  assert (Hlen : length rows = 9).
  { destruct table_rows as (r0 & r1 & r2 & r3 & r4 & r5 & r6 & r7 & r8
                            & -> & _).
    reflexivity. }
  unfold signalAlignment. rewrite Hlen.
  set (m := Nat.max _ _).
  assert (Hm : 3 <= m <= 9) by (unfold m; lia).
  unfold of_nat at 1. rewrite ndiv_of_nat by lia. cbn [nmul].
  eexists. split; [reflexivity|].
  change (inject_Z (Z.of_nat 9)) with 9%Q.
  split; [reflexivity|].
  assert (H3 : (3 <= inject_Z (Z.of_nat m))%Q).
  { change 3%Q with (inject_Z 3). rewrite <- Zle_Qle. lia. }
  assert (H9 : (inject_Z (Z.of_nat m) <= 9)%Q).
  { change 9%Q with (inject_Z 9). rewrite <- Zle_Qle. lia. }
  set (x := inject_Z (Z.of_nat m)) in *. clearbody x.
  setoid_replace (x / 9 * 100)%Q with (x * (100 # 9))%Q by field.
  setoid_replace (100 / 3)%Q with (100 # 3)%Q by reflexivity.
  split; lra.
Qed.


End Votes.


(** ** The verdict without a decision of the language model *)

Lemma round_between (lo hi : Z) (y : Q) :
  (inject_Z lo <= y + (1 # 2))%Q ->
  (y + (1 # 2) <= inject_Z hi + (1 # 2))%Q ->
  (lo <= Qround.Qfloor (y + (1 # 2)) <= hi)%Z.
Proof.
  intros Hlo Hhi. split.
  - rewrite <- (Qround.Qfloor_Z lo). apply Qround.Qfloor_resp_le. exact Hlo.
  - assert (E : Qround.Qfloor (inject_Z hi + (1 # 2)) = hi).
    { apply Z.le_antisymm.
      - apply Z.lt_succ_r. rewrite Zlt_Qlt.
        apply Qle_lt_trans with (inject_Z hi + (1 # 2))%Q.
        + apply Qround.Qfloor_le.
        + unfold Z.succ. rewrite inject_Z_plus.
          change (inject_Z 1) with 1%Q. lra.
      - rewrite <- (Qround.Qfloor_Z hi) at 1.
        apply Qround.Qfloor_resp_le. lra. }
    rewrite <- E. apply Qround.Qfloor_resp_le. exact Hhi.
Qed.

Section Verdict.

Variable Number_toFixed : num -> nat -> String.string.
Variable indicators : TechnicalIndicators.t.
Variable marketData : MarketData.t.
Variable rows : list Row.t.
Variable t : Q.
Hypothesis table_built :
  technicalIndicatorsList Number_toFixed indicators marketData = Ok rows.
Hypothesis trend_value : TechnicalIndicators.trendStrength indicators = Fin t.
Hypothesis trend_percent : percent t.

Lemma verdict_values :
  (exists c : Z,
     confidence None rows indicators = Fin (inject_Z c)
     /\ (27 <= c <= 95)%Z)
  /\ (exists q : Z,
        qualityScore rows indicators = Fin (inject_Z q)
        /\ (17 <= q <= 100)%Z).
Proof.
  destruct (@alignment_value Number_toFixed indicators marketData rows
              table_built) as (a & Ea & _ & Ha).
  destruct trend_percent as [Ht0 Ht1].
  assert (Ha' : ((100 # 3) <= a)%Q).
  { setoid_replace (100 # 3)%Q with (100 / 3)%Q by reflexivity. tauto. }
  destruct Ha as [_ Ha1].
  split.
  - unfold confidence. cbn [truthy]. rewrite Ea, trend_value.
    cbn [nmul nadd nmin Math_round].
    eexists. split; [reflexivity|].
    apply round_between.
    + apply Qle_trans with ((80 # 3) + (1 # 2))%Q; [discriminate|].
      apply Qplus_le_l. apply Q.min_glb; lra.
    + apply Qplus_le_l. apply Q.le_min_l.
  - unfold qualityScore. rewrite Ea, trend_value.
    cbn [nadd]. unfold ndiv.
    change (Qeq_bool 2 0) with false. cbv iota. cbn [Math_round].
    eexists. split; [reflexivity|].
    apply round_between.
    + apply Qle_trans with ((50 # 3) + (1 # 2))%Q; [discriminate|].
      apply Qplus_le_l. apply Qle_shift_div_l; [reflexivity|]. lra.
    + apply Qplus_le_l. apply Qle_shift_div_r; [reflexivity|].
      change (inject_Z 100) with 100%Q. lra.
Qed.

(** X16. When the language model gives no decision, the direction is UP exactly
    when the UP score exceeds the DOWN score and DOWN otherwise, a tie
    included; it is never NEUTRAL.  For a trend strength in [[0, 100]] the
    confidence is an integer between 27 and 95 and the quality score an
    integer between 17 and 100.  A decision always keeps its direction, and
    when its confidence is 0 or NaN the confidence is the computed one. *)
Theorem fallback_verdict :
  direction None rows <> NEUTRAL
  /\ (direction None rows = UP <-> (downScore rows < upScore rows)%Q)
  /\ (exists c : Z,
        confidence None rows indicators = Fin (inject_Z c)
        /\ (27 <= c <= 95)%Z)
  /\ (exists q : Z,
        qualityScore rows indicators = Fin (inject_Z q)
        /\ (17 <= q <= 100)%Z)
  /\ (forall decision,
        direction (Some decision) rows
        = GeminiPredictionDecision.direction decision
        /\ (truthy (GeminiPredictionDecision.confidence decision) = false ->
            confidence (Some decision) rows indicators
            = confidence None rows indicators)).
Proof.
  destruct verdict_values as [Hc Hq].
  split; [|split; [|split; [|split]]].
  - unfold direction. destruct (Qltb _ _); discriminate.
  - unfold direction. rewrite <- Qltb_true.
    destruct (Qltb _ _); split; intro E; try reflexivity; discriminate E.
  - exact Hc.
  - exact Hq.
  - intro decision. split; [reflexivity|].
    intro E. unfold confidence. rewrite E. reflexivity.
Qed.

End Verdict.

Lemma fallback_verdict_witness :
  exists rows c,
    technicalIndicatorsList plain_toFixed default_report sample_market
    = Ok rows
    /\ direction None rows = DOWN
    /\ confidence None rows default_report = Fin (inject_Z c)
    /\ (27 <= c <= 95)%Z.
Proof.
  exists (match technicalIndicatorsList plain_toFixed default_report
                 sample_market with
          | Ok rows => rows
          | TypeError => []
          end).
  destruct (@fallback_verdict plain_toFixed default_report sample_market _ 0
              eq_refl eq_refl)
    as (_ & _ & (c & E & Hc) & _).
  - split; discriminate.
  - exists c. split; [reflexivity|]. split; [reflexivity|].
    split; [exact E | exact Hc].
Defined.

(** ** The table built from the report of [analyzeMarket] *)

Lemma nadd_number (a b : num) : nadd a b <> Undefined.
Proof. destruct a, b; discriminate. Qed.

Lemma nsub_number (a b : num) : nsub a b <> Undefined.
Proof. apply nadd_number. Qed.

Lemma nmul_number (a b : num) : nmul a b <> Undefined.
Proof.
  destruct a, b; unfold nmul; try discriminate;
    match goal with |- inf_of_sign ?c <> _ => destruct c end; discriminate.
Qed.

Lemma ndiv_number (a b : num) : ndiv a b <> Undefined.
Proof.
  destruct a, b; unfold ndiv; try discriminate.
  - destruct (Qeq_bool q0 0); [destruct (q ?= 0)%Q|]; discriminate.
  - destruct (Qltb q 0); discriminate.
  - destruct (Qltb q 0); discriminate.
Qed.

(** Peels the first call off a sequence of calls that returned. *)
Ltac bind_inv H :=
  match type of H with
  | bind ?e _ = Ok _ =>
      let E := fresh "E" in
      destruct e eqn:E; cbn [bind] in H; [|discriminate H]
  end.

Lemma rsi_number (candles : list Candle) (period : nat) :
  calculateRSI candles period <> Undefined.
Proof.
  unfold calculateRSI. destruct (_ <? _); [discriminate|]. cbv zeta.
  destruct (neq _ _); [discriminate | apply nsub_number].
Qed.

Lemma macd_number (candles : list Candle) (m : MACD.t) :
  calculateMACD candles = Ok m -> MACD.histogram m <> Undefined.
Proof.
  unfold calculateMACD. cbv zeta. intro H.
  do 4 bind_inv H. injection H as <-. apply nsub_number.
Qed.

Lemma stochastic_k_number (c l h : num) :
  (if nne h l then percent_k c l h else Fin 50) <> Undefined.
Proof. destruct (nne h l); [apply nmul_number | discriminate]. Qed.

Lemma stochastic_number (candles : list Candle) (s : Stochastic.t) :
  calculateStochastic candles 14 3 = Ok s ->
  Stochastic.k s <> Undefined /\ Stochastic.d s <> Undefined.
Proof.
  unfold calculateStochastic. destruct (_ <? _).
  - intro H. injection H as <-. split; discriminate.
  - cbv zeta. intro H. do 3 bind_inv H. injection H as <-.
    cbn [Stochastic.k Stochastic.d].
    split; [apply stochastic_k_number|].
    match goal with
    | E : (if ?b then _ else _) = Ok _ |- _ =>
        destruct b;
        [bind_inv E; injection E as <-; apply ndiv_number
        | injection E as <-; apply stochastic_k_number]
    end.
Qed.

Lemma adx_number (candles : list Candle) (a : ADX.t) :
  calculateADX candles 14 = Ok a -> ADX.value a <> Undefined.
Proof.
  unfold calculateADX. destruct (_ <? _).
  - intro H. injection H as <-. discriminate.
  - cbv zeta. intro H. do 6 bind_inv H. injection H as <-.
    cbn [ADX.value].
    match goal with
    | E : (if ?b then _ else _) = Ok _ |- _ =>
        destruct b;
        [bind_inv E; injection E as <-; apply ndiv_number
        | injection E as <-]
    end.
    destruct (nne _ _); [apply nmul_number | discriminate].
Qed.

Lemma sma_number (prices : list num) (period : nat) (s : num) :
  calculateSMA prices period = Ok s -> s <> Undefined.
Proof.
  unfold calculateSMA. destruct (_ <? _); intro H; bind_inv H;
    injection H as <-; apply ndiv_number.
Qed.

Lemma momentum_number (candles : list Candle) (p : nat) (m : num) :
  calculateMomentum candles p = Ok m -> m <> Undefined.
Proof.
  unfold calculateMomentum. destruct (_ <? _); intro H.
  - injection H as <-. discriminate.
  - do 2 bind_inv H. injection H as <-. apply nmul_number.
Qed.

Lemma roc_number (candles : list Candle) (p : nat) (m : num) :
  calculateROC candles p = Ok m -> m <> Undefined.
Proof.
  unfold calculateROC. destruct (_ <? _); intro H.
  - injection H as <-. discriminate.
  - do 2 bind_inv H. injection H as <-. apply nmul_number.
Qed.

Section Composition.

Variable Math_sqrt : Q -> Q.
Variable Number_toFixed : num -> nat -> String.string.

Lemma analyzeMarket_returns (candles : list Candle) :
  candles <> [] -> exists r, analyzeMarket Math_sqrt candles = Ok r.
Proof.
  intro Hne.
  assert (Hlen : 0 < length candles)
    by (destruct candles; [congruence | simpl; lia]).
  assert (Hl : close_prices candles <> []).
  { unfold close_prices. destruct candles; [congruence | discriminate]. }
  unfold analyzeMarket. cbv zeta.
  destruct (adx_returns candles) as (v & p & m & Eadx).
  destruct (atr_returns candles) as (a & Eatr).
  destruct (@bollinger_returns Math_sqrt candles Hne) as (b & Eb).
  destruct (trend_strength_returns candles v) as (ts & Ets).
  destruct (macd_returns Hne) as (macd & Emacd).
  destruct (volume_indicator_returns candles) as (vi & Evi).
  destruct (stochastic_returns candles) as (st & Est).
  destruct (momentum_returns candles 10) as (mo & Emo).
  destruct (roc_returns candles 12) as (ro & Ero).
  destruct (ema_closes_returns 12 Hne) as (e12 & E12).
  destruct (ema_closes_returns 26 Hne) as (e26 & E26).
  destruct (ema_closes_returns 50 Hne) as (e50 & E50).
  destruct (support_resistance_returns candles
              (get (closes candles) (length (closes candles) - 1)))
    as (sr & Esr).
  rewrite Eadx, Eatr, Eb. cbn [bind ADX.value]. rewrite Ets, Emacd.
  cbn [bind].
  rewrite closes_as_map, !sma_Fin by (assumption || lia). cbn [bind].
  rewrite <- closes_as_map, E12, E26, E50, Evi, Est, obv_value, Emo, Ero,
    Esr.
  cbn [bind]. eexists. reflexivity.
Qed.

Lemma analyzeMarket_fields (candles : list Candle)
  (r : TechnicalIndicators.t) :
  analyzeMarket Math_sqrt candles = Ok r ->
  TechnicalIndicators.rsi r = calculateRSI candles 14
  /\ calculateMACD candles = Ok (TechnicalIndicators.macd r)
  /\ calculateStochastic candles 14 3
     = Ok (TechnicalIndicators.stochastic r)
  /\ calculateADX candles 14 = Ok (TechnicalIndicators.adx r)
  /\ calculateSMA (closes candles) 20
     = Ok (MovingAverages.sma20 (TechnicalIndicators.movingAverages r))
  /\ (exists b,
        BollingerReport.bandwidth (TechnicalIndicators.bollingerBands r)
        = bandwidth_of b)
  /\ calculateMomentum candles 10 = Ok (TechnicalIndicators.momentum r)
  /\ calculateROC candles 12 = Ok (TechnicalIndicators.roc r)
  /\ calculateTrendStrength candles
       (ADX.value (TechnicalIndicators.adx r))
     = Ok (TechnicalIndicators.trendStrength r).
Proof.
  unfold analyzeMarket. cbv zeta. intro H.
  do 4 bind_inv H. cbn [bind] in H. do 14 bind_inv H.
  injection H as <-.
  cbn [TechnicalIndicators.rsi TechnicalIndicators.macd
       TechnicalIndicators.stochastic TechnicalIndicators.adx
       TechnicalIndicators.movingAverages MovingAverages.sma20
       TechnicalIndicators.bollingerBands BollingerReport.bandwidth
       TechnicalIndicators.momentum TechnicalIndicators.roc
       TechnicalIndicators.trendStrength].
  repeat split; try reflexivity; try assumption. eexists. reflexivity.
Qed.

Lemma report_formatted (candles : list Candle) (marketData : MarketData.t)
  (r : TechnicalIndicators.t) :
  analyzeMarket Math_sqrt candles = Ok r ->
  MarketData.volumeChange24h marketData <> Undefined ->
  ~ In Undefined (formatted r marketData).
Proof.
  intros Er Hvol.
  destruct (@analyzeMarket_fields candles r Er)
    as (Ersi & Emacd & Est & Eadx & Esma & (b & Eb) & Emo & Ero & _).
  unfold formatted. cbn [In].
  pose proof (@rsi_number candles 14) as N1. rewrite <- Ersi in N1.
  pose proof (@macd_number candles _ Emacd) as N2.
  destruct (@stochastic_number candles _ Est) as [N3 N4].
  pose proof (@adx_number candles _ Eadx) as N5.
  pose proof (@sma_number _ _ _ Esma) as N6.
  pose proof (@nmul_number
                (ndiv (nsub (Bollinger.upper b) (Bollinger.lower b))
                      (Bollinger.middle b)) (Fin 100)) as N7.
  fold (bandwidth_of b) in N7. rewrite <- Eb in N7.
  pose proof (@momentum_number candles _ _ Emo) as N8.
  pose proof (@roc_number candles _ _ Ero) as N9.
  intuition congruence.
Qed.

(** X17. The table is built from every report of [analyzeMarket]: on a non-empty
    candle sequence and market data whose volume change is a number,
    neither [analyzeMarket] nor the table throws.  With fewer than 26
    candles the MACD row is a DOWN vote of strength 50; with at most 10
    candles the RSI and Stochastic rows abstain and the MACD, ADX, Momentum
    and ROC rows vote DOWN, so that at least four rows vote DOWN and at
    most three vote UP. *)
Theorem table_built_from_report (candles : list Candle)
  (marketData : MarketData.t) :
  candles <> [] ->
  MarketData.volumeChange24h marketData <> Undefined ->
  exists r rows,
    analyzeMarket Math_sqrt candles = Ok r
    /\ technicalIndicatorsList Number_toFixed r marketData = Ok rows
    /\ (length candles < 26 ->
        exists row, In row rows /\ Row.name row = macd_row
                    /\ Row.signal row = DOWN /\ Row.strength row = 50%Q)
    /\ (length candles <= 10 ->
        4 <= length (signals DOWN rows)
        /\ length (signals UP rows) <= 3
        /\ 2 <= length (signals NEUTRAL rows)).
Proof.
  intros Hne Hvol.
  destruct (@analyzeMarket_returns candles Hne) as (r & Er).
  destruct (@analyzeMarket_fields candles r Er)
    as (Ersi & Emacd & Est & Eadx & Esma & (b & Eb) & Emo & Ero & _).
  exists r.
  pose proof (@report_formatted candles marketData r Er Hvol) as Hdef.
  unfold formatted in Hdef.
  unfold technicalIndicatorsList. cbv zeta.
  rewrite !(@toFixed_number Number_toFixed)
    by (intro E; apply Hdef; rewrite E; cbn [In]; tauto).
  cbn [bind]. eexists. split; [exact Er|]. split; [reflexivity|].
  split.
  - intro Hlen.
    destruct (@macd_short_history candles Hne Hlen) as (v & Ev).
    rewrite Ev in Emacd. injection Emacd as Emacd.
    eexists. split; [right; right; left; reflexivity|].
    cbn [Row.name Row.signal Row.strength].
    rewrite <- Emacd. cbn [MACD.histogram].
    split; [reflexivity|]. split; reflexivity.
  - intro Hlen.
    destruct (@macd_short_history candles Hne ltac:(lia)) as (v & Ev).
    rewrite Ev in Emacd. injection Emacd as Emacd.
    assert (Ersi' : TechnicalIndicators.rsi r = Fin 50).
    { rewrite Ersi. unfold calculateRSI.
      replace (length candles <? 14 + 1) with true
        by (symmetry; apply Nat.ltb_lt; lia).
      reflexivity. }
    assert (Est' : TechnicalIndicators.stochastic r
                   = Stochastic.mk (Fin 50) (Fin 50)).
    { unfold calculateStochastic in Est.
      replace (length candles <? 14) with true in Est
        by (symmetry; apply Nat.ltb_lt; lia).
      congruence. }
    assert (Eadx' : TechnicalIndicators.adx r
                    = ADX.mk (Fin 0) (Fin 0) (Fin 0)).
    { unfold calculateADX in Eadx.
      replace (length candles <? 14 + 1) with true in Eadx
        by (symmetry; apply Nat.ltb_lt; lia).
      congruence. }
    assert (Emo' : TechnicalIndicators.momentum r = Fin 0).
    { unfold calculateMomentum in Emo.
      replace (length candles <? 10 + 1) with true in Emo
        by (symmetry; apply Nat.ltb_lt; lia).
      congruence. }
    assert (Ero' : TechnicalIndicators.roc r = Fin 0).
    { unfold calculateROC in Ero.
      replace (length candles <? 12 + 1) with true in Ero
        by (symmetry; apply Nat.ltb_lt; lia).
      congruence. }
    rewrite Ersi', Est', Eadx', Emo', Ero', <- Emacd.
    cbn [Stochastic.k Stochastic.d ADX.value ADX.plusDI ADX.minusDI
         MACD.histogram].
    rewrite !length_signals_cons. cbn [signals filter length].
    unfold votes_for. cbn [Row.signal].
    change (nlt (Fin 50) (Fin 30)) with false.
    change (ngt (Fin 50) (Fin 70)) with false.
    change (nlt (Fin 50) (Fin 20)) with false.
    change (ngt (Fin 50) (Fin 80)) with false.
    change (ngt NaN (Fin 0)) with false.
    change (ngt (Fin 0) (Fin 0)) with false.
    cbv iota. cbn [Signal_eqb].
    repeat match goal with
      | |- context [if ?b then UP else _] => destruct b
      | |- context [if ?b then DOWN else _] => destruct b
      end; cbn [Signal_eqb]; lia.
Qed.

End Composition.

Lemma table_built_from_report_witness :
  exists r rows,
    analyzeMarket Qsqrt (firstn 5 rsi_rising) = Ok r
    /\ technicalIndicatorsList plain_toFixed r sample_market = Ok rows
    /\ 4 <= length (signals DOWN rows).
Proof.
  destruct (@table_built_from_report Qsqrt plain_toFixed
              (firstn 5 rsi_rising) sample_market)
    as (r & rows & Er & Erows & _ & Hshort).
  - discriminate.
  - discriminate.
  - exists r, rows. split; [exact Er|]. split; [exact Erows|].
    apply Hshort. simpl. lia.
Defined.

(** ** From the candles to the verdict *)

Lemma adx_value_percent (candles : list Candle) :
  exists v p m,
    calculateADX candles 14 = Ok (ADX.mk (Fin v) (Fin p) (Fin m))
    /\ percent v.
Proof.
  unfold calculateADX. destruct (length candles <? 14 + 1) eqn:Hlen.
  - exists 0%Q, 0%Q, 0%Q. split; [reflexivity|]. unfold percent. lra.
  - apply Nat.ltb_ge in Hlen.
    rewrite adx_history_Fin. cbn [bind trValues plusDM minusDM].
    rewrite !trailing_mean by lia. cbn [bind].
    set (T := trailing_steps candles 14).
    set (t := (Qreduce (map (tr_at candles) T) / inject_Z (Z.of_nat 14))%Q).
    set (a := (Qreduce (map (plus_dm_at candles) T)
               / inject_Z (Z.of_nat 14))%Q).
    set (b := (Qreduce (map (minus_dm_at candles) T)
               / inject_Z (Z.of_nat 14))%Q).
    assert (Ht : (0 <= t)%Q).
    { apply Qmean_nonneg; [lia|]. rewrite Qreduce_sum.
      apply Qsum_map_nonneg, tr_at_nonneg. }
    assert (Ha : (0 <= a)%Q).
    { apply Qmean_nonneg; [lia|]. rewrite Qreduce_sum.
      apply Qsum_map_nonneg, plus_dm_at_nonneg. }
    assert (Hb : (0 <= b)%Q).
    { apply Qmean_nonneg; [lia|]. rewrite Qreduce_sum.
      apply Qsum_map_nonneg, minus_dm_at_nonneg. }
    rewrite !directional_index_Fin.
    pose proof (di_of_nonneg Ha Ht) as Hp.
    pose proof (di_of_nonneg Hb Ht) as Hm.
    rewrite !length_map.
    assert (Hidx : forall i,
               In i (range 14 (Nat.min (length (range 1 (length candles)))
                                       (14 * 2))) ->
               14 <= i <= length (range 1 (length candles))).
    { intros i Hi. apply in_range in Hi. lia. }
    destruct (@dx_loop_Fin (range 1 (length candles))
                (tr_at candles) (plus_dm_at candles) (minus_dm_at candles) 14
                (Nat.lt_0_succ 13)
                (tr_at_nonneg candles) (plus_dm_at_nonneg candles)
                (minus_dm_at_nonneg candles)
                _ [] Hidx (Forall_nil percent))
      as (dxs & Edx & Hdx).
    cbn [map] in Edx. rewrite Edx. cbn [bind]. rewrite length_map.
    destruct (0 <? length dxs) eqn:E0.
    + apply Nat.ltb_lt in E0.
      assert (Hne : dxs <> [])
        by (destruct dxs; [simpl in E0; lia | discriminate]).
      rewrite reduce_add_Fin by exact Hne. cbn [bind].
      rewrite ndiv_of_nat by exact E0.
      do 3 eexists. split; [reflexivity|]. apply Qmean_percent; assumption.
    + destruct (dx_Fin Hp Hm) as [E|(E & x & Ex & Hx)]; rewrite E;
        cbn [bind].
      * do 3 eexists. split; [reflexivity|]. unfold percent. lra.
      * rewrite Ex. do 3 eexists. split; [reflexivity | exact Hx].
Qed.

Lemma trend_strength_percent (candles : list Candle) (adxValue : Q) :
  (0 <= adxValue)%Q ->
  (20 <= length candles -> ~ (sma20_of candles == 0)%Q) ->
  exists t,
    calculateTrendStrength candles (Fin adxValue) = Ok (Fin t) /\ percent t.
Proof.
  intros Hadx Hs.
  destruct (Nat.lt_ge_cases (length candles) 20) as [H|H].
  - unfold calculateTrendStrength. apply Nat.ltb_lt in H. rewrite H.
    exists 0%Q. split; [reflexivity|]. unfold percent. lra.
  - specialize (Hs H). rewrite trend_strength_value by exact H.
    unfold trend_average, deviation_percent.
    cbn [nsub nneg nadd]. unfold ndiv at 2.
    rewrite (proj2 (Qeq_bool_false _ _) Hs).
    cbn [nmul nabs nadd of_nat].
    unfold ndiv. change (Qeq_bool 3 0) with false. cbn [nmin].
    eexists. split; [reflexivity|].
    set (dev := Qabs _).
    assert (Hdev : (0 <= dev)%Q) by apply Qabs_nonneg.
    set (run := inject_Z (Z.of_nat (momentum_run candles))).
    assert (Hrun : (0 <= run)%Q).
    { unfold run. change 0%Q with (inject_Z 0). rewrite <- Zle_Qle. lia. }
    set (t := ((adxValue + dev * 10 + run * 10) / 3)%Q).
    assert (Ht : (0 <= t)%Q).
    { unfold t. apply Qle_shift_div_l; lra. }
    split.
    + apply Q.min_glb; lra.
    + apply Q.le_min_l.
Qed.

Section EndToEnd.

Variable Math_sqrt : Q -> Q.
Variable Number_toFixed : num -> nat -> String.string.


End EndToEnd.

